(** * Undo / redo history of the blueprint editor

    A shallow embedding of [src/factorio-data/history.ts] and the proofs of
    its round-trip, truncation, transaction and callback properties.

    The module keeps three module-level variables ([s_HistoryIndex],
    [s_HistoryEntries], [s_Transaction]) and mutates, in place, the objects
    and [Map]s handed to [updateValue] and [updateMap].  All of this is
    gathered in one [World] that every function threads explicitly.  A
    JavaScript exception does not roll anything back, so a computation
    returns its outcome together with the world reached when it stopped.

    What is shared in the program is shared here: targets live in a store
    and closures name them by reference; [HistoryAction] objects live in
    the world and are named by reference from entries and from the handle
    that a mutation call returns, so a callback registered through the
    handle is seen by every later undo and redo.

    Scope of the model.  Objects and arrays live in a heap and a value
    names one by reference, so an object stored at two places, inside a
    history slot or inside another target is one object.  Properties are
    writable, configurable data properties; functions, getters, frozen
    objects and proxies are not values of the model.  [Object.prototype] is
    the one of the language, not extended by the program.  Where the
    program would go on inside an object of the engine (a member inherited
    from a prototype, a coercion, a change of prototype) the run is not
    followed: it stops and says so in the trace ([Unfollowed]).  Emit
    callbacks observe: they do not write to targets and do not call back
    into the module. *)

From stdpp Require Import gmap strings list fin_maps.

(** ** Values

    The data stored in a blueprint is JSON-like: primitives, objects and
    arrays.  An object or array is named by its address in the heap.
    Property order is not observable through the history module, so the
    own properties of an object are a finite map.  Integers stand for the
    numbers, strings of 8-bit characters for the strings. *)

Inductive jsval :=
| JUndefined
| JNull
| JBool (b : bool)
| JNum (n : Z)
| JStr (s : string)
| JRef (a : nat).

Global Instance jsval_eq_dec : EqDecision jsval.
Proof. solve_decision. Defined.

(** An ordinary object with its own properties, or an array with its
    [length] and its own properties other than [length]: the elements
    under their index keys (a missing index is a hole) and whatever else
    was assigned to it. *)
Inductive object :=
| JObj (fields : gmap string jsval)
| JArr (len : N) (fields : gmap string jsval).

Global Instance object_eq_dec : EqDecision object.
Proof. solve_decision. Defined.

(** Keys of a [Map<K, V>]: numbers or strings. *)
Inductive mapkey :=
| KNum (n : Z)
| KStr (s : string).

Global Instance mapkey_eq_dec : EqDecision mapkey.
Proof. solve_decision. Defined.

Global Instance mapkey_countable : Countable mapkey :=
  inj_countable'
    (λ k, match k with KNum n => inl n | KStr s => inr s end)
    (λ x, match x with inl n => KNum n | inr s => KStr s end)
    (λ k, match k with KNum _ => eq_refl | KStr _ => eq_refl end).

(** [enum HistoryValue] *)
Inductive HistoryValue := New | Old.

(** [interface IValueInfo<V>]; [exists] is a keyword here, hence the
    underscore. *)
Record IValueInfo := { value : jsval; exists_ : bool }.

Inductive ActionType := init | add | del | mov | upd.

(** [interface IHistoryData] *)
Record IHistoryData := {
  type : ActionType;
  entity_number : Z;
  other_entity : option Z
}.

(** ** The store of targets

    Targets are objects and [Map]s owned by the caller; the closures kept in
    the history refer to them, they do not copy them.  A target is therefore
    named by a reference into a store that the caller and the history
    share, and so is every object that a property or a history slot holds.
    A reference that names nothing in the store cannot be formed in the
    program; the functions below fault on one. *)

Abbreviation ref := nat (only parsing).

Record Store := {
  objects : gmap nat object;
  maps : gmap nat (gmap mapkey jsval)
}.

Definition store_object (a : ref) (o : object) (σ : Store) : Store :=
  {| objects := <[a := o]> (objects σ); maps := maps σ |}.

(** The slot for what a location holds: [{ value, exists: true }] when
    the property or key is there, [{ value: undefined, exists: false }]
    otherwise. *)
Definition slot_of (o : option jsval) : IValueInfo :=
  match o with
  | Some v => {| value := v; exists_ := true |}
  | None => {| value := JUndefined; exists_ := false |}
  end.

(** ** Property access

    What one step of the accessor does: it returns, it raises ([TypeError],
    or [RangeError] for a bad array length), or it goes on inside the
    engine where the model does not follow. *)
Inductive Outcome (A : Type) :=
| Done (a : A)
| Raises
| Beyond.
Global Arguments Done {A} a.
Global Arguments Raises {A}.
Global Arguments Beyond {A}.

Global Instance Outcome_bind : MBind Outcome :=
  λ A B f o, match o with
             | Done a => f a
             | Raises => Raises
             | Beyond => Beyond
             end.

(** The result of a step that returned. *)
Definition returned {A} (o : Outcome A) : option A :=
  match o with
  | Done a => Some a
  | _ => None
  end.

(** Array indices are the canonical decimal numerals below [2^32 - 1]. *)
Definition digit_of (c : Ascii.ascii) : option N :=
  let n := Ascii.N_of_ascii c in
  if decide (48 ≤ n ≤ 57)%N then Some (n - 48)%N else None.

Fixpoint digits (acc : N) (s : string) : option N :=
  match s with
  | EmptyString => Some acc
  | String c s' => d ← digit_of c; digits (10 * acc + d)%N s'
  end.

Definition index_of (k : string) : option N :=
  match k with
  | EmptyString => None
  | String c rest =>
      if decide (Ascii.N_of_ascii c = 48%N) then
        match rest with EmptyString => Some 0%N | _ => None end
      else
        n ← digits 0 k;
        if decide (n < 4294967295)%N then Some n else None
  end.

(** Own properties of a string: [length] and one character per index. *)
Definition string_own (s : string) (k : string) : option jsval :=
  if decide (k = "length") then Some (JNum (Z.of_nat (String.length s)))
  else
    n ← index_of k;
    if decide (n < N.of_nat (String.length s))%N then
      c ← String.get (N.to_nat n) s; Some (JStr (String c EmptyString))
    else None.

(** Own properties of an object or array. *)
Definition own (o : object) (k : string) : option jsval :=
  match o with
  | JObj m => m !! k
  | JArr len m =>
      if decide (k = "length") then Some (JNum (Z.of_N len)) else m !! k
  end.

(** The members every ordinary object inherits from [Object.prototype]. *)
Definition Object_prototype : list string :=
  ["constructor"; "hasOwnProperty"; "isPrototypeOf"; "propertyIsEnumerable";
   "toLocaleString"; "toString"; "valueOf"; "__proto__";
   "__defineGetter__"; "__defineSetter__"; "__lookupGetter__";
   "__lookupSetter__"].

(** [obj[k]] read on the way down a path.  An own property answers.  A key
    that an ordinary object does not own answers [undefined] unless
    [Object.prototype] has a member of that name.  What an array, a string,
    a number or a boolean answers for a key it does not own depends on the
    prototypes of the engine. *)
Definition get_member (σ : Store) (obj : jsval) (k : string) : Outcome jsval :=
  match obj with
  | JUndefined | JNull => Raises
  | JBool _ | JNum _ => Beyond
  | JStr s =>
      match string_own s k with
      | Some v => Done v
      | None => Beyond
      end
  | JRef a =>
      match objects σ !! a with
      | None => Raises
      | Some (JObj m) =>
          match m !! k with
          | Some v => Done v
          | None =>
              if decide (k ∈ Object_prototype) then Beyond else Done JUndefined
          end
      | Some (JArr len m) =>
          match own (JArr len m) k with
          | Some v => Done v
          | None => Beyond
          end
      end
  end.

(** [obj.hasOwnProperty(k) ? { value: obj[k], exists: true }
                           : { value: undefined, exists: false }].
    [hasOwnProperty] is looked up on [obj] like any member: an own property
    of that name shadows the inherited function, and no value of the model
    can be called.  A number or a boolean is boxed and owns nothing. *)
Definition own_property (σ : Store) (obj : jsval) (k : string)
  : Outcome IValueInfo :=
  match obj with
  | JUndefined | JNull => Raises
  | JBool _ | JNum _ => Done (slot_of None)
  | JStr s => Done (slot_of (string_own s k))
  | JRef a =>
      match objects σ !! a with
      | None => Raises
      | Some o =>
          if decide (is_Some (own o "hasOwnProperty")) then Raises
          else Done (slot_of (own o k))
      end
  end.

(** Assigning to [__proto__] where it is not an own property runs the
    setter inherited from [Object.prototype]: it changes the prototype when
    handed an object or [null] and does nothing otherwise. *)
Definition set_prototype (σ : Store) (v : jsval) : Outcome Store :=
  match v with
  | JRef _ | JNull => Beyond
  | _ => Done σ
  end.

(** The length of an array after an assignment to the key [k]. *)
Definition grow (len : N) (k : string) : N :=
  match index_of k with
  | Some n => N.max len (n + 1)
  | None => len
  end.

(** The properties of an array that survive [length = n]. *)
Definition survives (n : N) (k : string) : bool :=
  match index_of k with
  | Some i => bool_decide (i < n)%N
  | None => true
  end.

Definition truncate (n : N) (m : gmap string jsval) : gmap string jsval :=
  filter (λ kv, survives n kv.1) m.

(** [obj[k] = v] in strict code.  A primitive cannot take a property.  An
    array keeps its [length] above its indices, and an assignment to
    [length] drops the elements from there on; a [length] that is not a
    number is coerced by the engine. *)
Definition set_property (σ : Store) (obj : jsval) (k : string) (v : jsval)
  : Outcome Store :=
  match obj with
  | JUndefined | JNull => Raises
  | JBool _ | JNum _ | JStr _ =>
      if decide (k = "__proto__") then Done σ else Raises
  | JRef a =>
      match objects σ !! a with
      | None => Raises
      | Some (JObj m) =>
          if decide (k = "__proto__" ∧ m !! k = None) then set_prototype σ v
          else Done (store_object a (JObj (<[k := v]> m)) σ)
      | Some (JArr len m) =>
          if decide (k = "length") then
            match v with
            | JNum z =>
                if decide (0 ≤ z < 4294967296)%Z
                then Done (store_object a
                             (JArr (Z.to_N z) (truncate (Z.to_N z) m)) σ)
                else Raises
            | _ => Beyond
            end
          else if decide (k = "__proto__" ∧ m !! k = None)
          then set_prototype σ v
          else Done (store_object a (JArr (grow len k) (<[k := v]> m)) σ)
      end
  end.

(** [delete obj[k]] in strict code.  The [length] of an array and the own
    properties of a string cannot be deleted; deleting an element leaves a
    hole and the [length] as it is. *)
Definition delete_property (σ : Store) (obj : jsval) (k : string)
  : Outcome Store :=
  match obj with
  | JUndefined | JNull => Raises
  | JBool _ | JNum _ => Done σ
  | JStr s => if decide (is_Some (string_own s k)) then Raises else Done σ
  | JRef a =>
      match objects σ !! a with
      | None => Raises
      | Some (JObj m) => Done (store_object a (JObj (delete k m)) σ)
      | Some (JArr len m) =>
          if decide (k = "length") then Raises
          else Done (store_object a (JArr len (delete k m)) σ)
      end
  end.

(** ** ValuePath accessor *)

(** [s_GetValue] (history.ts 322-332).  An empty path is never of length 1:
    the function keeps descending through the property ["undefined"] until
    a [TypeError], or until the stack is used up. *)
Fixpoint s_GetValue (σ : Store) (obj : jsval) (path : list string)
  : Outcome IValueInfo :=
  match path with
  | [] => Raises
  | k :: rest =>
      match rest with
      | [] => own_property σ obj k
      | _ :: _ => child ← get_member σ obj k; s_GetValue σ child rest
      end
  end.

(** [s_SetValue] (history.ts 335-342).  The assignment happens in place in
    the object reached by the traversal. *)
Fixpoint s_SetValue (σ : Store) (obj : jsval) (path : list string)
    (v : IValueInfo) : Outcome Store :=
  match path with
  | [] => Raises
  | k :: rest =>
      match rest with
      | [] => set_property σ obj k (value v)
      | _ :: _ => child ← get_member σ obj k; s_SetValue σ child rest v
      end
  end.

(** [s_DeleteValue] (history.ts 345-351). *)
Fixpoint s_DeleteValue (σ : Store) (obj : jsval) (path : list string)
  : Outcome Store :=
  match path with
  | [] => Raises
  | k :: rest =>
      match rest with
      | [] => delete_property σ obj k
      | _ :: _ => child ← get_member σ obj k; s_DeleteValue σ child rest
      end
  end.

(** ** The two apply closures

    Body of the arrow function built in [updateValue] (history.ts 202-211),
    with its captured [target] and [path]. *)
Definition updateValue_apply (target : ref) (path : list string)
    (v : IValueInfo) (σ : Store) : Outcome Store :=
  if negb (exists_ v) then
    current ← s_GetValue σ (JRef target) path;
    if exists_ current then s_DeleteValue σ (JRef target) path else Done σ
  else s_SetValue σ (JRef target) path v.

(** Body of the arrow function built in [updateMap] (history.ts 236-244),
    with its captured [targetMap] and [key]. *)
Definition updateMap_apply (targetMap : ref) (key : mapkey)
    (v : IValueInfo) (σ : Store) : Outcome Store :=
  match maps σ !! targetMap with
  | None => Raises
  | Some m =>
      let m' :=
        if negb (exists_ v) then
          if bool_decide (is_Some (m !! key)) then delete key m else m
        else <[key := value v]> m in
      Done {| objects := objects σ; maps := <[targetMap := m']> (maps σ) |}
  end.

(** A closure is kept as its code pointer and captured variables. *)
Inductive ApplyFn :=
| ApplyValue (target : ref) (path : list string)
| ApplyMap (targetMap : ref) (key : mapkey).

Definition run_ApplyFn (f : ApplyFn) : IValueInfo → Store → Outcome Store :=
  match f with
  | ApplyValue target path => updateValue_apply target path
  | ApplyMap targetMap key => updateMap_apply targetMap key
  end.

(** The store a closure leaves when its call returns. *)
Definition call_ApplyFn (f : ApplyFn) (v : IValueInfo) (σ : Store)
  : option Store :=
  returned (run_ApplyFn f v σ).

(** ** Actions, entries and the world *)

(** An emit callback [() => void] is opaque to the module.  It is identified
    by a name; calling it is recorded together with the store it can see. *)
Abbreviation EmitFn := nat (only parsing).

(** [class HistoryAction<V>] *)
Record HistoryAction := {
  m_OldValue : IValueInfo;
  m_NewValue : IValueInfo;
  m_Data : option IHistoryData;
  m_Apply : ApplyFn;
  m_Emits : list nat
}.

(** [class HistoryEntry]; its actions are references to [HistoryAction]
    objects, which the handle returned to the caller shares. *)
Record HistoryEntry := {
  m_Text : option string;
  m_Actions : list nat
}.

Inductive LogKind := LogApply | LogUndo | LogRedo.

Inductive Event :=
| Emitted (f : EmitFn) (seen : Store)
| Logged (kind : LogKind) (entityNumbers : list Z) (text : string)
| Unfollowed.

Record World := {
  heap : Store;
  actions : list HistoryAction;
  s_HistoryIndex : nat;
  s_HistoryEntries : list HistoryEntry;
  s_Transaction : option HistoryEntry;
  trace : list Event
}.

(** The module right after it is loaded, with the caller's targets. *)
Definition initial (σ : Store) : World :=
  {| heap := σ; actions := []; s_HistoryIndex := 0; s_HistoryEntries := [];
     s_Transaction := None; trace := [] |}.

Definition set_heap (σ : Store) (w : World) : World :=
  {| heap := σ; actions := actions w; s_HistoryIndex := s_HistoryIndex w;
     s_HistoryEntries := s_HistoryEntries w; s_Transaction := s_Transaction w;
     trace := trace w |}.

Definition set_actions (acts : list HistoryAction) (w : World) : World :=
  {| heap := heap w; actions := acts; s_HistoryIndex := s_HistoryIndex w;
     s_HistoryEntries := s_HistoryEntries w; s_Transaction := s_Transaction w;
     trace := trace w |}.

Definition set_history (entries : list HistoryEntry) (index : nat)
    (w : World) : World :=
  {| heap := heap w; actions := actions w; s_HistoryIndex := index;
     s_HistoryEntries := entries; s_Transaction := s_Transaction w;
     trace := trace w |}.

Definition set_transaction (t : option HistoryEntry) (w : World) : World :=
  {| heap := heap w; actions := actions w; s_HistoryIndex := s_HistoryIndex w;
     s_HistoryEntries := s_HistoryEntries w; s_Transaction := t;
     trace := trace w |}.

Definition record_event (e : Event) (w : World) : World :=
  {| heap := heap w; actions := actions w; s_HistoryIndex := s_HistoryIndex w;
     s_HistoryEntries := s_HistoryEntries w; s_Transaction := s_Transaction w;
     trace := trace w ++ [e] |}.

(** ** Computations that may throw *)

Inductive Res (A : Type) :=
| Ok (a : A)
| Throw.
Global Arguments Ok {A} a.
Global Arguments Throw {A}.

Definition M (A : Type) : Type := World → Res A * World.

Definition ret {A} (a : A) : M A := λ w, (Ok a, w).

Definition throw {A} : M A := λ w, (Throw, w).

Definition bind {A B} (m : M A) (k : A → M B) : M B :=
  λ w, match m w with
       | (Ok a, w') => k a w'
       | (Throw, w') => (Throw, w')
       end.

Notation "'let*' x ':=' m 'in' k" := (bind m (λ x, k))
  (at level 10, x name, m at level 100, k at level 200).
Notation "m '>>' k" := (bind m (λ _, k))
  (at level 100, k at level 200, right associativity).

Definition modify (f : World → World) : M unit := λ w, (Ok tt, f w).

Fixpoint for_each {A} (f : A → M unit) (l : list A) : M unit :=
  match l with
  | [] => ret tt
  | x :: l' => f x >> for_each f l'
  end.

Fixpoint map_each {A B} (f : A → M B) (l : list A) : M (list B) :=
  match l with
  | [] => ret []
  | x :: l' => let* y := f x in let* ys := map_each f l' in ret (y :: ys)
  end.

(** ** HistoryAction *)

Definition deref (this : ref) : M HistoryAction :=
  λ w, match actions w !! this with
       | Some a => (Ok a, w)
       | None => (Throw, w)
       end.

(** [new HistoryAction(oldValue, newValue, data, apply)] *)
Definition new_HistoryAction (oldValue newValue : IValueInfo)
    (data : option IHistoryData) (apply : ApplyFn) : M ref :=
  λ w, (Ok (length (actions w)),
        set_actions (actions w ++
          [{| m_OldValue := oldValue; m_NewValue := newValue; m_Data := data;
              m_Apply := apply; m_Emits := [] |}]) w).

(** The world in which a run stops when an accessor call did not return. *)
Definition stop {A} (o : Outcome A) (w : World) : World :=
  match o with
  | Beyond => record_event Unfollowed w
  | _ => w
  end.

(** An accessor call inside a run: a raise is thrown; where the accessor
    goes on inside the engine the run stops and the trace says so. *)
Definition lift {A} (o : Store → Outcome A) : M A :=
  λ w, match o (heap w) with
       | Done a => (Ok a, w)
       | Raises => (Throw, w)
       | Beyond => (Throw, record_event Unfollowed w)
       end.

(** [this.m_Apply(v)] *)
Definition call_m_Apply (f : ApplyFn) (v : IValueInfo) : M unit :=
  λ w, match run_ApplyFn f v (heap w) with
       | Done σ => (Ok tt, set_heap σ w)
       | Raises => (Throw, w)
       | Beyond => (Throw, record_event Unfollowed w)
       end.
(** [f()] for an emit callback *)
Definition call_emit (f : EmitFn) : M unit :=
  λ w, (Ok tt, record_event (Emitted f (heap w)) w).

(** [value === HistoryValue.New ? this.m_NewValue : this.m_OldValue] *)
Definition select_value (dir : HistoryValue) (a : HistoryAction) : IValueInfo :=
  match dir with
  | New => m_NewValue a
  | Old => m_OldValue a
  end.

(** [HistoryAction.apply] (history.ts 102-110).  [m_Data] is [None] when
    the caller left the optional [data] argument out; reading
    [entity_number] from it throws. *)
Definition HistoryAction_apply (this : ref) (dir : HistoryValue) : M Z :=
  let* a := deref this in
  call_m_Apply (m_Apply a) (select_value dir a) >>
  for_each call_emit (m_Emits a) >>
  match m_Data a with
  | Some d => ret (entity_number d)
  | None => throw
  end.

(** [HistoryAction.data] *)
Definition HistoryAction_data (this : ref) : M (option IHistoryData) :=
  let* a := deref this in ret (m_Data a).

(** [HistoryAction.emit] (history.ts 118-121) *)
Definition HistoryAction_emit (this : ref) (f : EmitFn) : M ref :=
  let* a := deref this in
  modify (λ w, set_actions
    (<[this := {| m_OldValue := m_OldValue a; m_NewValue := m_NewValue a;
                  m_Data := m_Data a; m_Apply := m_Apply a;
                  m_Emits := m_Emits a ++ [f] |}]> (actions w)) w) >>
  ret this.

(** ** HistoryEntry *)

Definition new_HistoryEntry (text : option string) : HistoryEntry :=
  {| m_Text := text; m_Actions := [] |}.

(** [HistoryEntry.push] (history.ts 175-177) *)
Definition HistoryEntry_push (this : HistoryEntry) (action : ref)
  : HistoryEntry :=
  {| m_Text := m_Text this; m_Actions := m_Actions this ++ [action] |}.

(** The loop shared by [apply], [undo] and [redo]:
    [for (const action of this.m_Actions) entityNumbers.push(action.apply(value))] *)
Definition apply_actions (dir : HistoryValue) (acts : list ref) : M (list Z) :=
  map_each (λ action, HistoryAction_apply action dir) acts.

Definition console_log (kind : LogKind) (this : HistoryEntry)
    (entityNumbers : list Z) : M unit :=
  match m_Text this with
  | Some text => modify (record_event (Logged kind entityNumbers text))
  | None => ret tt
  end.

(** [HistoryEntry.apply] (history.ts 142-148) *)
Definition HistoryEntry_apply (this : HistoryEntry) (dir : HistoryValue)
  : M unit :=
  let* entityNumbers := apply_actions dir (m_Actions this) in
  console_log LogApply this entityNumbers.

(** [HistoryEntry.undo] (history.ts 151-157) *)
Definition HistoryEntry_undo (this : HistoryEntry) : M unit :=
  let* entityNumbers := apply_actions Old (m_Actions this) in
  console_log LogUndo this entityNumbers.

(** [HistoryEntry.redo] (history.ts 160-166) *)
Definition HistoryEntry_redo (this : HistoryEntry) : M unit :=
  let* entityNumbers := apply_actions New (m_Actions this) in
  console_log LogRedo this entityNumbers.

(** [a.data.entity_number] *)
Definition read_entity_number (action : ref) : M Z :=
  let* data := HistoryAction_data action in
  match data with
  | Some d => ret (entity_number d)
  | None => throw
  end.

(** [HistoryEntry.log] (history.ts 169-172) *)
Definition HistoryEntry_log (this : HistoryEntry) : M unit :=
  let* entityNumbers := map_each read_entity_number (m_Actions this) in
  console_log LogApply this entityNumbers.

(** [HistoryEntry.data] (history.ts 180-182) *)
Definition HistoryEntry_data (this : HistoryEntry)
  : M (option IHistoryData) :=
  match last (m_Actions this) with
  | Some action => HistoryAction_data action
  | None => ret None
  end.

(** ** The history store *)

(** [while (s_HistoryEntries.length > s_HistoryIndex) s_HistoryEntries.pop()].
    Every turn removes one entry, so [length entries] turns are enough
    ([pop_stale_exit] below). *)
Fixpoint pop_stale (turns : nat) (entries : list HistoryEntry) (index : nat)
  : list HistoryEntry :=
  match turns with
  | 0 => entries
  | S turns' =>
      if decide (index < length entries)
      then pop_stale turns' (removelast entries) index
      else entries
  end.

(** [s_CommitTransaction] (history.ts 354-358) *)
Definition s_CommitTransaction (transaction : HistoryEntry) : M unit :=
  modify (λ w,
    let entries :=
      pop_stale (length (s_HistoryEntries w)) (s_HistoryEntries w)
        (s_HistoryIndex w) in
    set_history (entries ++ [transaction]) (S (s_HistoryIndex w)) w).

(** [canUndo] (history.ts 260-262) *)
Definition canUndo (w : World) : bool := bool_decide (0 < s_HistoryIndex w).

(** [canRedo] (history.ts 277-279) *)
Definition canRedo (w : World) : bool :=
  bool_decide (s_HistoryIndex w < length (s_HistoryEntries w)).

(** [s_HistoryEntries[i]]: [undefined] out of range, and using it throws. *)
Definition entry_at (i : option nat) : M HistoryEntry :=
  λ w, match i ≫= (λ n, s_HistoryEntries w !! n) with
       | Some e => (Ok e, w)
       | None => (Throw, w)
       end.

(** [s_HistoryIndex - 1], which is [-1] (no index of the array) at 0. *)
Definition index_before (w : World) : option nat :=
  match s_HistoryIndex w with
  | 0 => None
  | S i => Some i
  end.

(** [getUndoPreview] (history.ts 265-267) *)
Definition getUndoPreview : M (option IHistoryData) :=
  λ w, (let* e := entry_at (index_before w) in HistoryEntry_data e) w.

(** [undo] (history.ts 270-274) *)
Definition undo : M unit :=
  λ w, (let* historyEntry := entry_at (index_before w) in
        HistoryEntry_undo historyEntry >>
        modify (λ w', set_history (s_HistoryEntries w')
                        (s_HistoryIndex w' - 1) w')) w.

(** [getRedoPreview] (history.ts 282-284) *)
Definition getRedoPreview : M (option IHistoryData) :=
  λ w, (let* e := entry_at (Some (s_HistoryIndex w)) in
        HistoryEntry_data e) w.

(** [redo] (history.ts 287-291) *)
Definition redo : M unit :=
  λ w, (let* historyEntry := entry_at (Some (s_HistoryIndex w)) in
        HistoryEntry_redo historyEntry >>
        modify (λ w', set_history (s_HistoryEntries w')
                        (S (s_HistoryIndex w')) w')) w.

(** ** Transactions *)

(** [startTransaction] (history.ts 298-305) *)
Definition startTransaction (text : option string) : M bool :=
  λ w, match s_Transaction w with
       | Some _ => (Ok false, w)
       | None => (Ok true, set_transaction (Some (new_HistoryEntry text)) w)
       end.

(** [commitTransaction] (history.ts 311-319) *)
Definition commitTransaction : M unit :=
  λ w, match s_Transaction w with
       | None => (Ok tt, w)
       | Some t =>
           (HistoryEntry_log t >>
            s_CommitTransaction t >>
            modify (set_transaction None)) w
       end.

(** ** Mutation entry points *)

(** The part that [updateValue] (history.ts 200-223) and [updateMap]
    (history.ts 234-256) have in common once [oldValue] and [newValue] are
    known.  With a transaction open the action is pushed onto the shared
    open entry and applied alone; otherwise a one-action entry is applied
    and committed. *)
Definition route_action (oldValue newValue : IValueInfo)
    (text : option string) (data : option IHistoryData) (apply : ApplyFn)
  : M ref :=
  λ w,
    (let* historyAction := new_HistoryAction oldValue newValue data apply in
     match s_Transaction w with
     | None =>
         let transaction :=
           HistoryEntry_push (new_HistoryEntry text) historyAction in
         HistoryEntry_apply transaction New >>
         s_CommitTransaction transaction >>
         ret historyAction
     | Some t =>
         modify (set_transaction (Some (HistoryEntry_push t historyAction))) >>
         HistoryAction_apply historyAction New >>
         ret historyAction
     end) w.

(** [s_GetValue<V>(target, path)] on a target of the store *)
Definition read_path (target : ref) (path : list string) : M IValueInfo :=
  lift (λ σ, s_GetValue σ (JRef target) path).
(** [targetMap.has(key) ? { value: targetMap.get(key), exists: true }
                        : { value: undefined, exists: false }] *)
Definition read_key (targetMap : ref) (key : mapkey) : M IValueInfo :=
  λ w, match maps (heap w) !! targetMap with
       | Some m =>
           (Ok (match m !! key with
                | Some v => {| value := v; exists_ := true |}
                | None => {| value := JUndefined; exists_ := false |}
                end), w)
       | None => (Throw, w)
       end.

(** [updateValue] (history.ts 195-224) *)
Definition updateValue (target : ref) (path : list string) (v : jsval)
    (text : option string) (data : option IHistoryData) (remove : bool)
  : M ref :=
  let* oldValue := read_path target path in
  let newValue := {| value := v; exists_ := if remove then false else true |} in
  route_action oldValue newValue text data (ApplyValue target path).

(** [updateMap] (history.ts 227-257) *)
Definition updateMap (targetMap : ref) (key : mapkey) (v : jsval)
    (text : option string) (data : option IHistoryData) (remove : bool)
  : M ref :=
  let* oldValue := read_key targetMap key in
  let newValue := {| value := v; exists_ := if remove then false else true |} in
  route_action oldValue newValue text data (ApplyMap targetMap key).

(* ================================================================== *)
(** * Callers, runs and the notions of the statements *)

(** ** Calls as a caller issues them *)

(** A mutation call with its arguments. *)
Inductive Call :=
| UpdateValue (target : ref) (path : list string) (v : jsval)
    (text : option string) (data : option IHistoryData) (remove : bool)
| UpdateMap (targetMap : ref) (key : mapkey) (v : jsval)
    (text : option string) (data : option IHistoryData) (remove : bool).

Definition call (c : Call) : M ref :=
  match c with
  | UpdateValue target path v text data remove =>
      updateValue target path v text data remove
  | UpdateMap targetMap key v text data remove =>
      updateMap targetMap key v text data remove
  end.

(** The closure, the new slot, the description and the metadata that a call
    hands to [new HistoryAction] and [new HistoryEntry]. *)
Definition closure_of (c : Call) : ApplyFn :=
  match c with
  | UpdateValue target path _ _ _ _ => ApplyValue target path
  | UpdateMap targetMap key _ _ _ _ => ApplyMap targetMap key
  end.

Definition newValue_of (c : Call) : IValueInfo :=
  match c with
  | UpdateValue _ _ v _ _ remove | UpdateMap _ _ v _ _ remove =>
      {| value := v; exists_ := if remove then false else true |}
  end.

Definition text_of (c : Call) : option string :=
  match c with
  | UpdateValue _ _ _ text _ _ | UpdateMap _ _ _ text _ _ => text
  end.

Definition data_of (c : Call) : option IHistoryData :=
  match c with
  | UpdateValue _ _ _ _ data _ | UpdateMap _ _ _ _ data _ => data
  end.

(** Builder style registration [handle.emit(f1).emit(f2)...]. *)
Fixpoint chain_emits (handle : ref) (fs : list EmitFn) : M ref :=
  match fs with
  | [] => ret handle
  | f :: fs' => let* handle' := HistoryAction_emit handle f in
                chain_emits handle' fs'
  end.

(** A mutation call followed by the callbacks chained onto its handle:
    [updateValue(...).emit(f1).emit(f2)]. *)
Definition perform (step : Call * list nat) : M unit :=
  let* handle := call step.1 in
  chain_emits handle step.2 >> ret tt.

(** [n] calls of [undo()] in a row. *)
Fixpoint undo_times (n : nat) : M unit :=
  match n with
  | 0 => ret tt
  | S n' => undo >> undo_times n'
  end.

(** [startTransaction(text)], the calls of [steps], [commitTransaction()]. *)
Definition transaction (text : option string) (steps : list (Call * list nat))
  : M unit :=
  startTransaction text >> for_each perform steps >> commitTransaction.

(** The operations the module exports, as a caller can issue them. *)
Inductive Op :=
| OpCall (c : Call) (fs : list nat)
| OpEmit (handle : ref) (f : nat)
| OpUndo
| OpRedo
| OpUndoPreview
| OpRedoPreview
| OpStartTransaction (text : option string)
| OpCommitTransaction.

Definition run_op (o : Op) : M unit :=
  match o with
  | OpCall c fs => perform (c, fs)
  | OpEmit handle f => HistoryAction_emit handle f >> ret tt
  | OpUndo => undo
  | OpRedo => redo
  | OpUndoPreview => getUndoPreview >> ret tt
  | OpRedoPreview => getRedoPreview >> ret tt
  | OpStartTransaction text => startTransaction text >> ret tt
  | OpCommitTransaction => commitTransaction
  end.

(** ** What a run does to the store and to the history *)

(** What a mutation call reads as [oldValue] for the location of a
    closure. *)
Definition read_slot (f : ApplyFn) (σ : Store) : Outcome IValueInfo :=
  match f with
  | ApplyValue target path => s_GetValue σ (JRef target) path
  | ApplyMap targetMap key =>
      match maps σ !! targetMap with
      | Some m => Done (slot_of (m !! key))
      | None => Raises
      end
  end.

Definition read_old (f : ApplyFn) (σ : Store) : option IValueInfo :=
  returned (read_slot f σ).
(** What applying the actions [acts] one after the other, first pushed
    first, does to the store. *)
Fixpoint replay (dir : HistoryValue) (acts : list HistoryAction) (σ : Store)
  : option Store :=
  match acts with
  | [] => Some σ
  | a :: acts' =>
      σ' ← call_ApplyFn (m_Apply a) (select_value dir a) σ;
      replay dir acts' σ'
  end.

(** [acts] are the actions a run of mutation calls created from the store
    [σ] on: each holds as old value what was read when it was created, and
    its new value was applied right then. *)
Fixpoint recorded (acts : list HistoryAction) (σ σn : Store) : Prop :=
  match acts with
  | [] => σn = σ
  | a :: acts' =>
      read_old (m_Apply a) σ = Some (m_OldValue a) ∧
      ∃ σ1, call_ApplyFn (m_Apply a) (m_NewValue a) σ = Some σ1 ∧
            recorded acts' σ1 σn
  end.

(** The world once the callbacks [fs] have run, first to last. *)
Definition emit_all (fs : list EmitFn) (w : World) : World :=
  foldl (λ w' f, record_event (Emitted f (heap w')) w') w fs.

(** The references [refs] name the actions [acts] in the world. *)
Definition resolve (w : World) (refs : list nat) (acts : list HistoryAction)
  : Prop :=
  Forall2 (λ r a, actions w !! r = Some a) refs acts.

(** Two worlds that differ at most in store and trace. *)
Definition same_history (w w' : World) : Prop :=
  actions w' = actions w ∧
  s_HistoryIndex w' = s_HistoryIndex w ∧
  s_HistoryEntries w' = s_HistoryEntries w ∧
  s_Transaction w' = s_Transaction w.

(** [w2] is [w] again as far as the store, the cursor and the entries below
    the cursor go; actions may have been allocated in between. *)
Definition rewound (w w2 : World) : Prop :=
  heap w2 = heap w ∧
  s_HistoryIndex w2 = s_HistoryIndex w ∧
  take (s_HistoryIndex w) (s_HistoryEntries w2) =
    take (s_HistoryIndex w) (s_HistoryEntries w) ∧
  actions w `prefix_of` actions w2 ∧
  s_Transaction w2 = s_Transaction w.

(** The invariant of the history store: the cursor never passes the end of
    the entries ([cursor_in_range_invariant] below). *)
Definition cursor_in_range (w : World) : Prop :=
  s_HistoryIndex w ≤ length (s_HistoryEntries w).

(** ** Slots of the store

    What a closure writes is one slot: a property of an object or array of
    the store, or a key of a [Map]. *)
Inductive Slot :=
| SObj (a : ref) (k : string)
| SKey (targetMap : ref) (key : mapkey).

Global Instance Slot_eq_dec : EqDecision Slot.
Proof. solve_decision. Defined.

(** The own properties of an object or array other than [length], changed
    by [g]. *)
Definition alter_fields (g : gmap string jsval → gmap string jsval)
    (o : object) : object :=
  match o with
  | JObj m => JObj (g m)
  | JArr len m => JArr len (g m)
  end.

(** What a slot holds. *)
Definition peek (s : Slot) (σ : Store) : option jsval :=
  match s with
  | SObj a k => objects σ !! a ≫= (λ o, own o k)
  | SKey targetMap key => maps σ !! targetMap ≫= (λ m, m !! key)
  end.

(** The store with [x] in the slot [s]: a value, or nothing. *)
Definition assign (s : Slot) (x : option jsval) (σ : Store) : Store :=
  match s with
  | SObj a k =>
      {| objects := alter (alter_fields (partial_alter (λ _, x) k)) a
                      (objects σ);
         maps := maps σ |}
  | SKey targetMap key =>
      {| objects := objects σ;
         maps := alter (partial_alter (λ _, x) key) targetMap (maps σ) |}
  end.

(** The holder of the slot has a property [hasOwnProperty] of its own, so
    the accessor cannot ask it what it owns. *)
Definition shadowed (s : Slot) (σ : Store) : bool :=
  match s with
  | SObj a _ => bool_decide (is_Some (peek (SObj a "hasOwnProperty") σ))
  | SKey _ _ => false
  end.

(** What a history slot asks a closure to put into its slot of the
    store. *)
Definition content (v : IValueInfo) : option jsval :=
  if exists_ v then Some (value v) else None.

(** The descent of the accessor along the keys [ks]: [obj[k1][k2]...]. *)
Fixpoint walk (σ : Store) (obj : jsval) (ks : list string) : Outcome jsval :=
  match ks with
  | [] => Done obj
  | k :: rest => child ← get_member σ obj k; walk σ child rest
  end.

(** The slots that the descent reads. *)
Fixpoint walk_slots (σ : Store) (obj : jsval) (ks : list string)
  : list Slot :=
  match ks with
  | [] => []
  | k :: rest =>
      match obj with
      | JRef a => [SObj a k]
      | _ => []
      end ++
      match get_member σ obj k with
      | Done child => walk_slots σ child rest
      | _ => []
      end
  end.

(** Keys at which an assignment or a removal changes that one property
    and nothing else: not [hasOwnProperty], which the accessor calls on the
    object, not [__proto__], which is a setter, and on an array neither
    [length] nor an index from [length] on. *)
Definition plain_key (o : object) (k : string) : bool :=
  bool_decide (k ∉ ["hasOwnProperty"; "__proto__"]) &&
  match o with
  | JObj _ => true
  | JArr len _ =>
      bool_decide (k ≠ "length") &&
      match index_of k with
      | Some n => bool_decide (n < len)%N
      | None => true
      end
  end.

(** The slot that a closure writes in the store [σ]: its path leads,
    through own properties, to an object or array of the store and ends in
    a plain key; or its [Map] is in the store. *)
Definition site (σ : Store) (f : ApplyFn) : option Slot :=
  match f with
  | ApplyValue target path =>
      match last path, walk σ (JRef target) (removelast path) with
      | Some k, Done (JRef a) =>
          o ← objects σ !! a;
          if plain_key o k then Some (SObj a k) else None
      | _, _ => None
      end
  | ApplyMap targetMap key =>
      _ ← maps σ !! targetMap; Some (SKey targetMap key)
  end.

(** The slots a closure reads on the way to its slot. *)
Definition passes (σ : Store) (f : ApplyFn) : list Slot :=
  match f with
  | ApplyValue target path => walk_slots σ (JRef target) (removelast path)
  | ApplyMap _ _ => []
  end.

(** A closure is well placed in [σ] when it has a slot there and does not
    pass through that slot on its way: writing the slot does not redirect
    the path. *)
Definition placed (f : ApplyFn) (σ : Store) : Prop :=
  ∃ s, site σ f = Some s ∧ s ∉ passes σ f.

Global Instance placed_dec f σ : Decision (placed f σ).
Proof.
  unfold placed. destruct (site σ f) as [s|].
  - destruct (decide (s ∉ passes σ f)) as [H|H].
    + left. by exists s.
    + right. by intros (s' & [= <-] & ?).
  - right. by intros (? & [=] & _).
Defined.

(** The closures [fs] are settled in [σ] when each has a slot there and
    none passes through the slot of any of them: whatever they write, in
    whatever order, their paths keep leading where they lead in [σ]. *)
Definition settled (fs : list ApplyFn) (σ : Store) : Prop :=
  Forall (λ f, ∃ s, site σ f = Some s ∧ Forall (λ g, s ∉ passes σ g) fs) fs.

(** The closures [fs] lead in [τ] where they lead in [σ]. *)
Definition steady (fs : list ApplyFn) (σ τ : Store) : Prop :=
  Forall (λ f, site τ f = site σ f ∧ passes τ f = passes σ f) fs.

(** The store after the assignments [l], first to last. *)
Definition put_all (l : list (Slot * option jsval)) (σ : Store) : Store :=
  foldl (λ τ p, assign p.1 p.2 τ) σ l.

(** The assignments that the actions [acts], applied in the direction
    [dir], make to their slots of [σ]. *)
Definition writes (σ : Store) (dir : HistoryValue)
    (acts : list HistoryAction) : list (Slot * option jsval) :=
  omap (λ a, s ← site σ (m_Apply a);
             Some (s, content (select_value dir a))) acts.

(** Each of the actions [acts], applied with its new value one after the
    other from [σ] on, is well placed in the store it finds. *)
Fixpoint placed_along (acts : list HistoryAction) (σ : Store) : Prop :=
  match acts with
  | [] => True
  | a :: acts' =>
      placed (m_Apply a) σ ∧
      match call_ApplyFn (m_Apply a) (m_NewValue a) σ with
      | Some σ1 => placed_along acts' σ1
      | None => True
      end
  end.

(** Every call of a run made with no transaction open is well placed in
    the store it finds. *)
Fixpoint well_placed (steps : list (Call * list nat)) (w : World) : Prop :=
  match steps with
  | [] => True
  | step :: rest =>
      placed (closure_of step.1) (heap w) ∧
      well_placed rest (perform step w).2
  end.

Global Instance well_placed_dec steps w : Decision (well_placed steps w).
Proof. revert w. induction steps; intros w; simpl; apply _. Defined.

Global Instance settled_dec fs σ : Decision (settled fs σ).
Proof.
  unfold settled. apply Forall_dec. intros f.
  destruct (site σ f) as [s|].
  - destruct (decide (Forall (λ g, s ∉ passes σ g) fs)) as [H|H].
    + left. by exists s.
    + right. by intros (s' & [= <-] & ?).
  - right. by intros (? & [=] & _).
Defined.

(** The closures [fs] are apart in [σ] when they are settled there and
    no two of them write the same slot. *)
Definition apart (fs : list ApplyFn) (σ : Store) : Prop :=
  settled fs σ ∧ NoDup (omap (site σ) fs).

Global Instance apart_dec fs σ : Decision (apart fs σ).
Proof. unfold apart. apply _. Defined.


(** ** Concrete stores, calls and worlds for the examples *)

(** The target [{name: 'A'}] of the rename example, as object 0. *)
Definition rename_store : Store :=
  {| objects := {[ 0 := JObj {[ "name" := JStr "A" ]} ]}; maps := ∅ |}.

(** The object [{a: 0}] as object 0. *)
Definition counter_store : Store :=
  {| objects := {[ 0 := JObj {[ "a" := JNum 0 ]} ]}; maps := ∅ |}.

(** The [Map] [{1: 'x'}] as map 3. *)
Definition labels_store : Store :=
  {| objects := ∅; maps := {[ 3 := {[ KNum 1 := JStr "x" ]} ]} |}.

Definition rename_data : IHistoryData :=
  {| type := upd; entity_number := 1; other_entity := None |}.

(** [updateValue(o, ['name'], 'B', 'rename', data)] *)
Definition rename_call : Call :=
  UpdateValue 0 ["name"] (JStr "B") (Some "rename") (Some rename_data) false.

(** The world after the rename, and after undoing it. *)
Definition renamed : World := (call rename_call (initial rename_store)).2.

Definition rename_undone : World := (undo renamed).2.

Definition rename_action : HistoryAction :=
  {| m_OldValue := {| value := JStr "A"; exists_ := true |};
     m_NewValue := {| value := JStr "B"; exists_ := true |};
     m_Data := Some rename_data;
     m_Apply := ApplyValue 0 ["name"];
     m_Emits := [] |}.

(** The world after the same call made without metadata. *)
Definition renamed_without_data : World :=
  (updateValue 0 ["name"] (JStr "B") (Some "rename") None false
     (initial rename_store)).2.

(** A transaction opened on [{a: 0}], and the world after it wrote 1 and
    then 2 to [a] and was committed. *)
Definition batch_open : World :=
  (startTransaction (Some "batch") (initial counter_store)).2.

Definition batch_committed : World :=
  ((updateValue 0 ["a"] (JNum 1) None (Some rename_data) false >>
    updateValue 0 ["a"] (JNum 2) None (Some rename_data) false >>
    commitTransaction) batch_open).2.

(** The committed entry of the batch, built push by push, and the world
    after its [undo] method ran. *)
Definition batch_entry : HistoryEntry :=
  HistoryEntry_push (HistoryEntry_push (new_HistoryEntry (Some "batch")) 0) 1.

Definition batch_unapplied : World :=
  (HistoryEntry_undo batch_entry batch_committed).2.

(** [updateValue(o, ['a'], 1); updateValue(o, ['b'], 2).emit(f9)] on
    object 0, with metadata. *)
Definition batch_steps : list (Call * list nat) :=
  [(UpdateValue 0 ["a"] (JNum 1) None (Some rename_data) false, []);
   (UpdateValue 0 ["b"] (JNum 2) None (Some rename_data) false, [9])].

(** A store with a nested object, an array and a [Map]: object 0 is
    [{a: o1, b: undefined}], object 1 is [{x: 1}], array 2 is [[10, 20]]
    and map 3 is [{1: 'x'}]. *)
Definition mixed_store : Store :=
  {| objects := {[ 0 := JObj {[ "a" := JRef 1; "b" := JUndefined ]};
                   1 := JObj {[ "x" := JNum 1 ]};
                   2 := JArr 2 {[ "0" := JNum 10; "1" := JNum 20 ]} ]};
     maps := {[ 3 := {[ KNum 1 := JStr "x" ]} ]} |}.

(** Five calls on it: a write below [a], a write to an element of the
    array, the removal of a key of the [Map], a write that stores the
    array under [c], and a write to an element of the array through
    [c]. *)
Definition mixed_steps : list (Call * list nat) :=
  [(UpdateValue 0 ["a"; "x"] (JNum 5) (Some "set x") (Some rename_data) false,
    [5]);
   (UpdateValue 2 ["1"] (JNum 21) None (Some rename_data) false, []);
   (UpdateMap 3 (KNum 1) JUndefined (Some "clear") (Some rename_data) true,
    []);
   (UpdateValue 0 ["c"] (JRef 2) (Some "link") (Some rename_data) false, [6]);
   (UpdateValue 0 ["c"; "0"] (JNum 11) None (Some rename_data) false, [])].

(** The first three of them, which write to three slots that none of
    their paths passes through, made in one transaction; the entry that the
    transaction committed. *)
Definition mixed_committed : World :=
  (transaction (Some "three") (take 3 mixed_steps) (initial mixed_store)).2.

Definition mixed_entry : HistoryEntry :=
  {| m_Text := Some "three"; m_Actions := [0; 1; 2] |}.

Definition mixed_new : World :=
  (HistoryEntry_apply mixed_entry New mixed_committed).2.

Definition mixed_new_old : World :=
  (HistoryEntry_apply mixed_entry Old mixed_new).2.

Definition mixed_new_old_new : World :=
  (HistoryEntry_apply mixed_entry New mixed_new_old).2.

(** The array [[1, 2]] as object 0, and [updateValue(arr, ['2'], 3,
    'append', data)], which appends to it. *)
Definition list_store : Store :=
  {| objects := {[ 0 := JArr 2 {[ "0" := JNum 1; "1" := JNum 2 ]} ]};
     maps := ∅ |}.

Definition append_call : Call :=
  UpdateValue 0 ["2"] (JNum 3) (Some "append") (Some rename_data) false.

(** The target [{c: {x: 1}}] as object 0 with its inner object as object
    1, and the object [{x: 9}] that the caller built as object 2.  The
    transaction [updateValue(o, ['c', 'x'], 2); updateValue(o, ['c'], n)]
    with [n] that object, and the entry it committed. *)
Definition shared_store : Store :=
  {| objects := {[ 0 := JObj {[ "c" := JRef 1 ]};
                   1 := JObj {[ "x" := JNum 1 ]};
                   2 := JObj {[ "x" := JNum 9 ]} ]};
     maps := ∅ |}.

Definition shared_steps : list (Call * list nat) :=
  [(UpdateValue 0 ["c"; "x"] (JNum 2) None (Some rename_data) false, []);
   (UpdateValue 0 ["c"] (JRef 2) None (Some rename_data) false, [])].

Definition shared_committed : World :=
  (transaction (Some "swap") shared_steps (initial shared_store)).2.

Definition shared_entry : HistoryEntry :=
  {| m_Text := Some "swap"; m_Actions := [0; 1] |}.

Definition shared_new : World :=
  (HistoryEntry_apply shared_entry New shared_committed).2.

Definition shared_new_old : World :=
  (HistoryEntry_apply shared_entry Old shared_new).2.

Definition shared_new_old_new : World :=
  (HistoryEntry_apply shared_entry New shared_new_old).2.

(** ** Longer runs *)

(** [n] calls of [redo()] in a row. *)
Fixpoint redo_times (n : nat) : M unit :=
  match n with
  | 0 => ret tt
  | S n' => redo >> redo_times n'
  end.

(** One edit of a session: a mutation call with the callbacks chained onto
    it, or a whole transaction. *)
Inductive Edit :=
| EditCall (step : Call * list nat)
| EditTransaction (text : option string) (steps : list (Call * list nat)).

Definition run_edit (e : Edit) : M unit :=
  match e with
  | EditCall step => perform step
  | EditTransaction text steps => transaction text steps
  end.

(** An edit fits the store it finds: a single call is well placed, the
    closures of a transaction are apart. *)
Definition edit_placed (e : Edit) (σ : Store) : Prop :=
  match e with
  | EditCall step => placed (closure_of step.1) σ
  | EditTransaction _ steps => apart (map (λ step, closure_of step.1) steps) σ
  end.

Global Instance edit_placed_dec e σ : Decision (edit_placed e σ).
Proof. destruct e; simpl; apply _. Defined.

(** Every edit of a session fits the store it finds. *)
Fixpoint well_edited (edits : list Edit) (w : World) : Prop :=
  match edits with
  | [] => True
  | e :: rest => edit_placed e (heap w) ∧ well_edited rest (run_edit e w).2
  end.

Global Instance well_edited_dec edits w : Decision (well_edited edits w).
Proof. revert w. induction edits; intros w; simpl; apply _. Defined.

(** A session on the store with the nested object, the array and the
    [Map]: a call, a transaction of two calls, and a removal. *)
Definition mixed_session : list Edit :=
  [EditCall (UpdateValue 0 ["a"; "x"] (JNum 5) None (Some rename_data) false,
             [4]);
   EditTransaction (Some "batch")
     [(UpdateValue 2 ["1"] (JNum 21) None (Some rename_data) false, []);
      (UpdateMap 3 (KNum 1) JUndefined None (Some rename_data) true, [9])];
   EditCall (UpdateValue 0 ["b"] JUndefined None (Some rename_data) true, [])].

(** The object [{a: 0}] as object 0 and an empty object that the caller
    built as object 1; the transaction that stores the empty object under
    [c] and then writes [x] below [c]. *)
Definition nest_store : Store :=
  {| objects := {[ 0 := JObj {[ "a" := JNum 0 ]}; 1 := JObj ∅ ]};
     maps := ∅ |}.

Definition nest_steps : list (Call * list nat) :=
  [(UpdateValue 0 ["c"] (JRef 1) None (Some rename_data) false, []);
   (UpdateValue 0 ["c"; "x"] (JNum 1) None (Some rename_data) false, [])].

Definition nested_committed : World :=
  (transaction (Some "nest") nest_steps (initial nest_store)).2.

(** The line that an entry method prints for a one-action entry made by
    the call [c]: [[n]: text], and nothing when the call gave no
    description. *)
Definition log_line (kind : LogKind) (c : Call) : list Event :=
  match text_of c, data_of c with
  | Some text, Some d => [Logged kind [entity_number d] text]
  | _, _ => []
  end.

(** The callback events of a loop over the actions [acts]: every action is
    applied and its callbacks run, seeing the store that this action left,
    before the next action is applied. *)
Fixpoint emitted_along (dir : HistoryValue) (acts : list HistoryAction)
    (σ : Store) : list Event :=
  match acts with
  | [] => []
  | a :: acts' =>
      match call_ApplyFn (m_Apply a) (select_value dir a) σ with
      | Some σ' =>
          map (λ f, Emitted f σ') (m_Emits a) ++ emitted_along dir acts' σ'
      | None => []
      end
  end.

(** The line that an entry method prints, if the entry has a description. *)
Definition printed (kind : LogKind) (e : HistoryEntry) (ns : list Z)
  : list Event :=
  match m_Text e with
  | Some text => [Logged kind ns text]
  | None => []
  end.

(** The action named by [r] was created without metadata. *)
Definition lacks_metadata (w : World) (r : ref) : Prop :=
  ∃ a, actions w !! r = Some a ∧ m_Data a = None.

(** A transaction is open and holds an action without metadata. *)
Definition stuck (w : World) : Prop :=
  ∃ t, s_Transaction w = Some t ∧ Exists (lacks_metadata w) (m_Actions t).

(** A nested target [{a: {x: 1}, b: undefined}] as object 0, its inner
    object as object 1. *)
Definition nested_store : Store :=
  {| objects := {[ 0 := JObj {[ "a" := JRef 1; "b" := JUndefined ]};
                   1 := JObj {[ "x" := JNum 1 ]} ]};
     maps := ∅ |}.

(** A decidable condition at a concrete input, settled by evaluation. *)
Ltac by_evaluation :=
  match goal with
  | |- ?P => apply (bool_decide_unpack P); vm_compute; exact I
  end.

(* ================================================================== *)
(** * The history store: commit, undo and redo guards *)

Section history_store.
Implicit Types (w : World) (entries : list HistoryEntry) (index : nat).

Lemma pop_stale_take turns entries index :
  length entries ≤ index + turns →
  pop_stale turns entries index = take index entries.
Proof.
  revert entries. induction turns as [|turns IH]; intros entries Hlen; simpl.
  - rewrite take_ge; [done | lia].
  - destruct (decide (index < length entries)) as [Hlt|Hge].
    + rewrite IH.
      * rewrite removelast_firstn_len, take_take. f_equal. lia.
      * rewrite removelast_firstn_len, length_take. lia.
    + rewrite take_ge; [done | lia].
Qed.

(** The loop of [s_CommitTransaction] leaves through its condition: after
    [length entries] turns nothing is left at or above the cursor. *)
Lemma pop_stale_exit entries index :
  ¬ index < length (pop_stale (length entries) entries index).
Proof. rewrite pop_stale_take, length_take; lia. Qed.

Lemma s_CommitTransaction_eq transaction w :
  s_CommitTransaction transaction w =
    (Ok tt, set_history
              (take (s_HistoryIndex w) (s_HistoryEntries w) ++ [transaction])
              (S (s_HistoryIndex w)) w).
Proof.
  unfold s_CommitTransaction, modify. by rewrite pop_stale_take by lia.
Qed.

(** C3.  When [canRedo()] holds, committing an entry drops every stored
    entry at index >= cursor, appends the new entry, moves the cursor up by
    one, and [canRedo()] is false right afterwards. *)
Theorem commit_discards_redo w transaction :
  canRedo w = true →
  ∃ w', s_CommitTransaction transaction w = (Ok tt, w') ∧
        s_HistoryEntries w' =
          take (s_HistoryIndex w) (s_HistoryEntries w) ++ [transaction] ∧
        s_HistoryIndex w' = S (s_HistoryIndex w) ∧
        canRedo w' = false.
Proof.
  intros Hredo. apply bool_decide_eq_true in Hredo.
  eexists. rewrite s_CommitTransaction_eq. split; [done|]. simpl.
  repeat split. apply bool_decide_eq_false. simpl.
  rewrite length_app, length_take. simpl. lia.
Qed.

(** C4.  [startTransaction] with a transaction open returns [false] and
    leaves the whole state as it was; [commitTransaction] with none open
    changes nothing. *)
Theorem transaction_guards w :
  (∀ t text, s_Transaction w = Some t →
             startTransaction text w = (Ok false, w)) ∧
  (s_Transaction w = None → commitTransaction w = (Ok tt, w)).
Proof.
  split.
  - intros t text Hopen. unfold startTransaction. by rewrite Hopen.
  - intros Hclosed. unfold commitTransaction. by rewrite Hclosed.
Qed.

Lemma entry_at_none i w :
  i ≫= (λ n, s_HistoryEntries w !! n) = None → entry_at i w = (Throw, w).
Proof. unfold entry_at. by intros ->. Qed.

(** C5.  With nothing to undo, [undo()] and [getUndoPreview()] throw; with
    nothing to redo, [redo()] and [getRedoPreview()] throw.  The world, and
    with it the cursor and the entries, is the one before the call. *)
Theorem precondition_violation_throws w :
  (canUndo w = false →
     undo w = (Throw, w) ∧ getUndoPreview w = (Throw, w)) ∧
  (canRedo w = false →
     redo w = (Throw, w) ∧ getRedoPreview w = (Throw, w)).
Proof.
  split.
  - intros Hundo. apply bool_decide_eq_false in Hundo.
    assert (index_before w = None) as Hidx.
    { unfold index_before. destruct (s_HistoryIndex w); [done | lia]. }
    unfold undo, getUndoPreview, bind.
    rewrite entry_at_none; [done | by rewrite Hidx].
  - intros Hredo. apply bool_decide_eq_false in Hredo.
    unfold redo, getRedoPreview, bind.
    rewrite entry_at_none; [done|]. simpl. apply lookup_ge_None. lia.
Qed.

End history_store.


(* ================================================================== *)
(** * Actions and their callbacks *)

Section action_facts.
Implicit Types (w : World) (a : HistoryAction) (fs : list nat).

Lemma emit_all_snoc fs f w :
  emit_all (fs ++ [f]) w =
    record_event (Emitted f (heap (emit_all fs w))) (emit_all fs w).
Proof. unfold emit_all. by rewrite foldl_app. Qed.

Lemma emit_all_frame fs w :
  heap (emit_all fs w) = heap w ∧
  actions (emit_all fs w) = actions w ∧
  s_HistoryIndex (emit_all fs w) = s_HistoryIndex w ∧
  s_HistoryEntries (emit_all fs w) = s_HistoryEntries w ∧
  s_Transaction (emit_all fs w) = s_Transaction w ∧
  trace (emit_all fs w) = trace w ++ map (λ f, Emitted f (heap w)) fs.
Proof.
  induction fs as [|f fs IH] using rev_ind.
  - simpl. by rewrite app_nil_r.
  - destruct IH as (Hh & Ha & Hi & He & Ht & Htr).
    rewrite emit_all_snoc. simpl.
    rewrite Hh, Htr, map_app, app_assoc. done.
Qed.

Lemma for_each_call_emit fs w :
  for_each call_emit fs w = (Ok tt, emit_all fs w).
Proof. revert w. induction fs as [|f fs IH]; intros w; [done|]. apply IH. Qed.

Lemma HistoryAction_apply_eq w this a dir :
  actions w !! this = Some a →
  HistoryAction_apply this dir w =
    match call_ApplyFn (m_Apply a) (select_value dir a) (heap w) with
    | None =>
        (Throw, stop (run_ApplyFn (m_Apply a) (select_value dir a) (heap w)) w)
    | Some σ' =>
        (match m_Data a with
         | Some d => Ok (entity_number d)
         | None => Throw
         end, emit_all (m_Emits a) (set_heap σ' w))
    end.
Proof.
  intros Ha.
  unfold HistoryAction_apply, bind, deref, call_m_Apply, call_ApplyFn.
  rewrite Ha.
  destruct (run_ApplyFn _ _ _) as [σ'| |]; [|done..].
  simpl. rewrite for_each_call_emit. by destruct (m_Data a).
Qed.

Lemma stop_frame {A} (o : Outcome A) w :
  heap (stop o w) = heap w ∧
  actions (stop o w) = actions w ∧
  s_HistoryIndex (stop o w) = s_HistoryIndex w ∧
  s_HistoryEntries (stop o w) = s_HistoryEntries w ∧
  s_Transaction (stop o w) = s_Transaction w.
Proof. by destruct o. Qed.

Lemma stop_actions {A} (o : Outcome A) w : actions (stop o w) = actions w.
Proof. by destruct o. Qed.

Lemma stop_index {A} (o : Outcome A) w :
  s_HistoryIndex (stop o w) = s_HistoryIndex w.
Proof. by destruct o. Qed.

Lemma stop_entries {A} (o : Outcome A) w :
  s_HistoryEntries (stop o w) = s_HistoryEntries w.
Proof. by destruct o. Qed.

Lemma stop_transaction {A} (o : Outcome A) w :
  s_Transaction (stop o w) = s_Transaction w.
Proof. by destruct o. Qed.

Lemma lift_eq {A} (o : Store → Outcome A) w :
  lift o w = match returned (o (heap w)) with
             | Some a => (Ok a, w)
             | None => (Throw, stop (o (heap w)) w)
             end.
Proof. unfold lift. by destruct (o (heap w)). Qed.

Lemma HistoryAction_emit_eq w this a f :
  actions w !! this = Some a →
  HistoryAction_emit this f w =
    (Ok this, set_actions
       (<[this := {| m_OldValue := m_OldValue a; m_NewValue := m_NewValue a;
                     m_Data := m_Data a; m_Apply := m_Apply a;
                     m_Emits := m_Emits a ++ [f] |}]> (actions w)) w).
Proof. intros Ha. unfold HistoryAction_emit, bind, deref. by rewrite Ha. Qed.

Lemma chain_emits_eq fs w this a :
  actions w !! this = Some a →
  chain_emits this fs w =
    (Ok this, set_actions
       (<[this := {| m_OldValue := m_OldValue a; m_NewValue := m_NewValue a;
                     m_Data := m_Data a; m_Apply := m_Apply a;
                     m_Emits := m_Emits a ++ fs |}]> (actions w)) w).
Proof.
  revert w a. induction fs as [|f fs IH]; intros w a Ha; simpl.
  - rewrite app_nil_r. unfold ret. f_equal.
    destruct w, a; unfold set_actions; simpl in *. f_equal.
    by rewrite list_insert_id.
  - unfold bind. rewrite (HistoryAction_emit_eq _ _ a) by done.
    erewrite IH; last first.
    { simpl. apply list_lookup_insert_eq. by eapply lookup_lt_Some. }
    simpl. unfold set_actions; simpl.
    by rewrite list_insert_insert_eq, <-app_assoc.
Qed.

(** C6.  Callbacks registered on an action through [emit] are kept with the
    action.  Every later [apply], in either direction, calls each of them
    once, in the order of registration and after the mutation (each call
    sees the store [σ'] that the mutation produced); the registrations are
    still there for the next [apply]. *)
Theorem emits_fire_once_in_order w this a fs :
  actions w !! this = Some a →
  ∃ w1, chain_emits this fs w = (Ok this, w1) ∧
    ∀ w' dir σ',
      actions w' !! this = actions w1 !! this →
      call_ApplyFn (m_Apply a) (select_value dir a) (heap w') = Some σ' →
      ∃ r w2, HistoryAction_apply this dir w' = (r, w2) ∧
              heap w2 = σ' ∧
              trace w2 =
                trace w' ++ map (λ f, Emitted f σ') (m_Emits a ++ fs) ∧
              actions w2 = actions w'.
Proof.
  intros Ha. eexists. split; [by apply chain_emits_eq|].
  intros w' dir σ' Hsame Happly. simpl in Hsame.
  rewrite list_lookup_insert_eq in Hsame by (by eapply lookup_lt_Some).
  rewrite (HistoryAction_apply_eq _ _ _ _ Hsame).
  destruct dir; simpl in *; rewrite Happly;
    (do 2 eexists; split; [done|]);
    destruct (emit_all_frame (m_Emits a ++ fs) (set_heap σ' w'))
      as (Hh & Hacts & _ & _ & _ & Htr); simpl in *;
    by rewrite Hh, Hacts, Htr.
Qed.

(** C10.  [apply] runs the apply closure, then the callbacks, and only then
    reads [entity_number] from the metadata: without metadata it throws at
    that read, in a world where the mutation and the callbacks have already
    happened; with metadata it returns the entity number. *)
Theorem apply_needs_metadata w this a dir σ' :
  actions w !! this = Some a →
  call_ApplyFn (m_Apply a) (select_value dir a) (heap w) = Some σ' →
  ∃ w', HistoryAction_apply this dir w =
          (match m_Data a with
           | Some d => Ok (entity_number d)
           | None => Throw
           end, w') ∧
        heap w' = σ' ∧
        trace w' = trace w ++ map (λ f, Emitted f σ') (m_Emits a).
Proof.
  intros Ha Happly. rewrite (HistoryAction_apply_eq _ _ _ _ Ha), Happly.
  eexists. split; [done|].
  destruct (emit_all_frame (m_Emits a) (set_heap σ' w))
    as (Hh & _ & _ & _ & _ & Htr). by rewrite Hh, Htr.
Qed.

End action_facts.

(* ================================================================== *)
(** * Slots: what the accessor reads and writes *)

Section slots.
Implicit Types (σ : Store) (s : Slot) (x y : option jsval) (o : object)
  (f : ApplyFn) (v : IValueInfo).

Lemma content_slot_of x : content (slot_of x) = x.
Proof. by destruct x. Qed.

Lemma alter_fields_compose g h o :
  alter_fields g (alter_fields h o) = alter_fields (g ∘ h) o.
Proof. by destruct o. Qed.

Lemma own_alter_fields_ne o k j x :
  j ≠ k → own (alter_fields (partial_alter (λ _, x) k) o) j = own o j.
Proof.
  intros Hne. destruct o as [m|len m]; simpl.
  - by rewrite lookup_partial_alter_ne.
  - destruct (decide (j = "length")); [done|].
    by rewrite lookup_partial_alter_ne.
Qed.

Lemma plain_key_alter_fields g o k :
  plain_key (alter_fields g o) k = plain_key o k.
Proof. by destruct o. Qed.

(** Writing a slot twice leaves the second value; writes to different
    slots commute. *)
Lemma assign_absorb s x y σ : assign s x (assign s y σ) = assign s x σ.
Proof.
  destruct s as [a k|t key]; unfold assign; simpl; f_equal.
  - rewrite alter_alter_eq. apply alter_ext. intros o _. simpl.
    rewrite alter_fields_compose. destruct o; simpl; f_equal;
      by rewrite partial_alter_partial_alter_eq.
  - rewrite alter_alter_eq. apply alter_ext. intros m _. simpl.
    by rewrite partial_alter_partial_alter_eq.
Qed.

Lemma assign_commute s s' x y σ :
  s ≠ s' → assign s x (assign s' y σ) = assign s' y (assign s x σ).
Proof.
  intros Hne. destruct s as [a k|t key], s' as [a' k'|t' key'];
    unfold assign; simpl; try done; f_equal.
  - destruct (decide (a = a')) as [->|Ha].
    + assert (k ≠ k') by congruence.
      rewrite !alter_alter_eq. apply alter_ext. intros o _. simpl.
      rewrite !alter_fields_compose. destruct o; simpl; f_equal;
        by apply partial_alter_partial_alter_ne.
    + by apply alter_alter_ne.
  - destruct (decide (t = t')) as [->|Ht].
    + assert (key ≠ key') by congruence.
      rewrite !alter_alter_eq. apply alter_ext. intros m _. simpl.
      by apply partial_alter_partial_alter_ne.
    + by apply alter_alter_ne.
Qed.

(** Putting into a slot what it holds changes nothing. *)
Lemma assign_peek s σ :
  (∀ a k o, s = SObj a k → objects σ !! a = Some o → plain_key o k = true) →
  assign s (peek s σ) σ = σ.
Proof.
  intros Hplain. destruct σ as [objs ms].
  destruct s as [a k|t key]; unfold assign, peek; simpl; f_equal.
  - destruct (objs !! a) as [o|] eqn:Ho; simpl.
    + apply alter_id. intros o' Ho'. assert (o' = o) as -> by congruence.
      specialize (Hplain a k o eq_refl Ho).
      destruct o as [m|len m]; simpl in *; f_equal.
      * by apply partial_alter_self.
      * apply andb_prop in Hplain as [_ Hplain].
        apply andb_prop in Hplain as [Hlen _].
        apply bool_decide_eq_true in Hlen.
        rewrite decide_False by done. by apply partial_alter_self.
    + apply map_eq. intros b. destruct (decide (b = a)) as [->|Hb].
      * by rewrite lookup_alter_eq, Ho.
      * by rewrite lookup_alter_ne.
  - destruct (ms !! t) as [m|] eqn:Hm; simpl.
    + apply alter_id. intros m' Hm'. assert (m' = m) as -> by congruence.
      by apply partial_alter_self.
    + apply map_eq. intros b. destruct (decide (b = t)) as [->|Hb].
      * by rewrite lookup_alter_eq, Hm.
      * by rewrite lookup_alter_ne.
Qed.

(** An assignment is seen in its slot and nowhere else. *)
Lemma objects_assign s x σ b :
  ∃ g, objects (assign s x σ) !! b = alter_fields g <$> objects σ !! b ∧
       ∀ k o, s ≠ SObj b k → own (alter_fields g o) k = own o k.
Proof.
  destruct s as [a k|t key]; simpl.
  - destruct (decide (a = b)) as [->|Hab].
    + exists (partial_alter (λ _, x) k). split; [by rewrite lookup_alter_eq|].
      intros j o Hne. apply own_alter_fields_ne. congruence.
    + exists id. rewrite lookup_alter_ne by done. split.
      * destruct (objects σ !! b) as [[]|]; done.
      * by intros j [].
  - exists id. split.
    + destruct (objects σ !! b) as [[]|]; done.
    + by intros j [].
Qed.

Lemma peek_assign_ne s s' x σ : s ≠ s' → peek s (assign s' x σ) = peek s σ.
Proof.
  intros Hne. destruct s as [b j|t key].
  - simpl. destruct (objects_assign s' x σ b) as (g & -> & Hown).
    destruct (objects σ !! b) as [o|]; simpl; [|done].
    apply Hown. congruence.
  - destruct s' as [a k|t' key']; simpl; [done|].
    destruct (decide (t' = t)) as [->|Ht].
    + rewrite lookup_alter_eq. destruct (maps σ !! t); simpl; [|done].
      apply lookup_partial_alter_ne. congruence.
    + by rewrite lookup_alter_ne.
Qed.

Lemma peek_assign s x σ :
  (∀ a k, s = SObj a k →
     ∃ o, objects σ !! a = Some o ∧ plain_key o k = true) →
  (∀ t key, s = SKey t key → is_Some (maps σ !! t)) →
  peek s (assign s x σ) = x.
Proof.
  intros Hobj Hmap. destruct s as [a k|t key]; simpl.
  - destruct (Hobj a k eq_refl) as (o & Ho & Hplain).
    rewrite lookup_alter_eq, Ho. simpl.
    destruct o as [m|len m]; simpl.
    + by rewrite lookup_partial_alter_eq.
    + unfold plain_key in Hplain.
      apply andb_prop in Hplain as [_ Hplain].
      apply andb_prop in Hplain as [Hlen _].
      apply bool_decide_eq_true in Hlen.
      rewrite decide_False by done. by rewrite lookup_partial_alter_eq.
  - destruct (Hmap t key eq_refl) as [m Hm].
    rewrite lookup_alter_eq, Hm. simpl. by rewrite lookup_partial_alter_eq.
Qed.

Lemma get_member_assign s x σ obj j :
  (∀ b, obj = JRef b → s ≠ SObj b j) →
  get_member (assign s x σ) obj j = get_member σ obj j.
Proof.
  intros Hne. destruct obj as [| | | | |b]; try done. simpl.
  destruct (objects_assign s x σ b) as (g & -> & Hown).
  specialize (Hown j). specialize (Hne b eq_refl).
  destruct (objects σ !! b) as [o|]; simpl; [|done].
  specialize (Hown o Hne).
  destruct o as [m|len m]; simpl in *.
  - by rewrite Hown.
  - by rewrite Hown.
Qed.

Lemma walk_assign s x σ ks : ∀ obj,
  s ∉ walk_slots σ obj ks →
  walk (assign s x σ) obj ks = walk σ obj ks ∧
  walk_slots (assign s x σ) obj ks = walk_slots σ obj ks.
Proof.
  induction ks as [|k ks IH]; intros obj Hnot; [done|]. simpl in *.
  rewrite get_member_assign; last first.
  { intros b -> ->. apply Hnot. simpl. by left. }
  destruct (get_member σ obj k) as [child| |] eqn:Hget; simpl; [|done..].
  destruct (IH child) as [-> ->]; [|done].
  intros Hin. apply Hnot. apply elem_of_app. by right.
Qed.

Lemma site_assign s x σ f :
  s ∉ passes σ f →
  site (assign s x σ) f = site σ f ∧ passes (assign s x σ) f = passes σ f.
Proof.
  intros Hnot. destruct f as [target path|t key]; simpl in *.
  - destruct (walk_assign s x σ (removelast path) (JRef target) Hnot)
      as [-> ->].
    split; [|done].
    destruct (last path) as [k|]; [|done].
    destruct (walk σ (JRef target) (removelast path)) as [[| | | | |a]| |];
      try done.
    destruct (objects_assign s x σ a) as (g & -> & _).
    destruct (objects σ !! a) as [o|]; simpl; [|done].
    by rewrite plain_key_alter_fields.
  - split; [|done]. destruct s as [a k|t' key']; simpl; [done|].
    destruct (decide (t' = t)) as [->|Ht].
    + rewrite lookup_alter_eq. by destruct (maps σ !! t).
    + by rewrite lookup_alter_ne.
Qed.

End slots.

(* ================================================================== *)
(** * The accessor as a descent and one step at the end *)

Section site_laws.
Implicit Types (σ : Store) (s : Slot) (x y : option jsval) (o : object)
  (f : ApplyFn) (v : IValueInfo).

Lemma s_GetValue_snoc σ ks k : ∀ obj,
  s_GetValue σ obj (ks ++ [k]) = (h ← walk σ obj ks; own_property σ h k).
Proof.
  induction ks as [|k1 ks IH]; intros obj; [done|].
  simpl. destruct (ks ++ [k]) as [|k2 rest] eqn:Heq.
  { by destruct ks. }
  destruct (get_member σ obj k1) as [child| |]; simpl; [|done..].
  apply IH.
Qed.

Lemma s_SetValue_snoc σ ks k v : ∀ obj,
  s_SetValue σ obj (ks ++ [k]) v
  = (h ← walk σ obj ks; set_property σ h k (value v)).
Proof.
  induction ks as [|k1 ks IH]; intros obj; [done|].
  simpl. destruct (ks ++ [k]) as [|k2 rest] eqn:Heq.
  { by destruct ks. }
  destruct (get_member σ obj k1) as [child| |]; simpl; [|done..].
  apply IH.
Qed.

Lemma s_DeleteValue_snoc σ ks k : ∀ obj,
  s_DeleteValue σ obj (ks ++ [k])
  = (h ← walk σ obj ks; delete_property σ h k).
Proof.
  induction ks as [|k1 ks IH]; intros obj; [done|].
  simpl. destruct (ks ++ [k]) as [|k2 rest] eqn:Heq.
  { by destruct ks. }
  destruct (get_member σ obj k1) as [child| |]; simpl; [|done..].
  apply IH.
Qed.

Lemma walk_snoc σ ks k : ∀ obj,
  walk σ obj (ks ++ [k]) = (h ← walk σ obj ks; get_member σ h k).
Proof.
  induction ks as [|k1 ks IH]; intros obj; simpl.
  - by destruct (get_member σ obj k).
  - destruct (get_member σ obj k1); simpl; [apply IH|done..].
Qed.

Lemma path_snoc (path : list string) k :
  last path = Some k → path = removelast path ++ [k].
Proof.
  intros Hlast. destruct path as [|k0 path] using rev_ind; [done|].
  rewrite last_snoc in Hlast. simplify_eq.
  by rewrite removelast_last.
Qed.

Lemma alter_lookup_insert {A} (g : A → A) (m : gmap nat A) a (z : A) :
  m !! a = Some z → <[a := g z]> m = alter g a m.
Proof.
  intros Ho. apply map_eq. intros b. destruct (decide (b = a)) as [->|Hb].
  - by rewrite lookup_insert_eq, lookup_alter_eq, Ho.
  - by rewrite lookup_insert_ne, lookup_alter_ne.
Qed.

Lemma plain_key_spec o k :
  plain_key o k = true →
  k ≠ "hasOwnProperty" ∧ k ≠ "__proto__" ∧
  match o with
  | JObj _ => True
  | JArr len _ => k ≠ "length" ∧ grow len k = len
  end.
Proof.
  unfold plain_key. intros [Hk Ho]%andb_prop.
  apply bool_decide_eq_true in Hk.
  split; [set_solver|]. split; [set_solver|].
  destruct o as [m|len m]; [done|].
  apply andb_prop in Ho as [Hlen Hidx]. apply bool_decide_eq_true in Hlen.
  split; [done|]. unfold grow. destruct (index_of k) as [n|]; [|done].
  apply bool_decide_eq_true in Hidx. lia.
Qed.

(** At a plain key of an object or array of the store, an assignment and a
    removal change that slot, and a read answers what the slot holds. *)
Lemma set_property_plain σ a o k u :
  objects σ !! a = Some o → plain_key o k = true →
  set_property σ (JRef a) k u = Done (assign (SObj a k) (Some u) σ).
Proof.
  intros Ho Hplain. apply plain_key_spec in Hplain as (_ & Hproto & Harr).
  unfold set_property, store_object, assign. rewrite Ho.
  destruct o as [m|len m].
  - rewrite decide_False by (by intros [? _]).
    do 2 f_equal.
    exact (alter_lookup_insert
             (alter_fields (partial_alter (λ _, Some u) k)) _ _ _ Ho).
  - destruct Harr as [Hlen Hgrow].
    rewrite decide_False by done.
    rewrite decide_False by (by intros [? _]). rewrite Hgrow.
    do 2 f_equal.
    exact (alter_lookup_insert
             (alter_fields (partial_alter (λ _, Some u) k)) _ _ _ Ho).
Qed.

Lemma delete_property_plain σ a o k :
  objects σ !! a = Some o → plain_key o k = true →
  delete_property σ (JRef a) k = Done (assign (SObj a k) None σ).
Proof.
  intros Ho Hplain. apply plain_key_spec in Hplain as (_ & Hproto & Harr).
  unfold delete_property, store_object, assign. rewrite Ho.
  destruct o as [m|len m].
  - do 2 f_equal.
    exact (alter_lookup_insert
             (alter_fields (partial_alter (λ _, None) k)) _ _ _ Ho).
  - destruct Harr as [Hlen Hgrow].
    rewrite decide_False by done.
    do 2 f_equal.
    exact (alter_lookup_insert
             (alter_fields (partial_alter (λ _, None) k)) _ _ _ Ho).
Qed.

Lemma own_property_plain σ a o k :
  objects σ !! a = Some o →
  own_property σ (JRef a) k =
    if shadowed (SObj a k) σ then Raises
    else Done (slot_of (peek (SObj a k) σ)).
Proof.
  intros Ho. unfold own_property, shadowed, peek. rewrite Ho. simpl.
  destruct (decide (is_Some (own o "hasOwnProperty"))) as [H|H].
  - by rewrite bool_decide_eq_true_2.
  - by rewrite bool_decide_eq_false_2.
Qed.

(** What [site] says about a closure on an object path. *)
Lemma site_value σ target path s :
  site σ (ApplyValue target path) = Some s →
  ∃ ks k a o,
    path = ks ++ [k] ∧ s = SObj a k ∧
    walk σ (JRef target) ks = Done (JRef a) ∧
    objects σ !! a = Some o ∧ plain_key o k = true.
Proof.
  simpl. destruct (last path) as [k|] eqn:Hlast; [|done].
  destruct (walk σ (JRef target) (removelast path))
    as [[| | | | |a]| |] eqn:Hwalk; try done.
  destruct (objects σ !! a) as [o|] eqn:Ho; [|done]. simpl.
  destruct (plain_key o k) eqn:Hplain; [|done]. intros [= <-].
  exists (removelast path), k, a, o. split; [by apply path_snoc|]. done.
Qed.

(** The three things a closure does at its slot. *)
Lemma read_slot_site σ f s :
  site σ f = Some s →
  read_slot f σ =
    if shadowed s σ then Raises else Done (slot_of (peek s σ)).
Proof.
  destruct f as [target path|t key]; intros Hsite.
  - apply site_value in Hsite as (ks & k & a & o & -> & -> & Hwalk & Ho & Hk).
    simpl read_slot. rewrite s_GetValue_snoc, Hwalk. simpl mbind.
    by apply own_property_plain with o.
  - simpl in *. destruct (maps σ !! t) as [m|] eqn:Hm; [|done].
    simpl in Hsite. simplify_eq. simpl. by rewrite Hm.
Qed.

Lemma run_ApplyFn_site σ f s v :
  site σ f = Some s →
  run_ApplyFn f v σ =
    if exists_ v then Done (assign s (content v) σ)
    else if shadowed s σ then Raises
    else Done (assign s (content v) σ).
Proof.
  destruct f as [target path|t key]; intros Hsite.
  - pose proof (read_slot_site _ _ _ Hsite) as Hread.
    apply site_value in Hsite as (ks & k & a & o & -> & -> & Hwalk & Ho & Hk).
    simpl in Hread. simpl run_ApplyFn. unfold updateValue_apply, content.
    destruct (exists_ v); simpl.
    + rewrite s_SetValue_snoc, Hwalk. simpl mbind.
      by apply set_property_plain with o.
    + rewrite Hread.
      destruct (bool_decide (is_Some (objects σ !! a ≫= _))); [done|]. simpl.
      destruct (objects σ !! a ≫= (λ o, own o k)) as [u|] eqn:Hpeek; simpl.
      * rewrite s_DeleteValue_snoc, Hwalk. simpl mbind.
        by apply delete_property_plain with o.
      * f_equal. symmetry. change (assign (SObj a k) None σ = σ).
        replace (@None jsval) with (peek (SObj a k) σ) by done.
        apply assign_peek.
        intros a' k' o' [= -> ->] Ho'. congruence.
  - simpl in *. unfold updateMap_apply, content.
    destruct (maps σ !! t) as [m|] eqn:Hm; [|done].
    simpl in Hsite. simplify_eq. simpl.
    assert (∀ g, <[t := g m]> (maps σ) = alter g t (maps σ)) as Halter.
    { intros g. by apply alter_lookup_insert. }
    destruct (exists_ v); simpl.
    + f_equal. f_equal.
      by rewrite <-(Halter (partial_alter (λ _, Some (value v)) key)).
    + f_equal. f_equal.
      rewrite <-(Halter (partial_alter (λ _, None) key)). f_equal.
      destruct (m !! key) eqn:Hkey.
      * by rewrite bool_decide_eq_true_2.
      * rewrite bool_decide_eq_false_2 by (by intros [? ?]; congruence).
        symmetry.
        change (partial_alter (λ _, @None jsval) key m = m).
        rewrite <-(partial_alter_self m key) at 2. by rewrite Hkey.
Qed.

(** When a closure with a slot returns, it has put the content of the
    history slot into its slot of the store. *)
Lemma call_ApplyFn_site σ f s v σ' :
  site σ f = Some s →
  call_ApplyFn f v σ = Some σ' → σ' = assign s (content v) σ.
Proof.
  intros Hsite. unfold call_ApplyFn. rewrite (run_ApplyFn_site _ _ _ _ Hsite).
  destruct (exists_ v); [by intros [= <-]|].
  destruct (shadowed s σ); [done|]. by intros [= <-].
Qed.

Lemma read_old_site σ f s old :
  site σ f = Some s →
  read_old f σ = Some old →
  shadowed s σ = false ∧ old = slot_of (peek s σ).
Proof.
  intros Hsite. unfold read_old. rewrite (read_slot_site _ _ _ Hsite).
  destruct (shadowed s σ); [done|]. by intros [= <-].
Qed.

Lemma shadowed_assign s x σ :
  (∀ a k o, s = SObj a k → objects σ !! a = Some o → plain_key o k = true) →
  shadowed s (assign s x σ) = shadowed s σ.
Proof.
  intros Hplain. destruct s as [a k|t key]; [|done].
  unfold shadowed. f_equal.
  destruct (objects σ !! a) as [o|] eqn:Ho.
  - rewrite peek_assign_ne; [done|].
    specialize (Hplain a k o eq_refl Ho).
    apply plain_key_spec in Hplain as (Hk & _). congruence.
  - simpl. by rewrite lookup_alter_eq, Ho.
Qed.

Lemma site_plain σ f s :
  site σ f = Some s →
  ∀ a k o, s = SObj a k → objects σ !! a = Some o → plain_key o k = true.
Proof.
  intros Hsite a k o -> Ho. destruct f as [target path|t key].
  - apply site_value in Hsite as (ks & k' & a' & o' & _ & [= <- <-] & _ & Ho' & Hk).
    congruence.
  - simpl in Hsite. by destruct (maps σ !! t).
Qed.

Lemma site_holder σ f s :
  site σ f = Some s →
  (∀ a k, s = SObj a k →
     ∃ o, objects σ !! a = Some o ∧ plain_key o k = true) ∧
  (∀ t key, s = SKey t key → is_Some (maps σ !! t)).
Proof.
  intros Hsite. destruct f as [target path|t key].
  - apply site_value in Hsite as (ks & k & a & o & _ & -> & _ & Ho & Hk).
    split; [|done]. intros ? ? [= <- <-]. eauto.
  - simpl in Hsite. destruct (maps σ !! t) as [m|] eqn:Hm; [|done].
    simpl in Hsite. simplify_eq. split; [done|].
    intros ? ? [= <- <-]. eauto.
Qed.

(** The slot that a read returns once a well placed closure has run with
    [v]. *)
Lemma apply_then_read f σ old v σ1 :
  placed f σ →
  read_old f σ = Some old →
  call_ApplyFn f v σ = Some σ1 →
  read_old f σ1 = Some (if exists_ v
                        then {| value := value v; exists_ := true |}
                        else {| value := JUndefined; exists_ := false |}).
Proof.
  intros (s & Hsite & Hpass) Hold Hnew.
  destruct (read_old_site _ _ _ _ Hsite Hold) as [Hshadow _].
  apply (call_ApplyFn_site _ _ _ _ _ Hsite) in Hnew as ->.
  destruct (site_assign s (content v) σ f Hpass) as [Hsite1 _].
  destruct (site_holder _ _ _ Hsite) as [Hobj Hmap].
  unfold read_old. rewrite <-Hsite1 in Hsite.
  rewrite (read_slot_site _ _ _ Hsite). rewrite Hsite1 in Hsite.
  rewrite shadowed_assign, Hshadow by (by eapply site_plain).
  rewrite peek_assign by done. unfold content. by destruct (exists_ v).
Qed.

(** A removal where nothing is leaves the store as it is. *)
Lemma store_eta σ : {| objects := objects σ; maps := maps σ |} = σ.
Proof. by destruct σ. Qed.

Lemma apply_absent f σ v :
  read_old f σ = Some {| value := JUndefined; exists_ := false |} →
  exists_ v = false →
  call_ApplyFn f v σ = Some σ.
Proof.
  unfold read_old, call_ApplyFn.
  destruct f as [target path|targetMap key]; simpl;
    unfold updateValue_apply, updateMap_apply; intros Hold ->; simpl.
  - destruct (s_GetValue σ (JRef target) path) as [cur| |]; simplify_eq/=.
    done.
  - destruct (maps σ !! targetMap) as [m|] eqn:Hm; simplify_eq/=.
    destruct (m !! key) eqn:Hkey; simplify_eq/=.
    by rewrite insert_id, store_eta.
Qed.

(** A well placed closure takes back what it did: called with the old
    value that was read before it wrote, it restores the store. *)
Lemma apply_then_unapply f σ σ1 old new :
  placed f σ →
  read_old f σ = Some old →
  call_ApplyFn f new σ = Some σ1 →
  call_ApplyFn f old σ1 = Some σ.
Proof.
  intros (s & Hsite & Hpass) Hold Hnew.
  destruct (read_old_site _ _ _ _ Hsite Hold) as [Hshadow ->].
  apply (call_ApplyFn_site _ _ _ _ _ Hsite) in Hnew as ->.
  destruct (site_assign s (content new) σ f Hpass) as [Hsite1 _].
  rewrite <-Hsite1 in Hsite.
  unfold call_ApplyFn. rewrite (run_ApplyFn_site _ _ _ _ Hsite).
  rewrite Hsite1 in Hsite.
  rewrite shadowed_assign, Hshadow by (by eapply site_plain).
  rewrite content_slot_of, assign_absorb.
  rewrite assign_peek by (by eapply site_plain).
  by destruct (exists_ _).
Qed.

End site_laws.


(* ================================================================== *)
(** * Mutation calls *)

Section mutation_calls.
Implicit Types (w : World) (a : HistoryAction) (σ : Store).

Lemma console_log_frame kind e ns w :
  ∃ w', console_log kind e ns w = (Ok tt, w') ∧
        heap w' = heap w ∧ actions w' = actions w ∧
        s_HistoryIndex w' = s_HistoryIndex w ∧
        s_HistoryEntries w' = s_HistoryEntries w ∧
        s_Transaction w' = s_Transaction w.
Proof.
  unfold console_log. destruct (m_Text e); eexists; (split; [done|]); done.
Qed.

(** A mutation call made while a transaction is open. *)
Lemma route_action_open w t oldValue newValue text data f :
  s_Transaction w = Some t →
  let a := {| m_OldValue := oldValue; m_NewValue := newValue; m_Data := data;
              m_Apply := f; m_Emits := [] |} in
  let w0 := set_transaction
              (Some (HistoryEntry_push t (length (actions w))))
              (set_actions (actions w ++ [a]) w) in
  route_action oldValue newValue text data f w =
    match call_ApplyFn f newValue (heap w) with
    | None => (Throw, stop (run_ApplyFn f newValue (heap w)) w0)
    | Some σ' =>
        (match data with
         | Some _ => Ok (length (actions w))
         | None => Throw
         end, set_heap σ' w0)
    end.
Proof.
  intros Hopen a w0. unfold route_action. rewrite Hopen.
  unfold bind at 1. unfold new_HistoryAction.
  unfold bind at 1. unfold modify.
  unfold bind at 1.
  rewrite (HistoryAction_apply_eq _ _ a New); last first.
  { simpl. by rewrite lookup_app_r, Nat.sub_diag by lia. }
  simpl. destruct (call_ApplyFn f newValue (heap w)) as [σ'|]; [|done].
  by destruct data.
Qed.

(** A mutation call made with no transaction open. *)
Lemma route_action_closed w oldValue newValue text data f :
  s_Transaction w = None →
  let a := {| m_OldValue := oldValue; m_NewValue := newValue; m_Data := data;
              m_Apply := f; m_Emits := [] |} in
  let h := length (actions w) in
  let e := {| m_Text := text; m_Actions := [h] |} in
  let w0 := set_actions (actions w ++ [a]) w in
  route_action oldValue newValue text data f w =
    match call_ApplyFn f newValue (heap w) with
    | None => (Throw, stop (run_ApplyFn f newValue (heap w)) w0)
    | Some σ' =>
        match data with
        | None => (Throw, set_heap σ' w0)
        | Some d =>
            (Ok h,
             set_history
               (take (s_HistoryIndex w) (s_HistoryEntries w) ++ [e])
               (S (s_HistoryIndex w))
               (snd (console_log LogApply e [entity_number d]
                       (set_heap σ' w0))))
        end
    end.
Proof.
  intros Hclosed a h e w0. unfold route_action. rewrite Hclosed.
  unfold bind at 1. unfold new_HistoryAction.
  unfold bind at 1. unfold HistoryEntry_apply.
  unfold bind at 1. unfold apply_actions. simpl map_each.
  unfold bind at 1.
  rewrite (HistoryAction_apply_eq _ _ a New); last first.
  { simpl. by rewrite lookup_app_r, Nat.sub_diag by lia. }
  subst a h e w0. simpl.
  destruct (call_ApplyFn f newValue (heap w)) as [σ'|]; [|done].
  destruct data as [d|]; [|done]. simpl.
  unfold bind, ret, console_log, s_CommitTransaction, modify. simpl.
  destruct text; simpl; by rewrite pop_stale_take by lia.
Qed.

Lemma call_eq c w :
  call c w =
    match read_old (closure_of c) (heap w) with
    | Some oldValue =>
        route_action oldValue (newValue_of c) (text_of c) (data_of c)
          (closure_of c) w
    | None => (Throw, stop (read_slot (closure_of c) (heap w)) w)
    end.
Proof.
  destruct c as [target path v text data remove|targetMap key v text data remove];
    simpl; unfold updateValue, updateMap, bind, read_path, read_key, read_old.
  - rewrite lift_eq. simpl. by destruct (returned _).
  - simpl. destruct (maps (heap w) !! targetMap) as [m|]; [|done]. simpl.
    by destruct (m !! key).
Qed.

(** The [Map] example with metadata supplied: clearing key 1 of [{1: 'x'}]
    removes it, and [undo()] puts ['x'] back. *)
Lemma map_clear_with_metadata data :
  ∃ h w1 w2,
    updateMap 3 (KNum 1) JUndefined (Some "clear") (Some data) true
      (initial labels_store) = (Ok h, w1) ∧
    maps (heap w1) !! 3 = Some ∅ ∧
    undo w1 = (Ok tt, w2) ∧
    heap w2 = labels_store.
Proof.
  do 3 eexists. split; [vm_compute; reflexivity|].
  split; [vm_compute; reflexivity|]. split; vm_compute; reflexivity.
Qed.

(** C8.  A mutation call made while a transaction is open leaves the
    committed entries and the cursor alone, whatever its outcome.  A call
    that returns has read the old value and has run its closure with the
    new value: the store after the call is the store the closure left.
    Once the old value has been read the action is on the open entry, and
    once the closure has returned its effect is in the store, also when the
    call then throws for lack of metadata. *)
Theorem open_transaction_defers_commit w t c r w' :
  s_Transaction w = Some t →
  call c w = (r, w') →
  s_HistoryEntries w' = s_HistoryEntries w ∧
  s_HistoryIndex w' = s_HistoryIndex w ∧
  (∀ h, r = Ok h →
     is_Some (read_old (closure_of c) (heap w)) ∧
     call_ApplyFn (closure_of c) (newValue_of c) (heap w) = Some (heap w')) ∧
  (∀ oldValue,
     read_old (closure_of c) (heap w) = Some oldValue →
     s_Transaction w' = Some (HistoryEntry_push t (length (actions w))) ∧
     ∀ σ',
       call_ApplyFn (closure_of c) (newValue_of c) (heap w) = Some σ' →
       heap w' = σ').
Proof.
  intros Hopen Hcall. rewrite call_eq in Hcall.
  destruct (read_old (closure_of c) (heap w)) as [oldValue|] eqn:Hold.
  - rewrite (route_action_open _ t) in Hcall by done.
    destruct (call_ApplyFn (closure_of c) (newValue_of c) (heap w))
      as [σ'|] eqn:Happly; simplify_eq; simpl.
    + repeat split; try done. by intros ? [= ->].
    + destruct (stop_frame (run_ApplyFn (closure_of c) (newValue_of c) (heap w))
        (set_transaction (Some (HistoryEntry_push t (length (actions w))))
           (set_actions
              (actions w ++
               [{| m_OldValue := oldValue; m_NewValue := newValue_of c;
                   m_Data := data_of c; m_Apply := closure_of c;
                   m_Emits := [] |}]) w)))
        as (_ & _ & Hi & He & Ht).
      rewrite Hi, He, Ht. simpl. repeat split; try done.
  - simplify_eq.
    destruct (stop_frame (read_slot (closure_of c) (heap w)) w)
      as (_ & _ & Hi & He & _).
    rewrite Hi, He. repeat split; try done.
Qed.

(** C9.  The rename example as the header of the module writes it, with no
    metadata: the call changes the name and then throws, nothing is
    committed, and [undo()] and [redo()] throw with the name still ['B'],
    where the example expects ['A'] after [undo()]. *)
Lemma rename_without_metadata :
  ∃ w1, updateValue 0 ["name"] (JStr "B") (Some "rename") None false
          (initial rename_store) = (Throw, w1) ∧
        objects (heap w1) !! 0 = Some (JObj {[ "name" := JStr "B" ]}) ∧
        s_HistoryEntries w1 = [] ∧
        undo w1 = (Throw, w1) ∧
        redo w1 = (Throw, w1).
Proof.
  exists renamed_without_data.
  split; [vm_compute; reflexivity|]. split; [vm_compute; reflexivity|].
  split; [reflexivity|]. split; vm_compute; reflexivity.
Qed.

(** The same example with metadata supplied goes as described: ['B'] after
    the call, ['A'] after [undo()], ['B'] after [redo()]. *)
Lemma rename_with_metadata data :
  ∃ h w1 w2 w3,
    updateValue 0 ["name"] (JStr "B") (Some "rename") (Some data) false
      (initial rename_store) = (Ok h, w1) ∧
    objects (heap w1) !! 0 = Some (JObj {[ "name" := JStr "B" ]}) ∧
    undo w1 = (Ok tt, w2) ∧
    objects (heap w2) !! 0 = Some (JObj {[ "name" := JStr "A" ]}) ∧
    redo w2 = (Ok tt, w3) ∧
    objects (heap w3) !! 0 = Some (JObj {[ "name" := JStr "B" ]}).
Proof.
  do 4 eexists. split; [by vm_compute|]. split; [by vm_compute|].
  split; [by vm_compute|]. split; [by vm_compute|].
  split; [by vm_compute|]. by vm_compute.
Qed.

End mutation_calls.


(* ================================================================== *)
(** * Entries *)

Section entries.
Implicit Types (w : World) (e : HistoryEntry) (acts : list HistoryAction).

Lemma same_history_refl w : same_history w w.
Proof. done. Qed.

Lemma stop_same_history {A} (o : Outcome A) w : same_history w (stop o w).
Proof. by destruct o. Qed.

Lemma same_history_trans w1 w2 w3 :
  same_history w1 w2 → same_history w2 w3 → same_history w1 w3.
Proof.
  intros (Ha & Hi & He & Ht) (Ha' & Hi' & He' & Ht').
  repeat split; congruence.
Qed.

Lemma emit_all_same_history fs σ w :
  same_history w (emit_all fs (set_heap σ w)).
Proof.
  destruct (emit_all_frame fs (set_heap σ w)) as (_ & ? & ? & ? & ? & _).
  done.
Qed.

Lemma replay_app dir acts1 acts2 σ :
  replay dir (acts1 ++ acts2) σ = replay dir acts1 σ ≫= replay dir acts2.
Proof.
  revert σ. induction acts1 as [|a acts1 IH]; intros σ; simpl; [done|].
  destruct (call_ApplyFn _ _ _); simpl; [apply IH | done].
Qed.

Lemma resolve_same_actions w w' refs acts :
  actions w' = actions w → resolve w refs acts → resolve w' refs acts.
Proof. unfold resolve. by intros ->. Qed.

(** A loop over the actions that returns has applied them to the store one
    after the other, first pushed first. *)
Lemma apply_actions_ok dir refs : ∀ w ns w',
  apply_actions dir refs w = (Ok ns, w') →
  ∃ acts, resolve w refs acts ∧
          replay dir acts (heap w) = Some (heap w') ∧
          same_history w w'.
Proof.
  induction refs as [|r refs IH]; intros w ns w' Hrun.
  - exists []. unfold apply_actions in Hrun. simpl in Hrun.
    unfold ret in Hrun. simplify_eq. split; [by constructor|].
    split; [done | apply same_history_refl].
  - unfold apply_actions in Hrun. simpl in Hrun. unfold bind at 1 in Hrun.
    destruct (actions w !! r) as [a|] eqn:Hr; last first.
    { unfold HistoryAction_apply, bind, deref in Hrun. by rewrite Hr in Hrun. }
    rewrite (HistoryAction_apply_eq _ _ _ _ Hr) in Hrun.
    destruct (call_ApplyFn _ _ _) as [σ1|] eqn:Happly; [|done].
    destruct (m_Data a) as [d|]; [|done].
    unfold bind at 1 in Hrun.
    destruct (map_each _ refs _) as [[ns'|] w1] eqn:Hrest; [|done].
    unfold ret in Hrun. simplify_eq.
    destruct (IH _ _ _ Hrest) as (acts & Hres & Hreplay & Hsame).
    pose proof (emit_all_same_history (m_Emits a) σ1 w) as Hsame1.
    destruct (emit_all_frame (m_Emits a) (set_heap σ1 w)) as (Hheap & _).
    exists (a :: acts). split; [|split].
    + constructor; [done|].
      eapply resolve_same_actions; [|done]. symmetry. apply Hsame1.
    + simpl. rewrite Happly. simpl. by rewrite Hheap in Hreplay.
    + by eapply same_history_trans.
Qed.

(** Conversely, the loop returns when every action has its metadata and
    every closure runs. *)
Lemma apply_actions_run dir refs : ∀ acts w σ',
  resolve w refs acts →
  Forall (λ a, is_Some (m_Data a)) acts →
  replay dir acts (heap w) = Some σ' →
  ∃ ns w', apply_actions dir refs w = (Ok ns, w') ∧
           heap w' = σ' ∧ same_history w w'.
Proof.
  induction refs as [|r refs IH]; intros acts w σ' Hres Hdata Hreplay.
  - inversion Hres; simplify_eq/=. by exists [], w.
  - inversion Hres as [|? a ? acts' Hr Hres']; simplify_eq/=.
    inversion Hdata as [|? ? [d Hd] Hdata']; simplify_eq/=.
    destruct (call_ApplyFn _ _ _) as [σ1|] eqn:Happly; [|done].
    simpl in Hreplay.
    pose proof (emit_all_same_history (m_Emits a) σ1 w) as Hsame1.
    destruct (emit_all_frame (m_Emits a) (set_heap σ1 w)) as (Hheap & _).
    destruct (IH acts' (emit_all (m_Emits a) (set_heap σ1 w)) σ')
      as (ns & w' & Hrun & Hh & Hsame).
    { eapply resolve_same_actions; [|done]. apply Hsame1. }
    { done. }
    { by rewrite Hheap. }
    exists (entity_number d :: ns), w'.
    unfold apply_actions in *. simpl. unfold bind at 1.
    rewrite (HistoryAction_apply_eq _ _ _ _ Hr), Happly, Hd.
    unfold bind at 1. rewrite Hrun. split; [done|]. split; [done|].
    by eapply same_history_trans.
Qed.

Lemma console_log_same_history kind e ns w :
  ∃ w', console_log kind e ns w = (Ok tt, w') ∧
        heap w' = heap w ∧ same_history w w'.
Proof.
  destruct (console_log_frame kind e ns w) as (w' & ? & ? & ? & ? & ? & ?).
  by exists w'.
Qed.

(** The three entry methods share one shape. *)
Lemma entry_method_ok dir kind e w w' :
  (let* ns := apply_actions dir (m_Actions e) in console_log kind e ns) w
    = (Ok tt, w') →
  ∃ acts, resolve w (m_Actions e) acts ∧
          replay dir acts (heap w) = Some (heap w') ∧
          same_history w w'.
Proof.
  unfold bind. intros Hrun.
  destruct (apply_actions dir (m_Actions e) w) as [[ns|] w1] eqn:Hloop;
    [|done].
  destruct (apply_actions_ok _ _ _ _ _ Hloop) as (acts & Hres & Hrep & Hsame).
  destruct (console_log_same_history kind e ns w1) as (w2 & Hlog & Hh & Hs).
  rewrite Hlog in Hrun. simplify_eq.
  exists acts. rewrite Hh. split; [done|]. split; [done|].
  by eapply same_history_trans.
Qed.

Lemma entry_method_run dir kind e acts w σ' :
  resolve w (m_Actions e) acts →
  Forall (λ a, is_Some (m_Data a)) acts →
  replay dir acts (heap w) = Some σ' →
  ∃ w', (let* ns := apply_actions dir (m_Actions e) in
         console_log kind e ns) w = (Ok tt, w') ∧
        heap w' = σ' ∧ same_history w w'.
Proof.
  intros Hres Hdata Hrep.
  destruct (apply_actions_run _ _ _ _ _ Hres Hdata Hrep)
    as (ns & w1 & Hloop & Hh1 & Hs1).
  destruct (console_log_same_history kind e ns w1) as (w2 & Hlog & Hh & Hs).
  exists w2. unfold bind. rewrite Hloop, Hlog. split; [done|].
  split; [congruence|]. by eapply same_history_trans.
Qed.

Lemma resolve_app_inv w refs1 refs2 acts :
  resolve w (refs1 ++ refs2) acts →
  ∃ acts1 acts2, acts = acts1 ++ acts2 ∧
                 resolve w refs1 acts1 ∧ resolve w refs2 acts2.
Proof.
  intros H. apply Forall2_app_inv_l in H as (acts1 & acts2 & ? & ? & ->).
  by exists acts1, acts2.
Qed.

(** C7.  [undo()] of an entry walks its actions in the order in which they
    were pushed: with [a1] pushed before [a2], the old value of [a1] is
    written first, on the store left by the actions pushed before it, and
    the old value of [a2] is written last. *)
Theorem entry_undo_forward_order w e r1 r2 a1 a2 w' :
  actions w !! r1 = Some a1 →
  actions w !! r2 = Some a2 →
  HistoryEntry_undo (HistoryEntry_push (HistoryEntry_push e r1) r2) w
    = (Ok tt, w') →
  ∃ acts σ1 σ2,
    resolve w (m_Actions e) acts ∧
    replay Old acts (heap w) = Some σ1 ∧
    call_ApplyFn (m_Apply a1) (m_OldValue a1) σ1 = Some σ2 ∧
    call_ApplyFn (m_Apply a2) (m_OldValue a2) σ2 = Some (heap w').
Proof.
  intros Hr1 Hr2 Hundo.
  apply entry_method_ok in Hundo as (acts & Hres & Hrep & _).
  simpl in Hres.
  apply resolve_app_inv in Hres as (acts12 & l2 & -> & Hres & Hl2).
  apply resolve_app_inv in Hres as (acts0 & l1 & -> & Hres & Hl1).
  inversion Hl1 as [|? b1 ? ? Hb1 Hnil1]; inversion Hnil1; simplify_eq/=.
  inversion Hl2 as [|? b2 ? ? Hb2 Hnil2]; inversion Hnil2; simplify_eq/=.
  rewrite !replay_app in Hrep. simpl in Hrep.
  destruct (replay Old acts0 (heap w)) as [σ1|] eqn:H0;
    [simpl in Hrep|done].
  destruct (call_ApplyFn (m_Apply a1) _ σ1) as [σ2|] eqn:H1;
    [simpl in Hrep|done].
  destruct (call_ApplyFn (m_Apply a2) _ σ2) as [σ3|] eqn:H2;
    [simpl in Hrep|done].
  simplify_eq. by exists acts0, σ1, σ2.
Qed.

(** Forward order is visible: a transaction writes 1 and then 2 to [a],
    which held 0.  After one [undo()] the property holds 1, the old value of
    the action pushed last, and not 0. *)
Lemma undo_order_example data :
  ∃ w',
    (startTransaction (Some "batch") >>
     updateValue 0 ["a"] (JNum 1) None (Some data) false >>
     updateValue 0 ["a"] (JNum 2) None (Some data) false >>
     commitTransaction >>
     undo) (initial counter_store) = (Ok tt, w') ∧
    objects (heap w') !! 0 = Some (JObj {[ "a" := JNum 1 ]}).
Proof. eexists. split; by vm_compute. Qed.

End entries.


(* ================================================================== *)
(** * Round trip of auto-committed calls *)

Section round_trip.
Implicit Types (w : World) (c : Call) (fs : list nat).

(** What a call made with no transaction open, and that returns, has done. *)
Lemma perform_spec w c fs wc :
  s_Transaction w = None →
  perform (c, fs) w = (Ok tt, wc) →
  ∃ a old,
    read_old (closure_of c) (heap w) = Some old ∧
    call_ApplyFn (closure_of c) (newValue_of c) (heap w) = Some (heap wc) ∧
    actions wc = actions w ++ [a] ∧
    m_Apply a = closure_of c ∧ m_OldValue a = old ∧
    m_NewValue a = newValue_of c ∧ m_Emits a = fs ∧
    m_Data a = data_of c ∧ is_Some (data_of c) ∧
    s_HistoryEntries wc =
      take (s_HistoryIndex w) (s_HistoryEntries w) ++
        [{| m_Text := text_of c; m_Actions := [length (actions w)] |}] ∧
    s_HistoryIndex wc = S (s_HistoryIndex w) ∧
    s_Transaction wc = None.
Proof.
  intros Hclosed. unfold perform, bind. simpl. rewrite call_eq.
  destruct (read_old (closure_of c) (heap w)) as [old|] eqn:Hold; [|done].
  rewrite route_action_closed by done.
  destruct (call_ApplyFn _ _ _) as [σ'|] eqn:Happly; [|done].
  destruct (data_of c) as [d|] eqn:Hd; [|done].
  match goal with |- context [console_log ?k ?e ?ns ?w0] =>
    destruct (console_log_frame k e ns w0)
      as (wl & Hlog & Hh & Ha & Hi & He & Ht); rewrite Hlog
  end.
  simpl in *.
  erewrite chain_emits_eq; last first.
  { simpl. rewrite Ha. by rewrite lookup_app_r, Nat.sub_diag by lia. }
  unfold ret. intros [= <-]. simpl.
  eexists _, old. split; [done|]. split; [by rewrite Hh|].
  split.
  { rewrite Ha, insert_app_r_alt, Nat.sub_diag by lia. done. }
  simpl. rewrite Ht. eauto 15.
Qed.

(** One [undo()] on an entry whose actions all carry metadata and whose
    closures all run. *)
Lemma undo_step w i e acts σ :
  s_HistoryIndex w = S i →
  s_HistoryEntries w !! i = Some e →
  resolve w (m_Actions e) acts →
  Forall (λ a, is_Some (m_Data a)) acts →
  replay Old acts (heap w) = Some σ →
  ∃ w', undo w = (Ok tt, w') ∧
        heap w' = σ ∧ actions w' = actions w ∧
        s_HistoryIndex w' = i ∧
        s_HistoryEntries w' = s_HistoryEntries w ∧
        s_Transaction w' = s_Transaction w.
Proof.
  intros Hidx He Hres Hdata Hrep.
  destruct (entry_method_run Old LogUndo e acts w σ Hres Hdata Hrep)
    as (w1 & Hrun & Hh & Ha & Hi & Hes & Ht).
  unfold undo, bind at 1, entry_at, index_before. rewrite Hidx. simpl.
  rewrite He. unfold bind, HistoryEntry_undo. fold (bind (A:=list Z) (B:=unit)).
  rewrite Hrun. unfold modify. eexists. split; [done|]. simpl.
  rewrite Hi, Hidx. repeat split; try done. lia.
Qed.

Lemma bind_assoc {A B C} (m : M A) (k : A → M B) (h : B → M C) w :
  bind (bind m k) h w = bind m (λ a, bind (k a) h) w.
Proof. unfold bind. by destruct (m w) as [[a|] w']. Qed.

Lemma bind_cong {A B} (m : M A) (k k' : A → M B) w :
  (∀ a w', k a w' = k' a w') → bind m k w = bind m k' w.
Proof. intros Hk. unfold bind. by destruct (m w) as [[a|] w']. Qed.

Lemma undo_times_S_r n w :
  undo_times (S n) w = (undo_times n >> undo) w.
Proof.
  revert w. induction n as [|n IH]; intros w.
  - simpl. unfold bind, ret. by destruct (undo w) as [[[]|] w'].
  - change ((undo >> undo_times (S n)) w =
            ((undo >> undo_times n) >> undo) w).
    rewrite bind_assoc. apply bind_cong. intros _ w'. apply IH.
Qed.

Lemma undo_round_trip_rewound steps : ∀ w w1,
  s_Transaction w = None →
  cursor_in_range w →
  well_placed steps w →
  for_each perform steps w = (Ok tt, w1) →
  ∃ w2, undo_times (length steps) w1 = (Ok tt, w2) ∧ rewound w w2.
Proof.
  induction steps as [|[c fs] steps IH];
    intros w w1 Hclosed Hrange Hplaced Hrun.
  - simpl in *. unfold ret in *. simplify_eq. exists w1.
    split; [done|]. by repeat split.
  - simpl in Hrun. unfold bind in Hrun. destruct Hplaced as [Hpl Hplaced].
    destruct (perform (c, fs) w) as [[[]|] wc] eqn:Hc; [|done].
    simpl in Hpl, Hplaced.
    destruct (perform_spec _ _ _ _ Hclosed Hc)
      as (a & old & Hold & Happly & Hacts & Hf & Hov & _ & _ & Hd & Hdata
          & Hes & Hi & Ht).
    rewrite <-Hd in Hdata.
    unfold cursor_in_range in Hrange.
    destruct (IH wc w1) as (w2' & Hundos & Hh' & Hi' & Hes' & Hacts' & Ht');
      [done | | done | done |].
    { unfold cursor_in_range. rewrite Hes, Hi, length_app, length_take.
      simpl. lia. }
    assert (s_HistoryEntries w2' !! s_HistoryIndex w =
            Some {| m_Text := text_of c;
                    m_Actions := [length (actions w)] |}) as Hlook.
    { rewrite <-(lookup_take_lt _ (s_HistoryIndex wc)) by lia.
      rewrite Hes', lookup_take_lt by lia.
      rewrite Hes, lookup_app_r by (rewrite length_take; lia).
      rewrite length_take.
      by replace (s_HistoryIndex w -
                  s_HistoryIndex w `min` length (s_HistoryEntries w))
        with 0 by lia. }
    destruct (undo_step w2' (s_HistoryIndex w)
                {| m_Text := text_of c; m_Actions := [length (actions w)] |}
                [a] (heap w))
      as (w2 & Hundo & Hh & Ha & Hi2 & Hes2 & Ht2).
    + congruence.
    + done.
    + constructor; [|constructor]. eapply prefix_lookup_Some; [|done].
      rewrite Hacts. by rewrite lookup_app_r, Nat.sub_diag by lia.
    + by constructor.
    + simpl. rewrite Hh', Hf, Hov.
      by rewrite (apply_then_unapply _ _ _ _ _ Hpl Hold Happly).
    + exists w2. split.
      { change (length ((c, fs) :: steps)) with (S (length steps)).
        rewrite undo_times_S_r. unfold bind. by rewrite Hundos. }
      split; [done|]. split; [done|]. split; [|split].
      * rewrite Hes2.
        replace (s_HistoryIndex w)
          with (s_HistoryIndex w `min` s_HistoryIndex wc) at 1 by lia.
        rewrite <-take_take, Hes', take_take, Hes.
        rewrite take_app_le by (rewrite length_take; lia).
        rewrite take_take. f_equal. lia.
      * rewrite Ha. etrans; [|done]. rewrite Hacts. by apply prefix_app_r.
      * congruence.
Qed.

(** C1, amended.  After any sequence of mutation calls made with no
    transaction open, each of which returned (and so committed its entry)
    and each of which was well placed in the store it found (its path led
    through own properties to an object or array of the store without
    passing through the property it wrote, and ended in a key other than
    [hasOwnProperty] and [__proto__] and, on an array, other than [length]
    and below [length] if an index), as many calls of [undo()] return and
    leave the store of targets as it was before the first call. *)
Theorem undo_round_trip steps w w1 :
  s_Transaction w = None →
  cursor_in_range w →
  well_placed steps w →
  for_each perform steps w = (Ok tt, w1) →
  ∃ w2, undo_times (length steps) w1 = (Ok tt, w2) ∧ heap w2 = heap w.
Proof.
  intros Hclosed Hrange Hplaced Hrun.
  destruct (undo_round_trip_rewound _ _ _ Hclosed Hrange Hplaced Hrun)
    as (w2 & Hundo & Hh & _).
  by exists w2.
Qed.

(** One [redo()] on an entry whose actions all carry metadata and whose
    closures all run. *)
Lemma redo_step w e acts σ :
  s_HistoryEntries w !! s_HistoryIndex w = Some e →
  resolve w (m_Actions e) acts →
  Forall (λ a, is_Some (m_Data a)) acts →
  replay New acts (heap w) = Some σ →
  ∃ w', redo w = (Ok tt, w') ∧
        heap w' = σ ∧ actions w' = actions w ∧
        s_HistoryIndex w' = S (s_HistoryIndex w) ∧
        s_HistoryEntries w' = s_HistoryEntries w ∧
        s_Transaction w' = s_Transaction w.
Proof.
  intros He Hres Hdata Hrep.
  destruct (entry_method_run New LogRedo e acts w σ Hres Hdata Hrep)
    as (w1 & Hrun & Hh & Ha & Hi & Hes & Ht).
  unfold redo, bind at 1, entry_at. simpl.
  rewrite He. unfold bind, HistoryEntry_redo. fold (bind (A:=list Z) (B:=unit)).
  rewrite Hrun. unfold modify. eexists. split; [done|]. simpl.
  by rewrite Hi.
Qed.

(** X2.  After an auto-committed call that was well placed in the store it
    found, [undo()] gives the targets back as they were, [canRedo()] holds, [getRedoPreview()] is the metadata of the
    call just undone, and [redo()] brings the targets to where the call had
    left them. *)
Theorem undo_then_redo w c fs wc :
  s_Transaction w = None →
  cursor_in_range w →
  placed (closure_of c) (heap w) →
  perform (c, fs) w = (Ok tt, wc) →
  ∃ w2 w3,
    undo wc = (Ok tt, w2) ∧ heap w2 = heap w ∧
    canRedo w2 = true ∧
    getRedoPreview w2 = (Ok (data_of c), w2) ∧
    redo w2 = (Ok tt, w3) ∧ heap w3 = heap wc.
Proof.
  intros Hclosed Hrange Hpl Hc. unfold cursor_in_range in Hrange.
  destruct (perform_spec _ _ _ _ Hclosed Hc)
    as (a & old & Hold & Happly & Hacts & Hf & Hov & Hnv & _ & Hd & Hdata
        & Hes & Hi & Ht).
  rewrite <-Hd in Hdata.
  assert (length (take (s_HistoryIndex w) (s_HistoryEntries w))
          = s_HistoryIndex w) as Hlen by (rewrite length_take; lia).
  assert (s_HistoryEntries wc !! s_HistoryIndex w =
          Some {| m_Text := text_of c;
                  m_Actions := [length (actions w)] |}) as Hlook.
  { by rewrite Hes, lookup_app_r, Hlen, Nat.sub_diag by lia. }
  assert (resolve wc [length (actions w)] [a]) as Hres.
  { constructor; [|constructor].
    by rewrite Hacts, lookup_app_r, Nat.sub_diag by lia. }
  destruct (undo_step wc (s_HistoryIndex w) _ [a] (heap w) Hi Hlook Hres)
    as (w2 & Hundo & Hh2 & Ha2 & Hi2 & Hes2 & Ht2).
  { by constructor. }
  { simpl. rewrite Hf, Hov.
    by rewrite (apply_then_unapply _ _ _ _ _ Hpl Hold Happly). }
  destruct (redo_step w2 {| m_Text := text_of c;
                            m_Actions := [length (actions w)] |}
              [a] (heap wc))
    as (w3 & Hredo & Hh3 & _).
  { by rewrite Hi2, Hes2. }
  { by eapply resolve_same_actions. }
  { by constructor. }
  { simpl. by rewrite Hh2, Hf, Hnv, Happly. }
  exists w2, w3. split; [done|]. split; [done|]. split.
  { apply bool_decide_eq_true. rewrite Hi2, Hes2.
    by eapply lookup_lt_Some. }
  split; [|done].
  unfold getRedoPreview, bind, entry_at. simpl.
  rewrite Hi2, Hes2, Hlook. unfold HistoryEntry_data. simpl.
  unfold HistoryAction_data, bind, deref, ret. rewrite Ha2, Hacts.
  by rewrite lookup_app_r, Nat.sub_diag, <-Hd by lia.
Qed.

(** X3.  A mutation call without metadata never returns and commits
    nothing, with or without a transaction open.  When the old value could
    be read, the action it allocated, without metadata, stays in the world;
    when its closure returned, the new value is in the store although the
    call threw. *)
Theorem call_without_metadata w c :
  data_of c = None →
  ∃ w', call c w = (Throw, w') ∧
        s_HistoryEntries w' = s_HistoryEntries w ∧
        s_HistoryIndex w' = s_HistoryIndex w ∧
        ∀ oldValue,
          read_old (closure_of c) (heap w) = Some oldValue →
          actions w' = actions w ++
            [{| m_OldValue := oldValue; m_NewValue := newValue_of c;
                m_Data := None; m_Apply := closure_of c; m_Emits := [] |}] ∧
          ∀ σ',
            call_ApplyFn (closure_of c) (newValue_of c) (heap w) = Some σ' →
            heap w' = σ'.
Proof.
  intros Hd. rewrite call_eq.
  destruct (read_old (closure_of c) (heap w)) as [old|] eqn:Hold.
  - assert (∀ w0 : World,
      let ws := stop (run_ApplyFn (closure_of c) (newValue_of c) (heap w)) w0 in
      s_HistoryEntries ws = s_HistoryEntries w0 ∧
      s_HistoryIndex ws = s_HistoryIndex w0 ∧ actions ws = actions w0)
      as Hstop.
    { intros w0. simpl.
      by destruct (stop_frame
        (run_ApplyFn (closure_of c) (newValue_of c) (heap w)) w0)
        as (_ & -> & -> & -> & _). }
    destruct (s_Transaction w) as [t|] eqn:Ht.
    + rewrite (route_action_open _ t), Hd by done.
      destruct (call_ApplyFn _ _ _) as [σ'|] eqn:Happly; eexists;
        (split; [done|]).
      * simpl. repeat split; try done; intros; by simplify_eq.
      * destruct (Hstop (set_transaction
            (Some (HistoryEntry_push t (length (actions w))))
            (set_actions (actions w ++
               [{| m_OldValue := old; m_NewValue := newValue_of c;
                   m_Data := None; m_Apply := closure_of c;
                   m_Emits := [] |}]) w))) as (-> & -> & ->).
        simpl. repeat split; try done; intros; by simplify_eq.
    + rewrite route_action_closed, Hd by done.
      destruct (call_ApplyFn _ _ _) as [σ'|] eqn:Happly; eexists;
        (split; [done|]).
      * simpl. repeat split; try done; intros; by simplify_eq.
      * destruct (Hstop (set_actions (actions w ++
               [{| m_OldValue := old; m_NewValue := newValue_of c;
                   m_Data := None; m_Apply := closure_of c;
                   m_Emits := [] |}]) w)) as (-> & -> & ->).
        simpl. repeat split; try done; intros; by simplify_eq.
  - eexists. split; [done|].
    destruct (stop_frame (read_slot (closure_of c) (heap w)) w)
      as (_ & _ & -> & -> & _). by repeat split.
Qed.

End round_trip.

(* ================================================================== *)
(** * Applying an entry again *)

Section redo_after_undo.
Implicit Types (w : World) (e : HistoryEntry) (σ τ : Store) (s : Slot)
  (fs : list ApplyFn) (acts : list HistoryAction)
  (l : list (Slot * option jsval)).

Lemma resolve_inj w refs acts acts' :
  resolve w refs acts → resolve w refs acts' → acts = acts'.
Proof.
  intros H. revert acts'.
  induction H as [|r a refs acts Hr _ IH]; intros acts' H';
    inversion H'; simplify_eq; [done|].
  f_equal. by apply IH.
Qed.

(** An assignment made before a run of assignments that writes the same
    slot again is not seen afterwards. *)
Lemma put_all_absorb_one l : ∀ s x τ,
  s ∈ l.*1 → put_all l (assign s x τ) = put_all l τ.
Proof.
  induction l as [|[s1 x1] l IH]; intros s x τ Hin; simpl in *.
  { by apply elem_of_nil in Hin. }
  destruct (decide (s1 = s)) as [->|Hne].
  - by rewrite assign_absorb.
  - rewrite assign_commute by done. apply IH.
    apply elem_of_cons in Hin as [?|Hin]; [congruence|done].
Qed.

Lemma put_all_absorb l' : ∀ l τ,
  l'.*1 ⊆ l.*1 → put_all l (put_all l' τ) = put_all l τ.
Proof.
  induction l' as [|[s x] l' IH]; intros l τ Hsub; [done|]. simpl.
  rewrite IH by (intros s' Hs'; apply Hsub; simpl; by right).
  apply put_all_absorb_one. apply Hsub. simpl. by left.
Qed.

Lemma writes_slots σ dir dir' acts :
  (writes σ dir acts).*1 = (writes σ dir' acts).*1.
Proof.
  unfold writes. induction acts as [|a acts IH]; [done|]. simpl.
  destruct (site σ (m_Apply a)); simpl; [f_equal|]; exact IH.
Qed.

Lemma steady_assign fs σ τ f s x :
  settled fs σ → steady fs σ τ → f ∈ fs → site σ f = Some s →
  steady fs σ (assign s x τ).
Proof.
  intros Hset Hst Hf Hsite. unfold steady, settled in *.
  rewrite Forall_forall in Hset, Hst |- *. intros g Hg.
  destruct (Hset f Hf) as (s' & Hs' & Hnot).
  assert (s' = s) as -> by congruence.
  rewrite Forall_forall in Hnot.
  destruct (Hst g Hg) as [Hsg Hpg].
  destruct (site_assign s x τ g) as [-> ->]; [|done].
  rewrite Hpg. by apply Hnot.
Qed.

(** In a store where settled closures lead where they lead in [σ], a
    loop over actions that returns has made the assignments of these
    actions, and the closures still lead there. *)
Lemma replay_writes fs σ dir acts : ∀ τ τ',
  settled fs σ → steady fs σ τ →
  Forall (λ a, m_Apply a ∈ fs) acts →
  replay dir acts τ = Some τ' →
  τ' = put_all (writes σ dir acts) τ ∧ steady fs σ τ'.
Proof.
  induction acts as [|a acts IH]; intros τ τ' Hset Hst Hin Hrep; simpl in *.
  { by simplify_eq. }
  apply Forall_cons in Hin as [Ha Hin].
  destruct (call_ApplyFn (m_Apply a) (select_value dir a) τ)
    as [τ1|] eqn:Hcall; [|done]. simpl in Hrep.
  pose proof Hset as Hset'. unfold settled in Hset'.
  rewrite Forall_forall in Hset'.
  destruct (Hset' _ Ha) as (s & Hsite & _).
  pose proof Hst as Hst'. unfold steady in Hst'.
  rewrite Forall_forall in Hst'. destruct (Hst' _ Ha) as [Hsτ _].
  rewrite <-Hsτ in Hsite.
  apply (call_ApplyFn_site _ _ _ _ _ Hsite) in Hcall as ->.
  rewrite Hsτ in Hsite. unfold writes. simpl. rewrite Hsite. simpl.
  apply IH; [done| |done|done].
  by eapply steady_assign.
Qed.

Lemma steady_refl fs σ : steady fs σ σ.
Proof. unfold steady. by apply Forall_forall. Qed.

(** Applying settled actions with New, then Old, then New again leaves
    what the first application with New left. *)
Lemma replay_new_old_new acts σ σ1 σ2 σ3 :
  settled (map m_Apply acts) σ →
  replay New acts σ = Some σ1 →
  replay Old acts σ1 = Some σ2 →
  replay New acts σ2 = Some σ3 →
  σ3 = σ1.
Proof.
  intros Hset H1 H2 H3.
  assert (Forall (λ a, m_Apply a ∈ map m_Apply acts) acts) as Hin.
  { apply Forall_forall. intros a Ha. by apply list_elem_of_fmap_2. }
  destruct (replay_writes _ σ New acts σ σ1 Hset (steady_refl _ _) Hin H1)
    as [-> Hst1].
  destruct (replay_writes _ σ Old acts _ σ2 Hset Hst1 Hin H2) as [-> Hst2].
  destruct (replay_writes _ σ New acts _ σ3 Hset Hst2 Hin H3) as [-> _].
  rewrite (put_all_absorb (writes σ Old acts))
    by (by rewrite (writes_slots σ Old New)).
  by rewrite put_all_absorb.
Qed.

(** C2, amended.  Take an entry whose closures are settled in the store:
    each has a slot there (its path leads through own properties to an
    object or array of the store and ends in a plain key, or its [Map] is
    in the store) and none passes through the slot of any of them.  If
    applying the entry with New, then Old, then New again returns each
    time, the store ends as the first application with New left it. *)
Theorem redo_after_undo_idempotent e acts w w1 w2 w3 :
  resolve w (m_Actions e) acts →
  settled (map m_Apply acts) (heap w) →
  HistoryEntry_apply e New w = (Ok tt, w1) →
  HistoryEntry_apply e Old w1 = (Ok tt, w2) →
  HistoryEntry_apply e New w2 = (Ok tt, w3) →
  heap w3 = heap w1.
Proof.
  intros Hres Hset H1 H2 H3.
  apply entry_method_ok in H1 as (acts0 & Hres0 & Hrep1 & Hsame1).
  apply entry_method_ok in H2 as (acts1 & Hres1 & Hrep2 & Hsame2).
  apply entry_method_ok in H3 as (acts2 & Hres2 & Hrep3 & _).
  destruct Hsame1 as [Ha1 _], Hsame2 as [Ha2 _].
  assert (acts0 = acts) as -> by (by eapply resolve_inj).
  assert (acts1 = acts) as ->.
  { eapply resolve_inj; [done|]. by eapply resolve_same_actions. }
  assert (acts2 = acts) as ->.
  { eapply resolve_inj; [done|].
    eapply resolve_same_actions; [|done]. congruence. }
  by eapply replay_new_old_new.
Qed.

End redo_after_undo.


(* ================================================================== *)
(** * The cursor stays in range *)

Section cursor.
Implicit Types (w : World).

Lemma HistoryAction_apply_history this dir w r w' :
  HistoryAction_apply this dir w = (r, w') → same_history w w'.
Proof.
  destruct (actions w !! this) as [a|] eqn:Ha.
  - rewrite (HistoryAction_apply_eq _ _ _ _ Ha).
    destruct (call_ApplyFn _ _ _) as [σ'|]; intros [= <- <-];
      [apply emit_all_same_history | apply stop_same_history].
  - unfold HistoryAction_apply, bind, deref. rewrite Ha.
    intros [= <- <-]. apply same_history_refl.
Qed.

Lemma HistoryAction_data_frame this w r w' :
  HistoryAction_data this w = (r, w') → w' = w.
Proof.
  unfold HistoryAction_data, bind, deref, ret.
  by destruct (actions w !! this); intros [= <- <-].
Qed.

Lemma read_entity_number_history action w r w' :
  read_entity_number action w = (r, w') → same_history w w'.
Proof.
  unfold read_entity_number, bind.
  destruct (HistoryAction_data action w) as [[[d|]|] w1] eqn:Hd;
    apply HistoryAction_data_frame in Hd as ->; unfold ret, throw;
    intros [= <- <-]; apply same_history_refl.
Qed.

Lemma map_each_history {A B} (f : A → M B) l :
  (∀ x w r w', f x w = (r, w') → same_history w w') →
  ∀ w r w', map_each f l w = (r, w') → same_history w w'.
Proof.
  intros Hf. induction l as [|x l IH]; intros w r w'; simpl.
  - intros [= <- <-]. apply same_history_refl.
  - unfold bind at 1. destruct (f x w) as [[y|] w1] eqn:Hx.
    + unfold bind at 1. destruct (map_each f l w1) as [[ys|] w2] eqn:Hl;
        intros [= <- <-];
        (eapply same_history_trans; [by eapply Hf | by eapply IH]).
    + intros [= <- <-]. by eapply Hf.
Qed.

Lemma console_log_history kind e ns w r w' :
  console_log kind e ns w = (r, w') → same_history w w'.
Proof.
  destruct (console_log_same_history kind e ns w) as (w1 & -> & _ & Hs).
  by intros [= <- <-].
Qed.

Lemma entry_method_history dir kind e w r w' :
  (let* ns := apply_actions dir (m_Actions e) in console_log kind e ns) w
    = (r, w') →
  same_history w w'.
Proof.
  assert (∀ w1 r1 w1',
            apply_actions dir (m_Actions e) w1 = (r1, w1') →
            same_history w1 w1') as Hloop.
  { intros w1 r1 w1'. apply map_each_history.
    intros x. apply HistoryAction_apply_history. }
  unfold bind.
  destruct (apply_actions dir (m_Actions e) w) as [[ns|] w1] eqn:Hl.
  - intros Hlog. eapply same_history_trans;
      [by eapply Hloop | by eapply console_log_history].
  - intros [= <- <-]. by eapply Hloop.
Qed.

Lemma HistoryEntry_log_history e w r w' :
  HistoryEntry_log e w = (r, w') → same_history w w'.
Proof.
  unfold HistoryEntry_log, bind.
  destruct (map_each read_entity_number (m_Actions e) w)
    as [[ns|] w1] eqn:Hl;
    apply (map_each_history _ _ read_entity_number_history) in Hl.
  - intros Hlog. eapply same_history_trans;
      [done | by eapply console_log_history].
  - by intros [= <- <-].
Qed.

Lemma HistoryEntry_data_frame e w r w' :
  HistoryEntry_data e w = (r, w') → w' = w.
Proof.
  unfold HistoryEntry_data. destruct (last (m_Actions e)).
  - apply HistoryAction_data_frame.
  - by intros [= <- <-].
Qed.

Lemma HistoryAction_emit_history handle f w r w' :
  HistoryAction_emit handle f w = (r, w') →
  s_HistoryIndex w' = s_HistoryIndex w ∧
  s_HistoryEntries w' = s_HistoryEntries w ∧
  s_Transaction w' = s_Transaction w ∧
  heap w' = heap w.
Proof.
  unfold HistoryAction_emit, bind, deref, modify, ret.
  by destruct (actions w !! handle); intros [= <- <-].
Qed.

Lemma chain_emits_history fs : ∀ handle w r w',
  chain_emits handle fs w = (r, w') →
  s_HistoryIndex w' = s_HistoryIndex w ∧
  s_HistoryEntries w' = s_HistoryEntries w ∧
  s_Transaction w' = s_Transaction w ∧
  heap w' = heap w.
Proof.
  induction fs as [|f fs IH]; intros handle w r w'; simpl.
  - by intros [= <- <-].
  - unfold bind at 1.
    destruct (HistoryAction_emit handle f w) as [[h|] w1] eqn:He;
      apply HistoryAction_emit_history in He as (Hi & Hes & Ht & Hh).
    + intros Hrest. apply IH in Hrest as (? & ? & ? & ?).
      repeat split; congruence.
    + by intros [= <- <-].
Qed.

Lemma call_cursor c w r w' :
  cursor_in_range w → call c w = (r, w') → cursor_in_range w'.
Proof.
  unfold cursor_in_range. intros Hrange. rewrite call_eq.
  destruct (read_old (closure_of c) (heap w)) as [old|];
    [|intros [= <- <-]; by rewrite stop_index, stop_entries].
  destruct (s_Transaction w) as [t|] eqn:Ht.
  - rewrite (route_action_open _ t) by done.
    by destruct (call_ApplyFn _ _ _); intros [= <- <-];
      rewrite ?stop_index, ?stop_entries.
  - rewrite route_action_closed by done.
    destruct (call_ApplyFn _ _ _) as [σ'|];
      [|intros [= <- <-]; by rewrite stop_index, stop_entries].
    destruct (data_of c) as [d|]; [|by intros [= <- <-]].
    intros [= <- <-]. simpl. rewrite length_app, length_take. simpl. lia.
Qed.

(** X1.  The invariant of the history store, [0 <= cursor <= length], holds
    when the module is loaded and is kept by every exported operation, also
    when the operation throws. *)
Theorem cursor_in_range_invariant :
  (∀ σ, cursor_in_range (initial σ)) ∧
  (∀ o w r w', cursor_in_range w → run_op o w = (r, w') →
               cursor_in_range w').
Proof.
  split; [intros σ; unfold cursor_in_range; simpl; lia|].
  intros o w r w' Hrange. destruct o as [c fs|h f| | | | |text|]; simpl.
  - unfold perform, bind. simpl.
    destruct (call c w) as [[h|] w1] eqn:Hc; [|intros [= <- <-]];
      apply (call_cursor _ _ _ _ Hrange) in Hc; [|done].
    destruct (chain_emits h fs w1) as [[h'|] w2] eqn:Hch;
      apply chain_emits_history in Hch as (Hi & Hes & _);
      intros [= <- <-]; unfold cursor_in_range in *; congruence.
  - unfold bind.
    destruct (HistoryAction_emit h f w) as [[h'|] w1] eqn:Hem;
      apply HistoryAction_emit_history in Hem as (Hi & Hes & _);
      intros [= <- <-]; unfold cursor_in_range in *; congruence.
  - unfold undo, bind at 1, entry_at.
    destruct (index_before w ≫= _) as [e|] eqn:He; [|by intros [= <- <-]].
    unfold HistoryEntry_undo. unfold bind at 1.
    match goal with |- context [bind ?m ?k w] =>
      destruct (bind m k w) as [[[]|] w1] eqn:Hrun;
        apply entry_method_history in Hrun as (_ & Hi & Hes & _)
    end; unfold modify; intros [= <- <-]; unfold cursor_in_range in *;
      simpl; rewrite ?Hi, Hes; lia.
  - unfold redo, bind at 1, entry_at. simpl.
    destruct (s_HistoryEntries w !! s_HistoryIndex w) as [e|] eqn:He;
      [|by intros [= <- <-]].
    apply lookup_lt_Some in He.
    unfold HistoryEntry_redo. unfold bind at 1.
    match goal with |- context [bind ?m ?k w] =>
      destruct (bind m k w) as [[[]|] w1] eqn:Hrun;
        apply entry_method_history in Hrun as (_ & Hi & Hes & _)
    end; unfold modify; intros [= <- <-]; unfold cursor_in_range in *;
      simpl; rewrite ?Hi, Hes; lia.
  - unfold getUndoPreview, bind at 1, bind at 1, entry_at.
    destruct (index_before w ≫= _) as [e|]; [|by intros [= <- <-]].
    destruct (HistoryEntry_data e w) as [[d|] w1] eqn:Hd;
      apply HistoryEntry_data_frame in Hd as ->; by intros [= <- <-].
  - unfold getRedoPreview, bind at 1, bind at 1, entry_at. simpl.
    destruct (s_HistoryEntries w !! s_HistoryIndex w) as [e|];
      [|by intros [= <- <-]].
    destruct (HistoryEntry_data e w) as [[d|] w1] eqn:Hd;
      apply HistoryEntry_data_frame in Hd as ->; by intros [= <- <-].
  - unfold bind, startTransaction.
    by destruct (s_Transaction w); intros [= <- <-].
  - unfold commitTransaction.
    destruct (s_Transaction w) as [t|]; [|by intros [= <- <-]].
    unfold bind at 1.
    destruct (HistoryEntry_log t w) as [[[]|] w1] eqn:Hlog;
      apply HistoryEntry_log_history in Hlog as (_ & Hi & Hes & _);
      [|intros [= <- <-]; unfold cursor_in_range in *; congruence].
    unfold bind. rewrite s_CommitTransaction_eq. unfold modify.
    intros [= <- <-]. unfold cursor_in_range in *. simpl.
    rewrite length_app, length_take, Hi, Hes. simpl. lia.
Qed.

End cursor.


(* ================================================================== *)
(** * What a mutation call leaves behind *)

Section call_laws.
Implicit Types (w : World) (c : Call) (σ : Store) (f : ApplyFn).

Lemma console_log_eq kind e ns w :
  console_log kind e ns w =
    (Ok tt, match m_Text e with
            | Some text => record_event (Logged kind ns text) w
            | None => w
            end).
Proof. unfold console_log. by destruct (m_Text e). Qed.

(** What a call that returns has done, with or without a transaction
    open. *)
Lemma call_ok w c h w' :
  call c w = (Ok h, w') →
  ∃ old d,
    read_old (closure_of c) (heap w) = Some old ∧
    call_ApplyFn (closure_of c) (newValue_of c) (heap w) = Some (heap w') ∧
    data_of c = Some d ∧
    h = length (actions w) ∧
    actions w' = actions w ++
      [{| m_OldValue := old; m_NewValue := newValue_of c;
          m_Data := data_of c; m_Apply := closure_of c; m_Emits := [] |}] ∧
    trace w' = trace w ++
      match s_Transaction w with
      | Some _ => []
      | None => log_line LogApply c
      end.
Proof.
  rewrite call_eq.
  destruct (read_old (closure_of c) (heap w)) as [old|] eqn:Hold; [|done].
  destruct (s_Transaction w) as [t|] eqn:Ht.
  - rewrite (route_action_open _ t) by done.
    destruct (call_ApplyFn _ _ _) as [σ'|] eqn:Happly; [|done].
    destruct (data_of c) as [d|] eqn:Hd; [|done].
    intros [= <- <-]. exists old, d. simpl. by rewrite app_nil_r.
  - rewrite route_action_closed by done.
    destruct (call_ApplyFn _ _ _) as [σ'|] eqn:Happly; [|done].
    destruct (data_of c) as [d|] eqn:Hd; [|done].
    rewrite console_log_eq. intros [= <- <-]. exists old, d.
    unfold log_line. rewrite Hd. simpl.
    destruct (text_of c); simpl; by rewrite ?app_nil_r.
Qed.

(** X8.  After a mutation call that returned and that was well placed in
    the store it found, the location holds what the call was given: a read
    of it (the one the next call on the same location starts with) returns
    the new value with [exists: true], or [{ value: undefined, exists:
    false }] when the call was a removal. *)
Theorem read_after_call w c h w' :
  placed (closure_of c) (heap w) →
  call c w = (Ok h, w') →
  read_old (closure_of c) (heap w') =
    Some (if exists_ (newValue_of c)
          then {| value := value (newValue_of c); exists_ := true |}
          else {| value := JUndefined; exists_ := false |}).
Proof.
  intros Hpl Hcall.
  destruct (call_ok _ _ _ _ Hcall) as (old & d & Hold & Happly & _).
  by eapply apply_then_read.
Qed.

(** X9.  A removal of a property or key that is not there changes no
    target, yet with no transaction open it is stored as an entry of its
    own: the cursor moves up, and the next [undo()] returns with every
    target as it already was. *)
Theorem removal_of_nothing_is_recorded w c h w' :
  s_Transaction w = None →
  cursor_in_range w →
  exists_ (newValue_of c) = false →
  read_old (closure_of c) (heap w)
    = Some {| value := JUndefined; exists_ := false |} →
  call c w = (Ok h, w') →
  heap w' = heap w ∧
  s_HistoryIndex w' = S (s_HistoryIndex w) ∧
  ∃ w2, undo w' = (Ok tt, w2) ∧ heap w2 = heap w.
Proof.
  intros Hclosed Hrange Hremove Habsent Hcall.
  unfold cursor_in_range in Hrange.
  assert (perform (c, []) w = (Ok tt, w')) as Hc.
  { unfold perform, bind. simpl. by rewrite Hcall. }
  destruct (perform_spec _ _ _ _ Hclosed Hc)
    as (a & old & Hold & Happly & Hacts & Hf & Hov & Hnv & _ & Hd & Hdata
        & Hes & Hi & Ht).
  rewrite <-Hd in Hdata.
  rewrite (apply_absent _ _ _ Habsent Hremove) in Happly.
  injection Happly as Hheap.
  split; [done|]. split; [done|].
  destruct (undo_step w' (s_HistoryIndex w)
              {| m_Text := text_of c; m_Actions := [length (actions w)] |}
              [a] (heap w) Hi) as (w2 & Hundo & Hh2 & _).
  - rewrite Hes, lookup_app_r by (rewrite length_take; lia).
    rewrite length_take.
    by replace (s_HistoryIndex w -
                s_HistoryIndex w `min` length (s_HistoryEntries w))
      with 0 by lia.
  - constructor; [|constructor].
    by rewrite Hacts, lookup_app_r, Nat.sub_diag by lia.
  - by constructor.
  - simpl. rewrite Hf, Hov, <-Hheap.
    rewrite Habsent in Hold. injection Hold as <-.
    by rewrite (apply_absent _ _ _ Habsent).
  - by exists w2.
Qed.

(** X10.  A mutation call that returns with no transaction open puts its
    one-action entry right at the cursor and on top: what was stored
    at or above the cursor is gone, the cursor is the number of entries,
    [canUndo()] holds, [getUndoPreview()] is the metadata of the call, and
    there is nothing to redo: [canRedo()] is false and [redo()] throws. *)
Theorem call_commits_on_top w c h w' :
  s_Transaction w = None →
  cursor_in_range w →
  call c w = (Ok h, w') →
  s_HistoryEntries w' =
    take (s_HistoryIndex w) (s_HistoryEntries w) ++
      [{| m_Text := text_of c; m_Actions := [h] |}] ∧
  s_HistoryIndex w' = length (s_HistoryEntries w') ∧
  canUndo w' = true ∧
  getUndoPreview w' = (Ok (data_of c), w') ∧
  canRedo w' = false ∧
  redo w' = (Throw, w').
Proof.
  intros Hclosed Hrange. unfold cursor_in_range in Hrange.
  rewrite call_eq.
  destruct (read_old (closure_of c) (heap w)) as [old|] eqn:Hold; [|done].
  rewrite route_action_closed by done.
  destruct (call_ApplyFn _ _ _) as [σ'|] eqn:Happly; [|done].
  destruct (data_of c) as [d|] eqn:Hd; [|done].
  rewrite console_log_eq. intros [= <- <-].
  assert (length (take (s_HistoryIndex w) (s_HistoryEntries w))
          = s_HistoryIndex w) as Hlen by (rewrite length_take; lia).
  split; [done|]. split; [simpl; rewrite length_app, Hlen; simpl; lia|].
  split; [by apply bool_decide_eq_true; simpl; lia|]. split; [|split].
  - unfold getUndoPreview, bind, entry_at, index_before. simpl.
    rewrite lookup_app_r, Hlen, Nat.sub_diag by lia. simpl.
    unfold HistoryEntry_data, HistoryAction_data, bind, deref, ret. simpl.
    destruct (text_of c); simpl;
      by rewrite lookup_app_r, Nat.sub_diag by lia.
  - apply bool_decide_eq_false. simpl. rewrite length_app, Hlen. simpl. lia.
  - unfold redo, bind, entry_at. simpl.
    rewrite lookup_ge_None_2; [done|]. rewrite length_app, Hlen. simpl. lia.
Qed.

End call_laws.


(* ================================================================== *)
(** * Undo and redo on any history *)

Section history_moves.
Implicit Types (w : World) (e : HistoryEntry) (acts : list HistoryAction).

Lemma undo_frame w r w' :
  undo w = (r, w') →
  s_HistoryEntries w' = s_HistoryEntries w ∧
  s_Transaction w' = s_Transaction w ∧
  actions w' = actions w ∧
  s_HistoryIndex w' =
    match r with Ok _ => s_HistoryIndex w - 1 | Throw => s_HistoryIndex w end.
Proof.
  unfold undo, bind at 1, entry_at.
  destruct (index_before w ≫= _) as [e|]; [|by intros [= <- <-]].
  unfold HistoryEntry_undo. unfold bind at 1.
  match goal with |- context [bind ?m ?k w] =>
    destruct (bind m k w) as [[[]|] w1] eqn:Hrun;
      apply entry_method_history in Hrun as (Ha & Hi & Hes & Ht)
  end; unfold modify; intros [= <- <-]; simpl; by rewrite ?Hi.
Qed.

Lemma redo_frame w r w' :
  redo w = (r, w') →
  s_HistoryEntries w' = s_HistoryEntries w ∧
  s_Transaction w' = s_Transaction w ∧
  actions w' = actions w ∧
  s_HistoryIndex w' =
    match r with Ok _ => S (s_HistoryIndex w) | Throw => s_HistoryIndex w end.
Proof.
  unfold redo, bind at 1, entry_at. simpl.
  destruct (s_HistoryEntries w !! s_HistoryIndex w) as [e|];
    [|by intros [= <- <-]].
  unfold HistoryEntry_redo. unfold bind at 1.
  match goal with |- context [bind ?m ?k w] =>
    destruct (bind m k w) as [[[]|] w1] eqn:Hrun;
      apply entry_method_history in Hrun as (Ha & Hi & Hes & Ht)
  end; unfold modify; intros [= <- <-]; simpl; by rewrite ?Hi.
Qed.

(** X11.  [undo()] and [redo()] move the cursor and nothing else of the
    history: the entries, the open transaction and the actions stay as they
    are; the cursor moves by exactly one when the call returns and stays
    when it throws. *)
Theorem undo_redo_move_cursor_only w :
  (s_HistoryEntries (undo w).2 = s_HistoryEntries w ∧
   s_Transaction (undo w).2 = s_Transaction w ∧
   actions (undo w).2 = actions w ∧
   s_HistoryIndex (undo w).2 =
     match (undo w).1 with
     | Ok _ => s_HistoryIndex w - 1
     | Throw => s_HistoryIndex w
     end) ∧
  (s_HistoryEntries (redo w).2 = s_HistoryEntries w ∧
   s_Transaction (redo w).2 = s_Transaction w ∧
   actions (redo w).2 = actions w ∧
   s_HistoryIndex (redo w).2 =
     match (redo w).1 with
     | Ok _ => S (s_HistoryIndex w)
     | Throw => s_HistoryIndex w
     end).
Proof.
  split.
  - destruct (undo w) as [r w'] eqn:Hundo. by apply undo_frame in Hundo.
  - destruct (redo w) as [r w'] eqn:Hredo. by apply redo_frame in Hredo.
Qed.

(** An [undo()] that returns has run the entry just below the cursor. *)
Lemma undo_inv w w' :
  undo w = (Ok tt, w') →
  ∃ i e acts,
    s_HistoryIndex w = S i ∧ s_HistoryEntries w !! i = Some e ∧
    resolve w (m_Actions e) acts ∧
    replay Old acts (heap w) = Some (heap w') ∧
    actions w' = actions w ∧ s_HistoryIndex w' = i ∧
    s_HistoryEntries w' = s_HistoryEntries w.
Proof.
  intros Hundo. pose proof (undo_frame _ _ _ Hundo) as (Hes & _ & Ha & Hi).
  revert Hundo. unfold undo, bind at 1, entry_at, index_before.
  destruct (s_HistoryIndex w) as [|i] eqn:Hidx; [done|]. simpl.
  destruct (s_HistoryEntries w !! i) as [e|] eqn:He; [|done].
  unfold HistoryEntry_undo. unfold bind at 1.
  match goal with |- context [bind ?m ?k w] =>
    destruct (bind m k w) as [[[]|] w1] eqn:Hrun; [|done]
  end.
  apply entry_method_ok in Hrun as (acts & Hres & Hrep & _).
  unfold modify. intros [= <-]. simpl in *.
  exists i, e, acts. repeat split; try done. lia.
Qed.

(** A [redo()] that returns has run the entry at the cursor. *)
Lemma redo_inv w w' :
  redo w = (Ok tt, w') →
  ∃ e acts,
    s_HistoryEntries w !! s_HistoryIndex w = Some e ∧
    resolve w (m_Actions e) acts ∧
    replay New acts (heap w) = Some (heap w') ∧
    actions w' = actions w ∧ s_HistoryIndex w' = S (s_HistoryIndex w) ∧
    s_HistoryEntries w' = s_HistoryEntries w.
Proof.
  intros Hredo. pose proof (redo_frame _ _ _ Hredo) as (Hes & _ & Ha & Hi).
  revert Hredo. unfold redo, bind at 1, entry_at. simpl.
  destruct (s_HistoryEntries w !! s_HistoryIndex w) as [e|] eqn:He; [|done].
  unfold HistoryEntry_redo. unfold bind at 1.
  match goal with |- context [bind ?m ?k w] =>
    destruct (bind m k w) as [[[]|] w1] eqn:Hrun; [|done]
  end.
  apply entry_method_ok in Hrun as (acts & Hres & Hrep & _).
  unfold modify. intros [= <-]. simpl in *.
  by exists e, acts.
Qed.

Lemma resolve_last w refs acts :
  resolve w refs acts →
  match last refs with
  | Some r => ∃ a, last acts = Some a ∧ actions w !! r = Some a
  | None => acts = []
  end.
Proof.
  induction 1 as [|r a refs acts Hr Hrest IH]; [done|].
  destruct Hrest as [|r' a' refs' acts' Hr' Hrest']; [simpl; eauto|].
  rewrite !last_cons_cons. by destruct (last (r' :: refs')).
Qed.

(** The preview of an entry whose actions are all there: the metadata of
    the action pushed last, and [undefined] for an entry without actions. *)
Lemma HistoryEntry_data_eq w e acts :
  resolve w (m_Actions e) acts →
  HistoryEntry_data e w = (Ok (last acts ≫= m_Data), w).
Proof.
  intros Hres. apply resolve_last in Hres. unfold HistoryEntry_data.
  destruct (last (m_Actions e)) as [r|].
  - destruct Hres as (a & -> & Hr).
    unfold HistoryAction_data, bind, deref, ret. by rewrite Hr.
  - by subst.
Qed.

(** X12.  After an [undo()] that returned, [canRedo()] holds and
    [getRedoPreview()] returns what [getUndoPreview()] returned before it;
    after a [redo()] that returned, [canUndo()] holds and
    [getUndoPreview()] returns what [getRedoPreview()] returned before. *)
Theorem previews_follow_cursor w w' :
  (undo w = (Ok tt, w') →
   canRedo w' = true ∧
   ∃ d, getUndoPreview w = (Ok d, w) ∧ getRedoPreview w' = (Ok d, w')) ∧
  (redo w = (Ok tt, w') →
   canUndo w' = true ∧
   ∃ d, getRedoPreview w = (Ok d, w) ∧ getUndoPreview w' = (Ok d, w')).
Proof.
  split.
  - intros (i & e & acts & Hidx & He & Hres & _ & Ha & Hi & Hes)%undo_inv.
    split.
    { apply bool_decide_eq_true. rewrite Hi, Hes. by eapply lookup_lt_Some. }
    exists (last acts ≫= m_Data). split.
    + unfold getUndoPreview, bind, entry_at, index_before.
      rewrite Hidx. simpl. rewrite He. by apply HistoryEntry_data_eq.
    + unfold getRedoPreview, bind, entry_at. simpl. rewrite Hi, Hes, He.
      apply HistoryEntry_data_eq. by eapply resolve_same_actions.
  - intros (e & acts & He & Hres & _ & Ha & Hi & Hes)%redo_inv.
    split; [apply bool_decide_eq_true; lia|].
    exists (last acts ≫= m_Data). split.
    + unfold getRedoPreview, bind, entry_at. simpl. rewrite He.
      by apply HistoryEntry_data_eq.
    + unfold getUndoPreview, bind, entry_at, index_before.
      rewrite Hi. simpl. rewrite Hes, He.
      apply HistoryEntry_data_eq. by eapply resolve_same_actions.
Qed.

End history_moves.


(* ================================================================== *)
(** * Undoing and redoing a run of calls *)

Section long_runs.
Implicit Types (w : World) (e : HistoryEntry) (acts : list HistoryAction).
Implicit Types (es base rest : list HistoryEntry).

(** Old values written back last action first undo a run of well placed
    actions. *)
Lemma recorded_unapply_reverse acts : ∀ σ σn,
  placed_along acts σ →
  recorded acts σ σn → replay Old (reverse acts) σn = Some σ.
Proof.
  induction acts as [|a acts IH]; intros σ σn; simpl.
  - by intros _ ->.
  - intros [Hpl Hrest'] (Hold & σ1 & Hnew & Hrest).
    rewrite Hnew in Hrest'.
    rewrite reverse_cons, replay_app, (IH _ _ Hrest' Hrest). simpl.
    by rewrite (apply_then_unapply _ _ _ _ _ Hpl Hold Hnew).
Qed.

(** New values applied first action first do a run of actions again. *)
Lemma recorded_replay acts : ∀ σ σn,
  recorded acts σ σn → replay New acts σ = Some σn.
Proof.
  induction acts as [|a acts IH]; intros σ σn; simpl.
  - by intros ->.
  - intros (_ & σ1 & -> & Hrest). simpl. by apply IH.
Qed.

(** As many [undo()] as there are entries [es] just below the cursor. *)
Lemma undo_times_run es : ∀ w base rest actss σ,
  s_HistoryEntries w = base ++ es ++ rest →
  s_HistoryIndex w = length base + length es →
  Forall2 (λ e acts, resolve w (m_Actions e) acts ∧
                     Forall (λ a, is_Some (m_Data a)) acts) es actss →
  replay Old (concat (reverse actss)) (heap w) = Some σ →
  ∃ w', undo_times (length es) w = (Ok tt, w') ∧
        heap w' = σ ∧ actions w' = actions w ∧
        s_HistoryIndex w' = length base ∧
        s_HistoryEntries w' = s_HistoryEntries w ∧
        s_Transaction w' = s_Transaction w.
Proof.
  induction es as [|e es IH] using rev_ind;
    intros w base rest actss σ Hes Hidx Hall Hrep.
  - apply Forall2_nil_inv_l in Hall as ->. simpl in *. simplify_eq.
    exists w. repeat split. lia.
  - apply Forall2_app_inv_l in Hall
      as (actss' & last_acts & Hall' & Hlast & ->).
    apply Forall2_cons_inv_l in Hlast as (acts & tl & [Hres Hdata] & Htl & ->).
    apply Forall2_nil_inv_l in Htl as ->.
    rewrite reverse_snoc in Hrep. simpl in Hrep. rewrite replay_app in Hrep.
    destruct (replay Old acts (heap w)) as [σ1|] eqn:Hrep1; [|done].
    simpl in Hrep. rewrite length_app in Hidx |- *. simpl in Hidx |- *.
    destruct (undo_step w (length base + length es) e acts σ1)
      as (w1 & Hundo & Hh1 & Ha1 & Hi1 & Hes1 & Ht1); [lia | | done..|].
    { rewrite Hes, lookup_app_r by lia.
      rewrite <-app_assoc, lookup_app_r by lia.
      by replace (length base + length es - length base - length es)
        with 0 by lia. }
    destruct (IH w1 base ([e] ++ rest) actss' σ)
      as (w' & Hundos & Hh & Ha & Hi & Hes' & Ht).
    + by rewrite Hes1, Hes, <-app_assoc.
    + done.
    + eapply Forall2_impl; [exact Hall'|]. intros e' acts' [Hr Hd].
      split; [|done]. by eapply resolve_same_actions.
    + by rewrite Hh1.
    + exists w'. rewrite Nat.add_1_r. simpl. unfold bind. rewrite Hundo.
      split; [done|]. repeat split; congruence.
Qed.

(** As many [redo()] as there are entries [es] from the cursor on. *)
Lemma redo_times_run es : ∀ w base rest actss σ,
  s_HistoryEntries w = base ++ es ++ rest →
  s_HistoryIndex w = length base →
  Forall2 (λ e acts, resolve w (m_Actions e) acts ∧
                     Forall (λ a, is_Some (m_Data a)) acts) es actss →
  replay New (concat actss) (heap w) = Some σ →
  ∃ w', redo_times (length es) w = (Ok tt, w') ∧
        heap w' = σ ∧ actions w' = actions w ∧
        s_HistoryIndex w' = length base + length es ∧
        s_HistoryEntries w' = s_HistoryEntries w ∧
        s_Transaction w' = s_Transaction w.
Proof.
  induction es as [|e es IH]; intros w base rest actss σ Hes Hidx Hall Hrep.
  - apply Forall2_nil_inv_l in Hall as ->. simpl in *. simplify_eq.
    exists w. repeat split. lia.
  - apply Forall2_cons_inv_l in Hall
      as (acts & actss' & [Hres Hdata] & Hall' & ->).
    simpl in Hrep. rewrite replay_app in Hrep.
    destruct (replay New acts (heap w)) as [σ1|] eqn:Hrep1; [|done].
    simpl in Hrep.
    destruct (redo_step w e acts σ1)
      as (w1 & Hredo & Hh1 & Ha1 & Hi1 & Hes1 & Ht1); [|done..|].
    { rewrite Hes, Hidx, lookup_app_r by lia.
      by rewrite Nat.sub_diag. }
    destruct (IH w1 (base ++ [e]) rest actss' σ)
      as (w' & Hredos & Hh & Ha & Hi & Hes' & Ht).
    + by rewrite Hes1, Hes, <-app_assoc.
    + rewrite Hi1, Hidx, length_app. simpl. lia.
    + eapply Forall2_impl; [exact Hall'|]. intros e' acts' [Hr Hd].
      split; [|done]. by eapply resolve_same_actions.
    + by rewrite Hh1.
    + exists w'. simpl. unfold bind. rewrite Hredo.
      split; [done|]. rewrite length_app in Hi. simpl in Hi.
      repeat split; try congruence. lia.
Qed.

(** What a run of calls that all returned, made with no transaction open,
    has left below the cursor. *)
Lemma steps_closed_spec steps : ∀ w wn,
  s_Transaction w = None →
  cursor_in_range w →
  for_each perform steps w = (Ok tt, wn) →
  ∃ es acts,
    take (s_HistoryIndex wn) (s_HistoryEntries wn) =
      take (s_HistoryIndex w) (s_HistoryEntries w) ++ es ∧
    s_HistoryIndex wn = s_HistoryIndex w + length es ∧
    length es = length steps ∧
    Forall2 (λ e a, resolve wn (m_Actions e) [a] ∧ is_Some (m_Data a))
      es acts ∧
    recorded acts (heap w) (heap wn) ∧
    s_Transaction wn = None ∧
    actions w `prefix_of` actions wn ∧
    (well_placed steps w → placed_along acts (heap w)).
Proof.
  induction steps as [|[c fs] steps IH]; intros w wn Hclosed Hrange Hrun.
  - simpl in Hrun. unfold ret in Hrun. simplify_eq.
    exists [], []. rewrite app_nil_r. simpl. by repeat split.
  - simpl in Hrun. unfold bind in Hrun.
    destruct (perform (c, fs) w) as [[[]|] wc] eqn:Hc; [|done].
    destruct (perform_spec _ _ _ _ Hclosed Hc)
      as (a & old & Hold & Happly & Hacts & Hf & Hov & Hnv & _ & Hd & Hdata
          & Hes & Hi & Ht).
    unfold cursor_in_range in Hrange.
    assert (length (take (s_HistoryIndex w) (s_HistoryEntries w))
            = s_HistoryIndex w) as Hlen by (rewrite length_take; lia).
    destruct (IH wc wn) as (es & acts & Htake & Hidx & Hn & Hall & Hrec
                            & Htn & Hpre & Hpl); [done | | done |].
    { unfold cursor_in_range. rewrite Hes, Hi, length_app, Hlen. simpl. lia. }
    exists ({| m_Text := text_of c; m_Actions := [length (actions w)] |} :: es),
           (a :: acts).
    split; [|split; [|split; [|split; [|split; [|split; [|split]]]]]].
    + rewrite Htake, Hes, Hi, take_ge, <-app_assoc; [done|].
      rewrite length_app, Hlen. simpl. lia.
    + rewrite Hidx, Hi. simpl. lia.
    + simpl. by rewrite Hn.
    + constructor; [|done]. split; [|by rewrite Hd].
      constructor; [|constructor]. eapply prefix_lookup_Some; [|done].
      by rewrite Hacts, lookup_app_r, Nat.sub_diag by lia.
    + simpl. rewrite Hf, Hov, Hnv. eauto.
    + done.
    + etrans; [|done]. rewrite Hacts. by apply prefix_app_r.
    + simpl. rewrite Hc. simpl. intros [Hp Hps].
      rewrite Hf, Hnv, Happly. split; [done|]. by apply Hpl.
Qed.

Lemma concat_singletons {A} (l : list A) : concat (map (λ x, [x]) l) = l.
Proof. induction l as [|x l IH]; simpl; by rewrite ?IH. Qed.

(** X13.  After any run of mutation calls made with no transaction open,
    each of which returned and was well placed in the store it found, as
    many [undo()] bring the targets back to where they were before the
    run, and as many [redo()] after that bring
    them, the cursor and the entries to where the run had left them. *)
Theorem undo_redo_round_trip steps w w1 :
  s_Transaction w = None →
  cursor_in_range w →
  well_placed steps w →
  for_each perform steps w = (Ok tt, w1) →
  ∃ w2 w3,
    undo_times (length steps) w1 = (Ok tt, w2) ∧ heap w2 = heap w ∧
    redo_times (length steps) w2 = (Ok tt, w3) ∧ heap w3 = heap w1 ∧
    s_HistoryIndex w3 = s_HistoryIndex w1 ∧
    s_HistoryEntries w3 = s_HistoryEntries w1.
Proof.
  intros Hclosed Hrange Hplaced Hrun.
  destruct (steps_closed_spec _ _ _ Hclosed Hrange Hrun)
    as (es & acts & Htake & Hidx & Hn & Hall & Hrec & _ & _ & Hpl).
  specialize (Hpl Hplaced).
  unfold cursor_in_range in Hrange.
  assert (length (take (s_HistoryIndex w) (s_HistoryEntries w))
          = s_HistoryIndex w) as Hlen by (rewrite length_take; lia).
  assert (s_HistoryEntries w1 =
          take (s_HistoryIndex w) (s_HistoryEntries w) ++ es ++
            drop (s_HistoryIndex w1) (s_HistoryEntries w1)) as Hes.
  { by rewrite app_assoc, <-Htake, take_drop. }
  assert (Forall2 (λ e acts', resolve w1 (m_Actions e) acts' ∧
                              Forall (λ a, is_Some (m_Data a)) acts')
            es (map (λ a, [a]) acts)) as Hall1.
  { apply Forall2_fmap_r. eapply Forall2_impl; [exact Hall|].
    intros e a [Hr Hd]. split; [done | by constructor]. }
  rewrite <-Hn.
  destruct (undo_times_run es w1 _ _ (map (λ a, [a]) acts) (heap w) Hes)
    as (w2 & Hundos & Hh2 & Ha2 & Hi2 & Hes2 & _); [lia | done | |].
  { rewrite <-fmap_reverse, concat_singletons.
    by apply recorded_unapply_reverse. }
  destruct (redo_times_run es w2 (take (s_HistoryIndex w) (s_HistoryEntries w))
              (drop (s_HistoryIndex w1) (s_HistoryEntries w1))
              (map (λ a, [a]) acts) (heap w1))
    as (w3 & Hredos & Hh3 & _ & Hi3 & Hes3 & _).
  - by rewrite Hes2.
  - done.
  - eapply Forall2_impl; [exact Hall1|]. intros e acts' [Hr Hd].
    split; [|done]. by eapply resolve_same_actions.
  - rewrite concat_singletons, Hh2. by apply recorded_replay.
  - exists w2, w3. repeat split; try done; [lia | congruence].
Qed.

(** X14.  A transaction committed without a call in between is stored all
    the same, as an entry without actions: the cursor moves up, the preview
    of it is [undefined], and undoing it returns and changes no target. *)
Theorem empty_transaction_is_stored text w :
  s_Transaction w = None →
  cursor_in_range w →
  ∃ w1 w2,
    transaction text [] w = (Ok tt, w1) ∧
    s_HistoryEntries w1 =
      take (s_HistoryIndex w) (s_HistoryEntries w) ++
        [new_HistoryEntry text] ∧
    s_HistoryIndex w1 = S (s_HistoryIndex w) ∧
    s_Transaction w1 = None ∧
    heap w1 = heap w ∧
    getUndoPreview w1 = (Ok None, w1) ∧
    undo w1 = (Ok tt, w2) ∧ heap w2 = heap w.
Proof.
  intros Hclosed Hrange. unfold cursor_in_range in Hrange.
  assert (length (take (s_HistoryIndex w) (s_HistoryEntries w))
          = s_HistoryIndex w) as Hlen by (rewrite length_take; lia).
  assert (∃ w1, transaction text [] w = (Ok tt, w1) ∧
                s_HistoryEntries w1 =
                  take (s_HistoryIndex w) (s_HistoryEntries w) ++
                    [new_HistoryEntry text] ∧
                s_HistoryIndex w1 = S (s_HistoryIndex w) ∧
                s_Transaction w1 = None ∧ heap w1 = heap w)
    as (w1 & Hrun & Hes & Hi & Ht & Hh).
  { unfold transaction, bind at 1, startTransaction. rewrite Hclosed.
    unfold bind at 1. simpl. unfold commitTransaction. simpl.
    unfold bind at 1, HistoryEntry_log. simpl. unfold bind at 1, ret.
    rewrite console_log_eq. unfold bind. rewrite s_CommitTransaction_eq.
    unfold modify. eexists. split; [done|]. simpl.
    by destruct text. }
  assert (s_HistoryEntries w1 !! s_HistoryIndex w
          = Some (new_HistoryEntry text)) as Hlook.
  { by rewrite Hes, lookup_app_r, Hlen, Nat.sub_diag by lia. }
  destruct (undo_step w1 (s_HistoryIndex w) (new_HistoryEntry text) []
              (heap w1) Hi Hlook) as (w2 & Hundo & Hh2 & _);
    [constructor | constructor | done |].
  exists w1, w2. repeat split; try done; [|congruence].
  unfold getUndoPreview, bind, entry_at, index_before. rewrite Hi. simpl.
  by rewrite Hlook.
Qed.

End long_runs.


(* ================================================================== *)
(** * A transaction that cannot be committed *)

Section stuck_transaction.
Implicit Types (w : World) (t : HistoryEntry) (c : Call).

Lemma read_entity_number_frame r w res w' :
  read_entity_number r w = (res, w') → w' = w.
Proof.
  unfold read_entity_number, bind.
  destruct (HistoryAction_data r w) as [[[d|]|] w1] eqn:Hd;
    apply HistoryAction_data_frame in Hd as ->; unfold ret, throw;
    by intros [= <- <-].
Qed.

Lemma read_entity_number_lacks r w :
  lacks_metadata w r → read_entity_number r w = (Throw, w).
Proof.
  intros (a & Hr & Hd).
  unfold read_entity_number, HistoryAction_data, bind, deref.
  rewrite Hr. unfold ret. by rewrite Hd.
Qed.

(** The loop of [log] stops at the first action without metadata, and it
    has changed nothing by then. *)
Lemma read_entity_numbers_throw refs w :
  Exists (lacks_metadata w) refs →
  map_each read_entity_number refs w = (Throw, w).
Proof.
  induction refs as [|r refs IH]; intros Hex.
  - by apply Exists_nil in Hex.
  - simpl. unfold bind at 1.
    destruct (read_entity_number r w) as [[n|] w1] eqn:Hr;
      pose proof (read_entity_number_frame _ _ _ _ Hr) as ->; [|done].
    apply Exists_cons in Hex as [Hhead|Htail].
    + rewrite (read_entity_number_lacks _ _ Hhead) in Hr. done.
    + unfold bind. by rewrite (IH Htail).
Qed.

Lemma commitTransaction_stuck w :
  stuck w → commitTransaction w = (Throw, w).
Proof.
  intros (t & Ht & Hex). unfold commitTransaction. rewrite Ht.
  unfold bind at 1, HistoryEntry_log, bind at 1.
  by rewrite (read_entity_numbers_throw _ _ Hex).
Qed.

(** Worlds between which the open transaction has only grown and the
    actions have kept their metadata. *)
Lemma stuck_mono w w' t t' :
  s_Transaction w = Some t → s_Transaction w' = Some t' →
  m_Actions t `prefix_of` m_Actions t' →
  (∀ r a, actions w !! r = Some a →
          ∃ a', actions w' !! r = Some a' ∧ m_Data a' = m_Data a) →
  Exists (lacks_metadata w) (m_Actions t) → stuck w'.
Proof.
  intros Ht Ht' [more Hmore] Hkeep Hex. exists t'. split; [done|].
  rewrite Hmore. apply Exists_app. left.
  eapply Exists_impl; [exact Hex|].
  intros r (a & Hr & Hd). destruct (Hkeep _ _ Hr) as (a' & Hr' & Hd').
  exists a'. split; [done | congruence].
Qed.

Lemma HistoryAction_emit_keeps handle f w res w' :
  HistoryAction_emit handle f w = (res, w') →
  ∀ r a, actions w !! r = Some a →
         ∃ a', actions w' !! r = Some a' ∧ m_Data a' = m_Data a.
Proof.
  unfold HistoryAction_emit, bind, deref, modify, ret.
  destruct (actions w !! handle) as [b|] eqn:Hb; intros [= <- <-]; [|eauto].
  intros r a Hr. simpl.
  destruct (decide (r = handle)) as [->|Hne].
  - rewrite list_lookup_insert_eq by (by eapply lookup_lt_Some).
    simplify_eq. eauto.
  - rewrite list_lookup_insert_ne by done. eauto.
Qed.

Lemma chain_emits_keeps fs : ∀ handle w res w',
  chain_emits handle fs w = (res, w') →
  ∀ r a, actions w !! r = Some a →
         ∃ a', actions w' !! r = Some a' ∧ m_Data a' = m_Data a.
Proof.
  induction fs as [|f fs IH]; intros handle w res w'; simpl.
  - intros [= <- <-]. eauto.
  - unfold bind at 1.
    destruct (HistoryAction_emit handle f w) as [[h|] w1] eqn:He.
    + intros Hrest r a Hr.
      destruct (HistoryAction_emit_keeps _ _ _ _ _ He _ _ Hr)
        as (a1 & Hr1 & Hd1).
      destruct (IH _ _ _ _ Hrest _ _ Hr1) as (a' & Hr' & Hd').
      exists a'. split; [done | congruence].
    + intros [= <- <-]. by eapply HistoryAction_emit_keeps.
Qed.

(** A call made with a transaction open, whatever its outcome. *)
Lemma call_open_frame w t c res w' :
  s_Transaction w = Some t →
  call c w = (res, w') →
  s_HistoryEntries w' = s_HistoryEntries w ∧
  (∃ t', s_Transaction w' = Some t' ∧
         m_Actions t `prefix_of` m_Actions t') ∧
  (∀ r a, actions w !! r = Some a →
          ∃ a', actions w' !! r = Some a' ∧ m_Data a' = m_Data a).
Proof.
  intros Hopen. rewrite call_eq.
  destruct (read_old (closure_of c) (heap w)) as [old|].
  - rewrite (route_action_open _ t) by done.
    assert (∀ w'' res0,
      s_HistoryEntries w'' = s_HistoryEntries w →
      s_Transaction w'' = Some (HistoryEntry_push t (length (actions w))) →
      actions w'' = actions w ++
        [{| m_OldValue := old; m_NewValue := newValue_of c;
            m_Data := data_of c; m_Apply := closure_of c;
            m_Emits := [] |}] →
      (res0, w'') = (res, w') →
      s_HistoryEntries w' = s_HistoryEntries w ∧
      (∃ t', s_Transaction w' = Some t' ∧
             m_Actions t `prefix_of` m_Actions t') ∧
      (∀ r a, actions w !! r = Some a →
              ∃ a', actions w' !! r = Some a' ∧ m_Data a' = m_Data a))
      as Hshape.
    { intros w'' res0 He Ht' Ha [= <- <-]. rewrite He, Ht', Ha.
      split; [done|]. split.
      - eexists. split; [done|]. by apply prefix_app_r.
      - intros r a Hr. exists a. split; [|done].
        by apply lookup_app_l_Some. }
    destruct (call_ApplyFn _ _ _) as [σ'|]; apply Hshape; simpl;
      by rewrite ?stop_entries, ?stop_transaction, ?stop_actions.
  - intros [= <- <-]. rewrite stop_entries, stop_transaction, stop_actions.
    split; [done|]. split; [|eauto]. by exists t.
Qed.

Lemma preview_frame w :
  (getUndoPreview w).2 = w ∧ (getRedoPreview w).2 = w.
Proof.
  split.
  - unfold getUndoPreview, bind, entry_at.
    destruct (index_before w ≫= _) as [e|]; [|done].
    destruct (HistoryEntry_data e w) as [r w1] eqn:Hd.
    apply HistoryEntry_data_frame in Hd as ->. by destruct r.
  - unfold getRedoPreview, bind, entry_at. simpl.
    destruct (s_HistoryEntries w !! s_HistoryIndex w) as [e|]; [|done].
    destruct (HistoryEntry_data e w) as [r w1] eqn:Hd.
    apply HistoryEntry_data_frame in Hd as ->. by destruct r.
Qed.

Lemma run_op_stuck o w res w' :
  stuck w → run_op o w = (res, w') →
  stuck w' ∧ s_HistoryEntries w' = s_HistoryEntries w.
Proof.
  intros Hstuck. pose proof Hstuck as (t & Ht & Hex).
  destruct o as [c fs|h f| | | | |text|]; simpl.
  - unfold perform, bind. simpl.
    destruct (call c w) as [[h|] w1] eqn:Hc;
      destruct (call_open_frame _ _ _ _ _ Ht Hc)
        as (Hes & (t1 & Ht1 & Hpre) & Hkeep).
    + destruct (chain_emits h fs w1) as [[h'|] w2] eqn:Hch;
        pose proof (chain_emits_keeps _ _ _ _ _ Hch) as Hkeep2;
        apply chain_emits_history in Hch as (_ & Hes2 & Ht2 & _);
        intros [= <- <-]; (split; [|congruence]);
        (eapply (stuck_mono w _ t t1); [done | congruence | done | | done]);
        intros r a Hr; destruct (Hkeep _ _ Hr) as (a1 & Hr1 & Hd1);
        destruct (Hkeep2 _ _ Hr1) as (a2 & Hr2 & Hd2);
        exists a2; (split; [done | congruence]).
    + intros [= <- <-]. split; [|done]. by eapply (stuck_mono w _ t t1).
  - unfold bind.
    destruct (HistoryAction_emit h f w) as [[h'|] w1] eqn:Hem;
      pose proof (HistoryAction_emit_keeps _ _ _ _ _ Hem) as Hkeep;
      apply HistoryAction_emit_history in Hem as (_ & Hes & Ht1 & _);
      intros [= <- <-]; (split; [|done]);
      (eapply (stuck_mono w _ t t); [done | congruence | done | done | done]).
  - intros (Hes & Ht1 & Ha & _)%undo_frame. split; [|done].
    eapply (stuck_mono w _ t t); [done | congruence | done | | done].
    intros r a Hr. exists a. by rewrite Ha.
  - intros (Hes & Ht1 & Ha & _)%redo_frame. split; [|done].
    eapply (stuck_mono w _ t t); [done | congruence | done | | done].
    intros r a Hr. exists a. by rewrite Ha.
  - unfold bind. pose proof (proj1 (preview_frame w)) as Hw.
    destruct (getUndoPreview w) as [[d|] w1]; simpl in Hw; subst w1;
      by intros [= <- <-].
  - unfold bind. pose proof (proj2 (preview_frame w)) as Hw.
    destruct (getRedoPreview w) as [[d|] w1]; simpl in Hw; subst w1;
      by intros [= <- <-].
  - unfold bind, startTransaction. rewrite Ht. by intros [= <- <-].
  - rewrite (commitTransaction_stuck _ Hstuck). by intros [= <- <-].
Qed.

(** X15.  A call without metadata made inside a transaction leaves a
    transaction that cannot be closed: [commitTransaction()] throws at the
    metadata of that action before it has changed anything,
    [startTransaction] answers [false], and this stays so through every
    exported operation; none of them stores an entry any more. *)
Theorem transaction_stuck_without_metadata :
  (∀ w t c old,
     s_Transaction w = Some t → data_of c = None →
     read_old (closure_of c) (heap w) = Some old →
     stuck (call c w).2) ∧
  (∀ w, stuck w →
        commitTransaction w = (Throw, w) ∧
        ∀ text, startTransaction text w = (Ok false, w)) ∧
  (∀ o w res w',
     stuck w → run_op o w = (res, w') →
     stuck w' ∧ s_HistoryEntries w' = s_HistoryEntries w).
Proof.
  split; [|split].
  - intros w t c old Hopen Hd Hold. rewrite call_eq, Hold.
    rewrite (route_action_open _ t) by done.
    assert (∀ w0,
      s_Transaction w0 = Some (HistoryEntry_push t (length (actions w))) →
      actions w0 = actions w ++
        [{| m_OldValue := old; m_NewValue := newValue_of c;
            m_Data := data_of c; m_Apply := closure_of c; m_Emits := [] |}] →
      stuck w0) as Hstuck.
    { intros w0 Ht0 Ha0. eexists. split; [done|]. simpl.
      apply Exists_app. right. constructor. eexists.
      rewrite Ha0, lookup_app_r, Nat.sub_diag by lia. done. }
    destruct (call_ApplyFn _ _ _) as [σ'|]; apply Hstuck; simpl;
      by rewrite ?stop_transaction, ?stop_actions.
  - intros w Hstuck. split; [by apply commitTransaction_stuck|].
    intros text. destruct Hstuck as (t & Ht & _).
    unfold startTransaction. by rewrite Ht.
  - apply run_op_stuck.
Qed.

End stuck_transaction.


(* ================================================================== *)
(** * Callbacks and log lines of the exported operations *)

Section callbacks_and_log.
Implicit Types (w : World) (e t : HistoryEntry) (c : Call) (fs : list nat).

Lemma chain_emits_trace fs : ∀ handle w res w',
  chain_emits handle fs w = (res, w') → trace w' = trace w.
Proof.
  induction fs as [|f fs IH]; intros handle w res w'; simpl.
  - by intros [= <- <-].
  - unfold bind at 1, HistoryAction_emit, bind, deref, modify, ret.
    destruct (actions w !! handle) as [a|]; [|by intros [= <- <-]].
    intros Hrest. by apply IH in Hrest.
Qed.

Lemma perform_trace w c fs wc :
  s_Transaction w = None →
  perform (c, fs) w = (Ok tt, wc) →
  trace wc = trace w ++ log_line LogApply c.
Proof.
  intros Hclosed. unfold perform, bind. simpl.
  destruct (call c w) as [[h|] w1] eqn:Hc; [|done].
  destruct (call_ok _ _ _ _ Hc) as (old & d & _ & _ & _ & _ & _ & Htr).
  rewrite Hclosed in Htr.
  destruct (chain_emits h fs w1) as [[h'|] w2] eqn:Hch; [|done].
  apply chain_emits_trace in Hch. intros [= <-]. congruence.
Qed.

(** An entry method on an entry of one action. *)
Lemma single_action_run dir kind e r a d w σ :
  m_Actions e = [r] →
  actions w !! r = Some a →
  m_Data a = Some d →
  call_ApplyFn (m_Apply a) (select_value dir a) (heap w) = Some σ →
  (let* ns := apply_actions dir (m_Actions e) in console_log kind e ns) w =
    (Ok tt,
     match m_Text e with
     | Some text =>
         record_event (Logged kind [entity_number d] text)
           (emit_all (m_Emits a) (set_heap σ w))
     | None => emit_all (m_Emits a) (set_heap σ w)
     end).
Proof.
  intros Hone Hr Hd Happly. rewrite Hone. unfold apply_actions. simpl.
  unfold bind. rewrite (HistoryAction_apply_eq _ _ _ _ Hr), Happly, Hd.
  unfold ret. by rewrite console_log_eq.
Qed.

Lemma undo_single w i e r a d σ :
  s_HistoryIndex w = S i →
  s_HistoryEntries w !! i = Some e →
  m_Actions e = [r] →
  actions w !! r = Some a →
  m_Data a = Some d →
  call_ApplyFn (m_Apply a) (m_OldValue a) (heap w) = Some σ →
  ∃ w', undo w = (Ok tt, w') ∧
        heap w' = σ ∧ actions w' = actions w ∧
        s_HistoryIndex w' = i ∧
        s_HistoryEntries w' = s_HistoryEntries w ∧
        trace w' = trace w ++ map (λ f, Emitted f σ) (m_Emits a) ++
          match m_Text e with
          | Some text => [Logged LogUndo [entity_number d] text]
          | None => []
          end.
Proof.
  intros Hidx He Hone Hr Hd Happly.
  unfold undo, bind at 1, entry_at, index_before. rewrite Hidx. simpl.
  rewrite He. unfold HistoryEntry_undo. unfold bind at 1.
  rewrite (single_action_run Old LogUndo e r a d w σ) by done.
  unfold modify. eexists. split; [done|].
  destruct (emit_all_frame (m_Emits a) (set_heap σ w))
    as (Hh & Ha & Hi & Hes & _ & Htr). simpl in *.
  destruct (m_Text e); simpl; rewrite ?Hh, ?Ha, ?Hi, ?Hes, ?Htr, ?Hidx;
    rewrite ?app_nil_r, <-?app_assoc; repeat split; lia.
Qed.

Lemma redo_single w e r a d σ :
  s_HistoryEntries w !! s_HistoryIndex w = Some e →
  m_Actions e = [r] →
  actions w !! r = Some a →
  m_Data a = Some d →
  call_ApplyFn (m_Apply a) (m_NewValue a) (heap w) = Some σ →
  ∃ w', redo w = (Ok tt, w') ∧
        heap w' = σ ∧
        trace w' = trace w ++ map (λ f, Emitted f σ) (m_Emits a) ++
          match m_Text e with
          | Some text => [Logged LogRedo [entity_number d] text]
          | None => []
          end.
Proof.
  intros He Hone Hr Hd Happly.
  unfold redo, bind at 1, entry_at. simpl.
  rewrite He. unfold HistoryEntry_redo. unfold bind at 1.
  rewrite (single_action_run New LogRedo e r a d w σ) by done.
  unfold modify. eexists. split; [done|].
  destruct (emit_all_frame (m_Emits a) (set_heap σ w))
    as (Hh & _ & _ & _ & _ & Htr). simpl in *.
  destruct (m_Text e); simpl; rewrite ?Hh, ?Htr;
    by rewrite ?app_nil_r, <-?app_assoc.
Qed.

(** X16.  Callbacks chained onto the handle of a mutation call do not run
    for the call itself, which prints at most its log line.  When the call
    was well placed in the store it found, they run at the [undo()] and at
    the [redo()] that follow: each once, in the order
    of registration, seeing the targets as that [undo()] or [redo()] left
    them, and before its log line. *)
Theorem chained_emits_wait_for_undo w c fs wc :
  s_Transaction w = None →
  cursor_in_range w →
  placed (closure_of c) (heap w) →
  perform (c, fs) w = (Ok tt, wc) →
  trace wc = trace w ++ log_line LogApply c ∧
  ∃ w2 w3,
    undo wc = (Ok tt, w2) ∧
    trace w2 = trace wc ++ map (λ f, Emitted f (heap w)) fs ++
                 log_line LogUndo c ∧
    redo w2 = (Ok tt, w3) ∧
    trace w3 = trace w2 ++ map (λ f, Emitted f (heap wc)) fs ++
                 log_line LogRedo c.
Proof.
  intros Hclosed Hrange Hpl Hc. unfold cursor_in_range in Hrange.
  split; [exact (perform_trace _ _ _ _ Hclosed Hc)|].
  destruct (perform_spec _ _ _ _ Hclosed Hc)
    as (a & old & Hold & Happly & Hacts & Hf & Hov & Hnv & Hfs & Hd & [d Hdata]
        & Hes & Hi & Ht).
  assert (length (take (s_HistoryIndex w) (s_HistoryEntries w))
          = s_HistoryIndex w) as Hlen by (rewrite length_take; lia).
  assert (s_HistoryEntries wc !! s_HistoryIndex w =
          Some {| m_Text := text_of c;
                  m_Actions := [length (actions w)] |}) as Hlook.
  { by rewrite Hes, lookup_app_r, Hlen, Nat.sub_diag by lia. }
  assert (actions wc !! length (actions w) = Some a) as Hr.
  { by rewrite Hacts, lookup_app_r, Nat.sub_diag by lia. }
  assert (m_Data a = Some d) as Hda by congruence.
  destruct (undo_single wc (s_HistoryIndex w) _ _ a d (heap w) Hi Hlook
              eq_refl Hr Hda)
    as (w2 & Hundo & Hh2 & Ha2 & Hi2 & Hes2 & Htr2).
  { rewrite Hf, Hov.
    by apply (apply_then_unapply _ _ _ _ _ Hpl Hold Happly). }
  destruct (redo_single w2 {| m_Text := text_of c;
                              m_Actions := [length (actions w)] |}
              (length (actions w)) a d (heap wc))
    as (w3 & Hredo & _ & Htr3); [| done | | done | |].
  { by rewrite Hi2, Hes2. }
  { by rewrite Ha2. }
  { by rewrite Hh2, Hf, Hnv. }
  exists w2, w3. unfold log_line. rewrite Hdata. simpl in *.
  rewrite Hfs in Htr2, Htr3. done.
Qed.

(** A loop over the actions that returns: the callback events in the order
    of the actions, and the entity numbers in that order. *)
Lemma apply_actions_trace dir refs : ∀ w ns w',
  apply_actions dir refs w = (Ok ns, w') →
  ∃ acts ds,
    resolve w refs acts ∧ map m_Data acts = map Some ds ∧
    ns = map entity_number ds ∧
    trace w' = trace w ++ emitted_along dir acts (heap w).
Proof.
  induction refs as [|r refs IH]; intros w ns w' Hrun.
  - unfold apply_actions in Hrun. simpl in Hrun. unfold ret in Hrun.
    simplify_eq. exists [], []. simpl. rewrite app_nil_r.
    split; [constructor | done].
  - unfold apply_actions in Hrun. simpl in Hrun. unfold bind at 1 in Hrun.
    destruct (actions w !! r) as [a|] eqn:Hr; last first.
    { unfold HistoryAction_apply, bind, deref in Hrun. by rewrite Hr in Hrun. }
    rewrite (HistoryAction_apply_eq _ _ _ _ Hr) in Hrun.
    destruct (call_ApplyFn _ _ _) as [σ1|] eqn:Happly; [|done].
    destruct (m_Data a) as [d|] eqn:Hd; [|done].
    unfold bind at 1 in Hrun.
    destruct (map_each _ refs _) as [[ns'|] w1] eqn:Hrest; [|done].
    unfold ret in Hrun. simplify_eq.
    destruct (IH _ _ _ Hrest) as (acts & ds & Hres & Hds & -> & Htr).
    destruct (emit_all_frame (m_Emits a) (set_heap σ1 w))
      as (Hh & Ha & _ & _ & _ & Htr1). simpl in Hh, Ha, Htr1.
    exists (a :: acts), (d :: ds). split; [|split; [|split]].
    + constructor; [done|]. eapply resolve_same_actions; [|done]. by symmetry.
    + simpl. by rewrite Hd, Hds.
    + done.
    + simpl. rewrite Happly, Htr, Htr1, Hh. by rewrite <-app_assoc.
Qed.

Lemma entry_method_trace dir kind e w w' :
  (let* ns := apply_actions dir (m_Actions e) in console_log kind e ns) w
    = (Ok tt, w') →
  ∃ acts ds,
    resolve w (m_Actions e) acts ∧ map m_Data acts = map Some ds ∧
    trace w' = trace w ++ emitted_along dir acts (heap w) ++
                 printed kind e (map entity_number ds).
Proof.
  unfold bind. intros Hrun.
  destruct (apply_actions dir (m_Actions e) w) as [[ns|] w1] eqn:Hloop;
    [|done].
  destruct (apply_actions_trace _ _ _ _ _ Hloop)
    as (acts & ds & Hres & Hds & -> & Htr).
  rewrite console_log_eq in Hrun. injection Hrun as <-.
  exists acts, ds. split; [done|]. split; [done|]. unfold printed.
  destruct (m_Text e); simpl; rewrite Htr; by rewrite ?app_nil_r, <-?app_assoc.
Qed.

(** X21.  [undo()] and [redo()] of an entry of several actions work action
    by action: the old (or new) value of an action is written, then the
    callbacks of that action run in the order of their registration and see
    the targets before any later action of the entry is touched; the one
    log line, with the entity numbers in the order of the actions, comes
    after the last callback. *)
Theorem callbacks_run_action_by_action w w' :
  (undo w = (Ok tt, w') →
   ∃ i e acts ds,
     s_HistoryIndex w = S i ∧ s_HistoryEntries w !! i = Some e ∧
     resolve w (m_Actions e) acts ∧ map m_Data acts = map Some ds ∧
     trace w' = trace w ++ emitted_along Old acts (heap w) ++
                  printed LogUndo e (map entity_number ds)) ∧
  (redo w = (Ok tt, w') →
   ∃ e acts ds,
     s_HistoryEntries w !! s_HistoryIndex w = Some e ∧
     resolve w (m_Actions e) acts ∧ map m_Data acts = map Some ds ∧
     trace w' = trace w ++ emitted_along New acts (heap w) ++
                  printed LogRedo e (map entity_number ds)).
Proof.
  split.
  - unfold undo, bind at 1, entry_at, index_before.
    destruct (s_HistoryIndex w) as [|i] eqn:Hidx; [done|]. simpl.
    destruct (s_HistoryEntries w !! i) as [e|] eqn:He; [|done].
    unfold HistoryEntry_undo. unfold bind at 1.
    match goal with |- context [bind ?m ?k w] =>
      destruct (bind m k w) as [[[]|] w1] eqn:Hrun; [|done]
    end.
    apply entry_method_trace in Hrun as (acts & ds & Hres & Hds & Htr).
    unfold modify. intros [= <-]. simpl. by exists i, e, acts, ds.
  - unfold redo, bind at 1, entry_at. simpl.
    destruct (s_HistoryEntries w !! s_HistoryIndex w) as [e|] eqn:He; [|done].
    unfold HistoryEntry_redo. unfold bind at 1.
    match goal with |- context [bind ?m ?k w] =>
      destruct (bind m k w) as [[[]|] w1] eqn:Hrun; [|done]
    end.
    apply entry_method_trace in Hrun as (acts & ds & Hres & Hds & Htr).
    unfold modify. intros [= <-]. simpl. by exists e, acts, ds.
Qed.

End callbacks_and_log.

(* ================================================================== *)
(** * Runs inside a transaction *)

Section open_runs.
Implicit Types (w : World) (acts : list HistoryAction) (σ : Store).

Lemma resolve_prefix w w' refs acts :
  actions w `prefix_of` actions w' →
  resolve w refs acts → resolve w' refs acts.
Proof.
  intros Hpre Hres. eapply Forall2_impl; [exact Hres|].
  intros r a Hr. simpl in *. eapply prefix_lookup_Some; [exact Hr | exact Hpre].
Qed.

Lemma resolve_snoc w refs acts r a :
  resolve w refs acts → actions w !! r = Some a →
  resolve w (refs ++ [r]) (acts ++ [a]).
Proof. intros Hres Hr. apply Forall2_app; [done|]. by repeat constructor. Qed.

(** What a call made with a transaction open, and that returns, has
    done. *)
Lemma perform_open_spec w t c fs wc :
  s_Transaction w = Some t →
  perform (c, fs) w = (Ok tt, wc) →
  ∃ a,
    read_old (closure_of c) (heap w) = Some (m_OldValue a) ∧
    call_ApplyFn (closure_of c) (newValue_of c) (heap w) = Some (heap wc) ∧
    actions wc = actions w ++ [a] ∧
    m_Apply a = closure_of c ∧ m_NewValue a = newValue_of c ∧
    is_Some (m_Data a) ∧
    s_HistoryEntries wc = s_HistoryEntries w ∧
    s_HistoryIndex wc = s_HistoryIndex w ∧
    s_Transaction wc = Some (HistoryEntry_push t (length (actions w))).
Proof.
  intros Hopen. unfold perform, bind. simpl. rewrite call_eq.
  destruct (read_old (closure_of c) (heap w)) as [old|] eqn:Hold; [|done].
  rewrite (route_action_open _ t) by done.
  destruct (call_ApplyFn _ _ _) as [σ'|] eqn:Happly; [|done].
  destruct (data_of c) as [d|] eqn:Hd; [|done].
  erewrite chain_emits_eq; last first.
  { simpl. by rewrite lookup_app_r, Nat.sub_diag by lia. }
  unfold ret. intros [= <-]. simpl.
  eexists {| m_OldValue := old |}. simpl. split; [done|]. split; [done|].
  split.
  { rewrite insert_app_r_alt, Nat.sub_diag by lia. done. }
  eauto 10.
Qed.

(** The calls of an open transaction, all returning: the open entry has
    grown by their actions, which were recorded one after the other, and
    nothing was committed. *)
Lemma steps_open_spec steps : ∀ w t acts0 wn,
  s_Transaction w = Some t →
  resolve w (m_Actions t) acts0 →
  for_each perform steps w = (Ok tt, wn) →
  ∃ t' acts,
    s_Transaction wn = Some t' ∧
    resolve wn (m_Actions t') (acts0 ++ acts) ∧
    Forall (λ a, is_Some (m_Data a)) acts ∧
    map m_Apply acts = map (λ step, closure_of step.1) steps ∧
    recorded acts (heap w) (heap wn) ∧
    s_HistoryEntries wn = s_HistoryEntries w ∧
    s_HistoryIndex wn = s_HistoryIndex w.
Proof.
  induction steps as [|[c fs] steps IH]; intros w t acts0 wn Hopen Hres Hrun.
  - simpl in Hrun. unfold ret in Hrun. simplify_eq.
    exists t, []. rewrite app_nil_r. by repeat split.
  - simpl in Hrun. unfold bind in Hrun.
    destruct (perform (c, fs) w) as [[[]|] wc] eqn:Hc; [|done].
    destruct (perform_open_spec _ _ _ _ _ Hopen Hc)
      as (a & Hold & Hnew & Hacts & Hf & Hnv & Hdata & Hes & Hi & Ht).
    destruct (IH wc _ (acts0 ++ [a]) wn Ht) as
      (t' & acts & Ht' & Hres' & Hdatas & Hfs & Hrec & Hes' & Hi');
      [|done|].
    { simpl. apply resolve_snoc.
      - eapply resolve_prefix; [|done]. rewrite Hacts. by apply prefix_app_r.
      - by rewrite Hacts, lookup_app_r, Nat.sub_diag by lia. }
    exists t', (a :: acts). split; [done|].
    split; [by rewrite <-app_assoc in Hres'|].
    split; [by constructor|]. split; [by simpl; rewrite Hf, Hfs|].
    split; [|split; congruence].
    simpl. rewrite Hf, Hnv. eauto.
Qed.

Lemma read_entity_number_eq w r a d :
  actions w !! r = Some a → m_Data a = Some d →
  read_entity_number r w = (Ok (entity_number d), w).
Proof.
  intros Hr Hd. unfold read_entity_number, HistoryAction_data, bind, deref.
  rewrite Hr. unfold ret. by rewrite Hd.
Qed.

Lemma read_entity_numbers_run w refs : ∀ acts,
  resolve w refs acts →
  Forall (λ a, is_Some (m_Data a)) acts →
  ∃ ns, map_each read_entity_number refs w = (Ok ns, w).
Proof.
  induction refs as [|r refs IH]; intros acts Hres Hdata; [by exists []|].
  inversion Hres as [|? a ? acts' Hr Hres']; simplify_eq.
  inversion Hdata as [|? ? [d Hd] Hdata']; simplify_eq.
  destruct (IH _ Hres' Hdata') as [ns Hns]. exists (entity_number d :: ns).
  simpl. unfold bind at 1. rewrite (read_entity_number_eq _ _ _ _ Hr Hd).
  unfold bind. by rewrite Hns.
Qed.

Lemma HistoryEntry_log_run e acts w :
  resolve w (m_Actions e) acts →
  Forall (λ a, is_Some (m_Data a)) acts →
  ∃ w', HistoryEntry_log e w = (Ok tt, w') ∧
        heap w' = heap w ∧ same_history w w'.
Proof.
  intros Hres Hdata.
  destruct (read_entity_numbers_run _ _ _ Hres Hdata) as [ns Hns].
  unfold HistoryEntry_log, bind. rewrite Hns.
  apply console_log_same_history.
Qed.

End open_runs.


(* ================================================================== *)
(** * Committed transactions *)

Section committed_transactions.
Implicit Types (w : World) (e t : HistoryEntry) (c : Call) (fs : list nat).

Lemma perform_open_full w t c fs wc :
  s_Transaction w = Some t →
  perform (c, fs) w = (Ok tt, wc) →
  ∃ old d,
    read_old (closure_of c) (heap w) = Some old ∧
    data_of c = Some d ∧
    call_ApplyFn (closure_of c) (newValue_of c) (heap w) = Some (heap wc) ∧
    actions wc = actions w ++
      [{| m_OldValue := old; m_NewValue := newValue_of c; m_Data := Some d;
          m_Apply := closure_of c; m_Emits := fs |}] ∧
    s_Transaction wc = Some (HistoryEntry_push t (length (actions w))) ∧
    s_HistoryEntries wc = s_HistoryEntries w ∧
    s_HistoryIndex wc = s_HistoryIndex w ∧
    trace wc = trace w.
Proof.
  intros Hopen. unfold perform, bind. simpl. rewrite call_eq.
  destruct (read_old (closure_of c) (heap w)) as [old|] eqn:Hold; [|done].
  rewrite (route_action_open _ t) by done.
  destruct (call_ApplyFn _ _ _) as [σ'|] eqn:Happly; [|done].
  destruct (data_of c) as [d|] eqn:Hd; [|done].
  erewrite chain_emits_eq; last first.
  { simpl. by rewrite lookup_app_r, Nat.sub_diag by lia. }
  unfold ret. intros [= <-]. simpl.
  exists old, d. split; [done|]. split; [done|]. split; [done|].
  split; [|done].
  by rewrite insert_app_r_alt, Nat.sub_diag by lia.
Qed.

(** The calls of an open transaction, all returning: the open entry has
    grown by their handles in the order of the calls, no callback has run
    and no line was printed. *)
Lemma steps_open_full steps : ∀ w t wn,
  s_Transaction w = Some t →
  for_each perform steps w = (Ok tt, wn) →
  ∃ acts ds,
    s_Transaction wn =
      Some {| m_Text := m_Text t;
              m_Actions := m_Actions t ++
                             seq (length (actions w)) (length steps) |} ∧
    actions wn = actions w ++ acts ∧
    Forall2 (λ step a, m_Apply a = closure_of step.1 ∧
                       m_NewValue a = newValue_of step.1 ∧
                       m_Data a = data_of step.1 ∧
                       m_Emits a = step.2) steps acts ∧
    map m_Data acts = map Some ds ∧
    recorded acts (heap w) (heap wn) ∧
    s_HistoryEntries wn = s_HistoryEntries w ∧
    s_HistoryIndex wn = s_HistoryIndex w ∧
    trace wn = trace w.
Proof.
  induction steps as [|[c fs] steps IH]; intros w t wn Hopen Hrun.
  - simpl in Hrun. unfold ret in Hrun. simplify_eq.
    exists [], []. simpl. rewrite !app_nil_r. split; [by destruct t|].
    by repeat split.
  - simpl in Hrun. unfold bind in Hrun.
    destruct (perform (c, fs) w) as [[[]|] wc] eqn:Hc; [|done].
    destruct (perform_open_full _ _ _ _ _ Hopen Hc)
      as (old & d & Hold & Hd & Happly & Hacts & Ht & Hes & Hi & Htr).
    destruct (IH _ _ _ Ht Hrun)
      as (acts & ds & Ht' & Hacts' & Hall & Hds & Hrec & Hes' & Hi' & Htr').
    eexists (_ :: acts), (d :: ds).
    split; [|split; [|split; [|split; [|split]]]].
    + rewrite Ht', Hacts, length_app. simpl.
      by rewrite <-app_assoc, Nat.add_1_r.
    + by rewrite Hacts', Hacts, <-app_assoc.
    + by constructor.
    + simpl. by rewrite Hds.
    + simpl. eauto.
    + repeat split; congruence.
Qed.

Lemma resolve_seq w acts0 acts :
  actions w = acts0 ++ acts →
  resolve w (seq (length acts0) (length acts)) acts.
Proof.
  revert acts0. induction acts as [|a acts IH]; intros acts0 Ha; simpl.
  - constructor.
  - constructor.
    + by rewrite Ha, lookup_app_r, Nat.sub_diag by lia.
    + specialize (IH (acts0 ++ [a])). rewrite length_app in IH. simpl in IH.
      rewrite Nat.add_1_r in IH. apply IH. by rewrite <-app_assoc.
Qed.

Lemma read_entity_numbers_eq w refs : ∀ acts ds,
  resolve w refs acts →
  map m_Data acts = map Some ds →
  map_each read_entity_number refs w = (Ok (map entity_number ds), w).
Proof.
  induction refs as [|r refs IH]; intros acts ds Hres Hds.
  - inversion Hres; simplify_eq. by destruct ds.
  - inversion Hres as [|? a ? acts' Hr Hres']; simplify_eq.
    destruct ds as [|d ds]; simplify_eq/=.
    unfold bind at 1.
    rewrite (read_entity_number_eq _ _ a d) by done.
    unfold bind. by rewrite (IH acts' ds).
Qed.

Lemma last_data (acts : list HistoryAction) : ∀ ds,
  map m_Data acts = map Some ds → last acts ≫= m_Data = last ds.
Proof.
  induction acts as [|a [|a' acts] IH]; intros [|d [|d' ds]] Hds;
    simplify_eq/=; try done.
  apply IH. simpl. congruence.
Qed.

(** What a transaction whose calls all return has left. *)
Lemma transaction_run text steps w w1 :
  s_Transaction w = None →
  cursor_in_range w →
  transaction text steps w = (Ok tt, w1) →
  ∃ acts ds,
    s_HistoryEntries w1 =
      take (s_HistoryIndex w) (s_HistoryEntries w) ++
        [{| m_Text := text;
            m_Actions := seq (length (actions w)) (length steps) |}] ∧
    s_HistoryIndex w1 = S (s_HistoryIndex w) ∧
    s_Transaction w1 = None ∧
    actions w1 = actions w ++ acts ∧
    Forall2 (λ step a, m_Apply a = closure_of step.1 ∧
                       m_NewValue a = newValue_of step.1 ∧
                       m_Data a = data_of step.1 ∧
                       m_Emits a = step.2) steps acts ∧
    map m_Data acts = map Some ds ∧
    recorded acts (heap w) (heap w1) ∧
    resolve w1 (seq (length (actions w)) (length steps)) acts ∧
    trace w1 = trace w ++
      match text with
      | Some description =>
          [Logged LogApply (map entity_number ds) description]
      | None => []
      end.
Proof.
  intros Hclosed Hrange. unfold cursor_in_range in Hrange.
  unfold transaction, bind at 1, startTransaction. rewrite Hclosed.
  unfold bind at 1.
  destruct (for_each perform steps _) as [[[]|] wn] eqn:Hsteps; [|done].
  destruct (steps_open_full steps
              (set_transaction (Some (new_HistoryEntry text)) w)
              (new_HistoryEntry text) wn eq_refl Hsteps)
    as (acts & ds & Ht & Hacts & Hall & Hds & Hrec & Hes & Hi & Htr).
  simpl in Ht, Hacts, Hrec, Hes, Hi, Htr.
  assert (length acts = length steps) as Hn
    by (symmetry; by eapply Forall2_length).
  assert (resolve wn (seq (length (actions w)) (length steps)) acts) as Hres.
  { rewrite <-Hn. by apply resolve_seq. }
  unfold commitTransaction. rewrite Ht. unfold bind at 1.
  unfold HistoryEntry_log, bind at 1. simpl.
  rewrite (read_entity_numbers_eq _ _ _ _ Hres Hds), console_log_eq.
  unfold bind. rewrite s_CommitTransaction_eq. unfold modify. simpl.
  intros [= <-]. exists acts, ds.
  destruct text as [description|]; simpl; rewrite ?Hes, ?Hi, ?Htr, ?app_nil_r;
    repeat split; try done;
    (eapply resolve_same_actions; [|exact Hres]); done.
Qed.

(** X17.  A transaction whose calls all return is stored by
    [commitTransaction()] as one entry: it holds the handles of the calls
    in the order of the calls, exactly one line is printed for it when it
    has a description, with the entity numbers in that order, no callback
    has run, and the preview of the entry is the metadata of the last
    call. *)
Theorem transaction_commit text steps w w1 :
  s_Transaction w = None →
  cursor_in_range w →
  transaction text steps w = (Ok tt, w1) →
  ∃ acts ds,
    s_HistoryEntries w1 =
      take (s_HistoryIndex w) (s_HistoryEntries w) ++
        [{| m_Text := text;
            m_Actions := seq (length (actions w)) (length steps) |}] ∧
    s_HistoryIndex w1 = S (s_HistoryIndex w) ∧
    s_Transaction w1 = None ∧
    actions w1 = actions w ++ acts ∧
    Forall2 (λ step a, m_Apply a = closure_of step.1 ∧
                       m_NewValue a = newValue_of step.1 ∧
                       m_Data a = data_of step.1 ∧
                       m_Emits a = step.2) steps acts ∧
    map m_Data acts = map Some ds ∧
    replay New acts (heap w) = Some (heap w1) ∧
    trace w1 = trace w ++
      match text with
      | Some description =>
          [Logged LogApply (map entity_number ds) description]
      | None => []
      end ∧
    getUndoPreview w1 = (Ok (last ds), w1).
Proof.
  intros Hclosed Hrange Hrun.
  destruct (transaction_run _ _ _ _ Hclosed Hrange Hrun)
    as (acts & ds & Hes & Hi & Ht & Hacts & Hall & Hds & Hrec & Hres & Htr).
  exists acts, ds. unfold cursor_in_range in Hrange.
  assert (length (take (s_HistoryIndex w) (s_HistoryEntries w))
          = s_HistoryIndex w) as Hlen by (rewrite length_take; lia).
  repeat split; try done; [by apply recorded_replay|].
  unfold getUndoPreview, bind, entry_at, index_before. rewrite Hi. simpl.
  rewrite Hes, lookup_app_r, Hlen, Nat.sub_diag by lia. simpl.
  erewrite HistoryEntry_data_eq; [|exact Hres].
  by rewrite (last_data _ _ Hds).
Qed.

End committed_transactions.

(* ================================================================== *)
(** * Laws of the accessor *)

Section accessor_laws.
Implicit Types (w : World) (σ : Store) (s : Slot) (x : option jsval)
  (v : IValueInfo).

Lemma own_property_assign s x σ h k :
  (∀ b, h = JRef b → s ≠ SObj b k ∧ s ≠ SObj b "hasOwnProperty") →
  own_property (assign s x σ) h k = own_property σ h k.
Proof.
  intros Hne. destruct h as [| | | | |b]; try done. simpl.
  destruct (Hne b eq_refl) as [Hk Hhas].
  destruct (objects_assign s x σ b) as (g & -> & Hown).
  destruct (objects σ !! b) as [o|]; simpl; [|done].
  by rewrite !Hown.
Qed.

Lemma s_GetValue_assign s x σ q : ∀ obj,
  (∀ a, s ≠ SObj a "hasOwnProperty") →
  s ∉ walk_slots σ obj q →
  s_GetValue (assign s x σ) obj q = s_GetValue σ obj q.
Proof.
  induction q as [|k q IH]; intros obj Hhas Hnot; [done|].
  assert (∀ b, obj = JRef b → s ≠ SObj b k) as Hk.
  { intros b -> ->. apply Hnot. simpl. by left. }
  simpl. destruct q as [|k' q].
  - apply own_property_assign. intros b Hb. split; [by apply Hk|done].
  - rewrite get_member_assign by done.
    destruct (get_member σ obj k) as [child| |] eqn:Hget; [|done..].
    simpl mbind. apply IH; [done|].
    intros Hin. apply Hnot. simpl. rewrite Hget.
    apply elem_of_app. by right.
Qed.

Lemma s_GetValue_app σ p rest : ∀ obj,
  rest ≠ [] →
  s_GetValue σ obj (p ++ rest) = (h ← walk σ obj p; s_GetValue σ h rest).
Proof.
  induction p as [|k p IH]; intros obj Hrest; [done|].
  simpl. destruct (p ++ rest) as [|k' q] eqn:Heq.
  { apply app_eq_nil in Heq as [_ ?]. done. }
  destruct (get_member σ obj k) as [child| |]; simpl; [|done..].
  by apply IH.
Qed.

Lemma s_SetValue_app σ p rest v : ∀ obj,
  rest ≠ [] →
  s_SetValue σ obj (p ++ rest) v = (h ← walk σ obj p; s_SetValue σ h rest v).
Proof.
  induction p as [|k p IH]; intros obj Hrest; [done|].
  simpl. destruct (p ++ rest) as [|k' q] eqn:Heq.
  { apply app_eq_nil in Heq as [_ ?]. done. }
  destruct (get_member σ obj k) as [child| |]; simpl; [|done..].
  by apply IH.
Qed.

Lemma s_DeleteValue_app σ p rest : ∀ obj,
  rest ≠ [] →
  s_DeleteValue σ obj (p ++ rest) = (h ← walk σ obj p; s_DeleteValue σ h rest).
Proof.
  induction p as [|k p IH]; intros obj Hrest; [done|].
  simpl. destruct (p ++ rest) as [|k' q] eqn:Heq.
  { apply app_eq_nil in Heq as [_ ?]. done. }
  destruct (get_member σ obj k) as [child| |]; simpl; [|done..].
  by apply IH.
Qed.

(** X5.  At a path that leads, through own properties and without passing
    through the property it ends in, to a plain key of an object or array
    that does not shadow [hasOwnProperty]: a write returns and a read right
    after it returns the written value with [exists: true]; a delete
    returns and a read right after it returns [{ value: undefined, exists:
    false }]; and deleting a property that is not there leaves the store as
    it was. *)
Theorem read_after_write σ target path s v :
  site σ (ApplyValue target path) = Some s →
  s ∉ passes σ (ApplyValue target path) →
  shadowed s σ = false →
  ∃ σ1 σ2,
    s_SetValue σ (JRef target) path v = Done σ1 ∧
    s_GetValue σ1 (JRef target) path
      = Done {| value := value v; exists_ := true |} ∧
    s_DeleteValue σ (JRef target) path = Done σ2 ∧
    s_GetValue σ2 (JRef target) path
      = Done {| value := JUndefined; exists_ := false |} ∧
    (peek s σ = None → σ2 = σ).
Proof.
  intros Hsite Hpass Hshadow.
  destruct (site_holder _ _ _ Hsite) as [Hobj Hmap].
  pose proof (site_plain _ _ _ Hsite) as Hplain.
  assert (∀ x, s_GetValue (assign s x σ) (JRef target) path
               = Done (slot_of x)) as Hread.
  { intros x. destruct (site_assign s x σ _ Hpass) as [Hsite1 _].
    rewrite <-Hsite1 in Hsite.
    pose proof (read_slot_site _ _ _ Hsite) as Hr. simpl in Hr.
    by rewrite Hr, shadowed_assign, Hshadow, peek_assign. }
  pose proof Hsite as Hsite'.
  apply site_value in Hsite' as (ks & k & a & o & -> & -> & Hwalk & Ho & Hk).
  exists (assign (SObj a k) (Some (value v)) σ), (assign (SObj a k) None σ).
  split; [|split; [|split; [|split]]].
  - rewrite s_SetValue_snoc, Hwalk. simpl mbind.
    by apply set_property_plain with o.
  - apply (Hread (Some (value v))).
  - rewrite s_DeleteValue_snoc, Hwalk. simpl mbind.
    by apply delete_property_plain with o.
  - apply (Hread None).
  - intros Hnone. rewrite <-Hnone. by apply assign_peek.
Qed.

(** X6.  A mutation whose closure has a slot in the store changes no read
    that does not look at that slot: at a path whose descent and last step
    read other properties, [s_GetValue] returns after the mutation what it
    returned before, and raises if it raised before. *)
Theorem write_elsewhere_unseen f v σ σ1 s target q :
  site σ f = Some s →
  call_ApplyFn f v σ = Some σ1 →
  s ∉ walk_slots σ (JRef target) q →
  s_GetValue σ1 (JRef target) q = s_GetValue σ (JRef target) q.
Proof.
  intros Hsite Hcall Hnot.
  apply (call_ApplyFn_site _ _ _ _ _ Hsite) in Hcall as ->.
  apply s_GetValue_assign; [|done].
  intros a ->. destruct (site_holder _ _ _ Hsite) as [Hobj _].
  destruct (Hobj a "hasOwnProperty" eq_refl) as (o & _ & Hplain).
  apply plain_key_spec in Hplain as [Hk _]. done.
Qed.

(** X7.  No object is made on the way: when a prefix of the path leads to
    [undefined] or [null] (a property that holds one of them, or a property
    that an ordinary object neither owns nor inherits), reading, writing
    and deleting below it all raise, and [updateValue] throws at its first
    statement, before it has changed anything. *)
Theorem no_record_made_on_the_way w target p h rest u text data remove :
  walk (heap w) (JRef target) p = Done h →
  h = JUndefined ∨ h = JNull →
  rest ≠ [] →
  s_GetValue (heap w) (JRef target) (p ++ rest) = Raises ∧
  (∀ v, s_SetValue (heap w) (JRef target) (p ++ rest) v = Raises) ∧
  s_DeleteValue (heap w) (JRef target) (p ++ rest) = Raises ∧
  updateValue target (p ++ rest) u text data remove w = (Throw, w).
Proof.
  intros Hwalk Hh Hrest.
  assert (s_GetValue (heap w) (JRef target) (p ++ rest) = Raises) as Hget.
  { rewrite s_GetValue_app, Hwalk by done. simpl mbind.
    destruct rest as [|k [|k' r]]; [done|..]; by destruct Hh as [->| ->]. }
  split; [done|]. split; [|split].
  - intros v. rewrite s_SetValue_app, Hwalk by done. simpl mbind.
    destruct rest as [|k [|k' r]]; [done|..]; by destruct Hh as [->| ->].
  - rewrite s_DeleteValue_app, Hwalk by done. simpl mbind.
    destruct rest as [|k [|k' r]]; [done|..]; by destruct Hh as [->| ->].
  - unfold updateValue, bind, read_path, lift. by rewrite Hget.
Qed.

End accessor_laws.

(* ================================================================== *)
(** * Undoing a transaction *)

Section transactions_undone.
Implicit Types (w : World) (σ τ υ : Store) (s : Slot)
  (fs : list ApplyFn) (acts : list HistoryAction)
  (l : list (Slot * option jsval)).

Lemma site_not_shadowing σ f s :
  site σ f = Some s → ∀ a, s ≠ SObj a "hasOwnProperty".
Proof.
  intros Hsite a ->. destruct (site_holder _ _ _ Hsite) as [Hobj _].
  destruct (Hobj a "hasOwnProperty" eq_refl) as (o & _ & Hplain).
  apply plain_key_spec in Hplain as [Hk _]. done.
Qed.

Lemma shadowed_assign_other s s' x τ :
  (∀ a, s' ≠ SObj a "hasOwnProperty") →
  shadowed s (assign s' x τ) = shadowed s τ.
Proof.
  intros Hne. destruct s as [a k|t key]; [|done]. unfold shadowed.
  by rewrite peek_assign_ne.
Qed.

Lemma writes_sites σ dir acts :
  (writes σ dir acts).*1 = omap (site σ) (map m_Apply acts).
Proof.
  unfold writes. induction acts as [|a acts IH]; [done|]. simpl.
  destruct (site σ (m_Apply a)); simpl; [f_equal|]; exact IH.
Qed.

(** Settled actions whose holders do not shadow [hasOwnProperty] all
    return, in either direction. *)
Lemma replay_returns fs σ dir acts : ∀ υ,
  settled fs σ → steady fs σ υ →
  Forall (λ a, m_Apply a ∈ fs) acts →
  Forall (λ a, ∀ s, site σ (m_Apply a) = Some s → shadowed s υ = false)
    acts →
  replay dir acts υ = Some (put_all (writes σ dir acts) υ).
Proof.
  induction acts as [|a acts IH]; intros υ Hset Hst Hin Hsh; [done|].
  apply Forall_cons in Hin as [Ha Hin]. apply Forall_cons in Hsh as [Hsa Hsh].
  pose proof Hset as Hset'. unfold settled in Hset'.
  rewrite Forall_forall in Hset'. destruct (Hset' _ Ha) as (s & Hsite & _).
  pose proof Hst as Hst'. unfold steady in Hst'.
  rewrite Forall_forall in Hst'. destruct (Hst' _ Ha) as [Hsυ _].
  simpl. unfold call_ApplyFn.
  rewrite (run_ApplyFn_site υ _ s) by congruence.
  rewrite (Hsa s Hsite).
  replace (if exists_ (select_value dir a)
           then Done (assign s (content (select_value dir a)) υ)
           else Done (assign s (content (select_value dir a)) υ))
    with (Done (assign s (content (select_value dir a)) υ))
    by (by destruct (exists_ _)).
  simpl. unfold writes. simpl. rewrite Hsite. simpl.
  apply IH; [done| by eapply steady_assign |done|].
  eapply Forall_impl; [exact Hsh|]. intros b Hb s' Hs'. simpl in Hb.
  rewrite shadowed_assign_other; [by apply Hb|].
  by eapply site_not_shadowing.
Qed.

(** What the actions of a recorded run hold as old values when they write
    to different slots: what their slots held before the run. *)
Lemma recorded_olds fs σ acts : ∀ τ τn,
  settled fs σ → steady fs σ τ →
  Forall (λ a, m_Apply a ∈ fs) acts →
  NoDup (writes σ New acts).*1 →
  recorded acts τ τn →
  Forall (λ a, ∀ s, site σ (m_Apply a) = Some s → shadowed s τ = false)
    acts ∧
  writes σ Old acts = map (λ s, (s, peek s τ)) (writes σ New acts).*1.
Proof.
  induction acts as [|a acts IH]; intros τ τn Hset Hst Hin Hnd Hrec.
  { by split. }
  apply Forall_cons in Hin as [Ha Hin].
  destruct Hrec as (Hold & τ1 & Hnew & Hrest).
  pose proof Hset as Hset'. unfold settled in Hset'.
  rewrite Forall_forall in Hset'. destruct (Hset' _ Ha) as (s & Hsite & _).
  pose proof Hst as Hst'. unfold steady in Hst'.
  rewrite Forall_forall in Hst'. destruct (Hst' _ Ha) as [Hsτ _].
  assert (site τ (m_Apply a) = Some s) as Hsite' by congruence.
  destruct (read_old_site _ _ _ _ Hsite' Hold) as [Hshadow Holdv].
  apply (call_ApplyFn_site _ _ _ _ _ Hsite') in Hnew as ->.
  unfold writes in Hnd |- *. simpl in Hnd |- *. rewrite Hsite in Hnd |- *.
  simpl in Hnd |- *. apply NoDup_cons in Hnd as [Hfresh Hnd].
  destruct (IH (assign s (content (m_NewValue a)) τ) τn)
    as [Hsh Hw]; [done| by eapply steady_assign |done|done|done|].
  split.
  - constructor.
    + intros s' Hs'. congruence.
    + eapply Forall_impl; [exact Hsh|]. intros b Hb s' Hs'. simpl in Hb.
      rewrite <-(Hb s' Hs'). symmetry. apply shadowed_assign_other.
      by eapply site_not_shadowing.
  - f_equal.
    + by rewrite Holdv, content_slot_of.
    + etrans; [exact Hw|]. apply map_ext_in.
      intros s' Hs'. f_equal. apply peek_assign_ne.
      intros ->. apply Hfresh. by apply list_elem_of_In.
Qed.

Lemma put_all_peeks ss : ∀ τ,
  Forall (λ s, ∀ a k o, s = SObj a k → objects τ !! a = Some o →
                        plain_key o k = true) ss →
  put_all (map (λ s, (s, peek s τ)) ss) τ = τ.
Proof.
  induction ss as [|s ss IH]; intros τ Hplain; [done|].
  apply Forall_cons in Hplain as [Hs Hplain]. simpl.
  rewrite assign_peek by done. by apply IH.
Qed.

Lemma shadowed_put_all l : ∀ s τ,
  Forall (λ p, ∀ a, p.1 ≠ SObj a "hasOwnProperty") l →
  shadowed s (put_all l τ) = shadowed s τ.
Proof.
  induction l as [|[s' x] l IH]; intros s τ Hl; [done|].
  apply Forall_cons in Hl as [Hs Hl]. simpl.
  rewrite IH by done. by apply shadowed_assign_other.
Qed.

(** Actions that are apart are undone by writing their old values back in
    the order in which they were applied. *)
Lemma recorded_unapply acts σ σn :
  recorded acts σ σn →
  apart (map m_Apply acts) σ →
  replay Old acts σn = Some σ.
Proof.
  intros Hrec [Hset Hnd].
  assert (Forall (λ a, m_Apply a ∈ map m_Apply acts) acts) as Hin.
  { apply Forall_forall. intros a Ha. by apply list_elem_of_fmap_2. }
  rewrite <-(writes_sites σ New) in Hnd.
  destruct (replay_writes _ σ New acts σ σn Hset (steady_refl _ _) Hin
              (recorded_replay _ _ _ Hrec)) as [Hσn Hst].
  destruct (recorded_olds _ σ acts σ σn Hset (steady_refl _ _) Hin Hnd Hrec)
    as [Hsh Hw].
  assert (Forall (λ p, ∃ f, site σ f = Some p.1) (writes σ New acts))
    as Hsites.
  { unfold writes. clear. induction acts as [|a acts IH]; [done|]. simpl.
    destruct (site σ (m_Apply a)) as [s|] eqn:Hs; simpl; [|done].
    constructor; [by exists (m_Apply a)|done]. }
  rewrite (replay_returns _ σ Old acts σn Hset Hst Hin).
  - f_equal. rewrite Hσn, put_all_absorb
      by (by rewrite (writes_slots σ Old New)).
    rewrite Hw. apply put_all_peeks.
    apply Forall_fmap. eapply Forall_impl; [exact Hsites|].
    intros [s x] [f Hf]. simpl in *. by eapply site_plain.
  - eapply Forall_impl; [exact Hsh|]. intros a Ha s Hs. simpl in Ha.
    rewrite Hσn, shadowed_put_all; [by apply Ha|].
    eapply Forall_impl; [exact Hsites|].
    intros [s' x] [f Hf]. simpl in *. by eapply site_not_shadowing.
Qed.

(** X4.  A transaction whose calls all return and whose closures are apart
    in the store it starts from (each has a slot there, none passes through
    the slot of any of them, and no two write the same slot) is taken back
    by one [undo()]. *)
Theorem transaction_round_trip text steps w w1 :
  s_Transaction w = None →
  cursor_in_range w →
  apart (map (λ step, closure_of step.1) steps) (heap w) →
  transaction text steps w = (Ok tt, w1) →
  ∃ w2, undo w1 = (Ok tt, w2) ∧ heap w2 = heap w.
Proof.
  intros Hclosed Hrange Hind. unfold cursor_in_range in Hrange.
  unfold transaction, bind at 1, startTransaction. rewrite Hclosed.
  unfold bind at 1.
  destruct (for_each perform steps _) as [[[]|] wn] eqn:Hsteps; [|done].
  destruct (steps_open_spec steps
              (set_transaction (Some (new_HistoryEntry text)) w)
              (new_HistoryEntry text) [] wn eq_refl)
    as (t' & acts & Ht' & Hres & Hdata & Hfs & Hrec & Hes & Hi);
    [by constructor | done |].
  simpl in Hres, Hrec, Hes, Hi.
  unfold commitTransaction. rewrite Ht'. unfold bind at 1.
  destruct (HistoryEntry_log_run _ _ _ Hres Hdata)
    as (wl & -> & Hhl & Hal & Hil & Hesl & Htl).
  unfold bind. rewrite s_CommitTransaction_eq. unfold modify.
  intros [= <-].
  match goal with |- context [undo ?wc] =>
    destruct (undo_step wc (s_HistoryIndex w) t' acts (heap w))
      as (w2 & Hundo & Hh2 & _)
  end; simpl.
  - congruence.
  - rewrite Hesl, Hil, Hes, Hi.
    by rewrite lookup_app_r, length_take, Nat.min_l, Nat.sub_diag
      by (rewrite ?length_take; lia).
  - by eapply resolve_same_actions.
  - done.
  - rewrite Hhl. apply recorded_unapply; [done | by rewrite Hfs].
  - by exists w2.
Qed.

End transactions_undone.


(* ================================================================== *)
(** * Sessions of calls and transactions *)

Section sessions.
Implicit Types (w : World) (e : HistoryEntry).

(** What one edit that returned has left: one entry on top, whose actions
    run forwards and backwards between the two stores. *)
Lemma run_edit_spec ed w wc :
  s_Transaction w = None →
  cursor_in_range w →
  edit_placed ed (heap w) →
  run_edit ed w = (Ok tt, wc) →
  ∃ entry acts,
    s_HistoryEntries wc =
      take (s_HistoryIndex w) (s_HistoryEntries w) ++ [entry] ∧
    s_HistoryIndex wc = S (s_HistoryIndex w) ∧
    s_Transaction wc = None ∧
    actions w `prefix_of` actions wc ∧
    resolve wc (m_Actions entry) acts ∧
    Forall (λ a, is_Some (m_Data a)) acts ∧
    replay New acts (heap w) = Some (heap wc) ∧
    replay Old acts (heap wc) = Some (heap w).
Proof.
  intros Hclosed Hrange Hind. destruct ed as [[c fs]|text steps]; simpl.
  - intros Hc. simpl in Hind.
    destruct (perform_spec _ _ _ _ Hclosed Hc)
      as (a & old & Hold & Happly & Hacts & Hf & Hov & Hnv & _ & Hd & Hdata
          & Hes & Hi & Ht).
    exists {| m_Text := text_of c; m_Actions := [length (actions w)] |}, [a].
    split; [done|]. split; [done|]. split; [done|].
    split; [rewrite Hacts; by apply prefix_app_r|]. split.
    { constructor; [|constructor].
      by rewrite Hacts, lookup_app_r, Nat.sub_diag by lia. }
    split; [constructor; [by rewrite Hd | constructor]|].
    simpl. rewrite Hf, Hnv, Hov, Happly. simpl. split; [done|].
    by rewrite (apply_then_unapply _ _ _ _ _ Hind Hold Happly).
  - intros Hrun. simpl in Hind.
    destruct (transaction_run _ _ _ _ Hclosed Hrange Hrun)
      as (acts & ds & Hes & Hi & Ht & Hacts & Hall & Hds & Hrec & Hres & _).
    eexists _, acts. split; [exact Hes|]. split; [done|]. split; [done|].
    split; [rewrite Hacts; by apply prefix_app_r|]. split; [exact Hres|].
    split.
    { apply Forall_forall. intros a Ha.
      assert (m_Data a ∈ map m_Data acts) as Hin
        by (by apply list_elem_of_fmap_2).
      rewrite Hds in Hin.
      apply list_elem_of_fmap in Hin as (d & -> & _). eauto. }
    split; [by apply recorded_replay|].
    apply recorded_unapply; [done|].
    assert (map m_Apply acts = map (λ step, closure_of step.1) steps) as ->;
      [|done].
    clear -Hall. induction Hall as [|step a steps acts (Hf & _) _ IH];
      simpl; [done|]. by rewrite Hf, IH.
Qed.

Lemma session_spec edits : ∀ w wn,
  s_Transaction w = None →
  cursor_in_range w →
  well_edited edits w →
  for_each run_edit edits w = (Ok tt, wn) →
  ∃ es actss,
    take (s_HistoryIndex wn) (s_HistoryEntries wn) =
      take (s_HistoryIndex w) (s_HistoryEntries w) ++ es ∧
    s_HistoryIndex wn = s_HistoryIndex w + length es ∧
    length es = length edits ∧
    Forall2 (λ e acts, resolve wn (m_Actions e) acts ∧
                       Forall (λ a, is_Some (m_Data a)) acts) es actss ∧
    replay New (concat actss) (heap w) = Some (heap wn) ∧
    replay Old (concat (reverse actss)) (heap wn) = Some (heap w) ∧
    actions w `prefix_of` actions wn.
Proof.
  induction edits as [|ed edits IH]; intros w wn Hclosed Hrange Hind Hrun.
  - simpl in Hrun. unfold ret in Hrun. simplify_eq.
    exists [], []. rewrite app_nil_r. simpl. by repeat split.
  - simpl in Hrun. unfold bind in Hrun.
    destruct (run_edit ed w) as [[[]|] wc] eqn:Hed; [|done].
    destruct Hind as [Hind1 Hind]. rewrite Hed in Hind. simpl in Hind.
    destruct (run_edit_spec _ _ _ Hclosed Hrange Hind1 Hed)
      as (entry & acts & Hes & Hi & Ht & Hpre & Hres & Hdata & Hnew & Hold).
    unfold cursor_in_range in Hrange.
    assert (length (take (s_HistoryIndex w) (s_HistoryEntries w))
            = s_HistoryIndex w) as Hlen by (rewrite length_take; lia).
    destruct (IH wc wn) as (es & actss & Htake & Hidx & Hn & Hall & Hnews
                            & Holds & Hpre'); [done | | done | done |].
    { unfold cursor_in_range. rewrite Hes, Hi, length_app, Hlen. simpl. lia. }
    exists (entry :: es), (acts :: actss).
    split; [|split; [|split; [|split; [|split; [|split]]]]].
    + rewrite Htake, Hes, Hi, take_ge, <-app_assoc; [done|].
      rewrite length_app, Hlen. simpl. lia.
    + rewrite Hidx, Hi. simpl. lia.
    + simpl. by rewrite Hn.
    + constructor; [|done]. split; [|done]. by eapply resolve_prefix.
    + simpl. by rewrite replay_app, Hnew.
    + rewrite reverse_cons, concat_app, replay_app, Holds. simpl.
      by rewrite app_nil_r.
    + by etrans.
Qed.

(** X20.  A session is any run of mutation calls and transactions in which
    every edit fits the store it finds: a single call is well placed, the
    closures of a transaction are apart (each has a slot, none passes
    through the slot of any of them, no two write the same slot).  When
    every edit of the session returned, as many [undo()] as
    there are edits return and leave every target as it was before the
    session, and as many [redo()] after that return and leave the targets,
    the cursor and the entries as the session had left them. *)
Theorem session_round_trip edits w w1 :
  s_Transaction w = None →
  cursor_in_range w →
  well_edited edits w →
  for_each run_edit edits w = (Ok tt, w1) →
  ∃ w2 w3,
    undo_times (length edits) w1 = (Ok tt, w2) ∧ heap w2 = heap w ∧
    redo_times (length edits) w2 = (Ok tt, w3) ∧ heap w3 = heap w1 ∧
    s_HistoryIndex w3 = s_HistoryIndex w1 ∧
    s_HistoryEntries w3 = s_HistoryEntries w1.
Proof.
  intros Hclosed Hrange Hind Hrun.
  destruct (session_spec _ _ _ Hclosed Hrange Hind Hrun)
    as (es & actss & Htake & Hidx & Hn & Hall & Hnews & Holds & _).
  unfold cursor_in_range in Hrange.
  assert (length (take (s_HistoryIndex w) (s_HistoryEntries w))
          = s_HistoryIndex w) as Hlen by (rewrite length_take; lia).
  assert (s_HistoryEntries w1 =
          take (s_HistoryIndex w) (s_HistoryEntries w) ++ es ++
            drop (s_HistoryIndex w1) (s_HistoryEntries w1)) as Hes.
  { by rewrite app_assoc, <-Htake, take_drop. }
  rewrite <-Hn.
  destruct (undo_times_run es w1 _ _ actss (heap w) Hes)
    as (w2 & Hundos & Hh2 & Ha2 & Hi2 & Hes2 & _); [lia | done..|].
  destruct (redo_times_run es w2 (take (s_HistoryIndex w) (s_HistoryEntries w))
              (drop (s_HistoryIndex w1) (s_HistoryEntries w1))
              actss (heap w1))
    as (w3 & Hredos & Hh3 & _ & Hi3 & Hes3 & _).
  - by rewrite Hes2.
  - done.
  - eapply Forall2_impl; [exact Hall|]. intros e acts [Hr Hd].
    split; [|done]. by eapply resolve_same_actions.
  - by rewrite Hh2.
  - exists w2, w3. repeat split; try done; [lia | congruence].
Qed.

End sessions.

(* ================================================================== *)
(** * What undoing first action first can leave *)

Section forward_undo.
Implicit Types (w : World) (σ τ υ : Store) (s : Slot) (f : ApplyFn)
  (x : option jsval) (v : IValueInfo).

(** A closure at its own slot, from one write to the next. *)
Lemma own_slot_step f s υ x :
  site υ f = Some s → s ∉ passes υ f → shadowed s υ = false →
  site (assign s x υ) f = Some s ∧
  (s ∉ passes (assign s x υ) f) ∧
  shadowed s (assign s x υ) = false ∧
  read_old f (assign s x υ) = Some (slot_of x) ∧
  ∀ v, call_ApplyFn f v υ = Some (assign s (content v) υ).
Proof.
  intros Hsite Hpass Hshadow.
  destruct (site_assign s x υ f Hpass) as [Hsite1 Hpass1].
  destruct (site_holder _ _ _ Hsite) as [Hobj Hmap].
  pose proof (site_plain _ _ _ Hsite) as Hplain.
  assert (shadowed s (assign s x υ) = false) as Hshadow1
    by (by rewrite shadowed_assign).
  split; [congruence|]. split; [by rewrite Hpass1|]. split; [done|]. split.
  - unfold read_old. rewrite (read_slot_site _ _ s) by congruence.
    by rewrite Hshadow1, peek_assign.
  - intros v. unfold call_ApplyFn. rewrite (run_ApplyFn_site _ _ _ _ Hsite).
    rewrite Hshadow. by destruct (exists_ v).
Qed.

(** X18.  Old values are written back first action first, so a transaction
    that writes twice to one well placed location is not taken back by
    [undo()]: the location is left holding what the first of the two calls
    wrote, not what it held before the transaction. *)
Theorem same_place_twice_keeps_first text c1 fs1 c2 fs2 w w1 :
  s_Transaction w = None →
  cursor_in_range w →
  closure_of c2 = closure_of c1 →
  placed (closure_of c1) (heap w) →
  transaction text [(c1, fs1); (c2, fs2)] w = (Ok tt, w1) →
  ∃ w2, undo w1 = (Ok tt, w2) ∧
        read_old (closure_of c1) (heap w2) =
          Some (if exists_ (newValue_of c1)
                then {| value := value (newValue_of c1); exists_ := true |}
                else {| value := JUndefined; exists_ := false |}).
Proof.
  intros Hclosed Hrange Hsame (s & Hsite & Hpass) Hrun.
  destruct (transaction_run _ _ _ _ Hclosed Hrange Hrun)
    as (acts & ds & Hes & Hi & Ht & Hacts & Hall & Hds & Hrec & Hres & _).
  unfold cursor_in_range in Hrange.
  assert (length (take (s_HistoryIndex w) (s_HistoryEntries w))
          = s_HistoryIndex w) as Hlen by (rewrite length_take; lia).
  apply Forall2_cons_inv_l in Hall
    as (a1 & acts' & (Hf1 & Hn1 & _ & _) & Hall & ->).
  apply Forall2_cons_inv_l in Hall
    as (a2 & acts'' & (Hf2 & Hn2 & _ & _) & Hall & ->).
  apply Forall2_nil_inv_l in Hall as ->.
  simpl in Hf1, Hf2, Hn1, Hn2. rewrite Hsame in Hf2.
  destruct Hrec as (Hold1 & σ1 & Hnew1 & Hold2 & σ2 & Hnew2 & Hend).
  simpl in Hend. subst σ2.
  rewrite Hf1 in Hold1, Hnew1. rewrite Hf2 in Hold2, Hnew2.
  rewrite Hn1 in Hnew1.
  destruct (read_old_site _ _ _ _ Hsite Hold1) as [Hshadow Hov1].
  (* after the first call *)
  destruct (own_slot_step _ _ _ (content (newValue_of c1)) Hsite Hpass Hshadow)
    as (Hsite1 & Hpass1 & Hshadow1 & Hread1 & Hcall0).
  rewrite Hcall0 in Hnew1. injection Hnew1 as <-.
  rewrite Hread1 in Hold2. injection Hold2 as Hov2.
  (* after the second call *)
  destruct (own_slot_step _ _ _ (content (m_NewValue a2))
              Hsite1 Hpass1 Hshadow1)
    as (Hsite2 & Hpass2 & Hshadow2 & _ & Hcall1).
  rewrite Hcall1 in Hnew2. injection Hnew2 as Hh1.
  (* the two old values written back, first action first *)
  rewrite Hh1 in Hsite2, Hpass2, Hshadow2.
  destruct (own_slot_step _ _ _ (content (m_OldValue a1))
              Hsite2 Hpass2 Hshadow2)
    as (Hsite3 & Hpass3 & Hshadow3 & _ & Hcall2).
  destruct (own_slot_step _ _ _ (content (m_OldValue a2))
              Hsite3 Hpass3 Hshadow3)
    as (_ & _ & _ & Hread4 & Hcall3).
  destruct (undo_step w1 (s_HistoryIndex w)
              {| m_Text := text;
                 m_Actions := seq (length (actions w)) 2 |}
              [a1; a2]
              (assign s (content (m_OldValue a2))
                 (assign s (content (m_OldValue a1)) (heap w1))) Hi)
    as (w2 & Hundo & Hh2 & _).
  - by rewrite Hes, lookup_app_r, Hlen, Nat.sub_diag by lia.
  - exact Hres.
  - destruct ds as [|d1 [|d2 ds]]; simplify_eq/=.
    repeat constructor; eauto.
  - simpl. rewrite Hf1, Hcall2. simpl. by rewrite Hf2, Hcall3.
  - exists w2. split; [done|]. rewrite Hh2, Hread4, <-Hov2.
    rewrite content_slot_of. unfold content.
    by destruct (exists_ (newValue_of c1)).
Qed.

(** An [undo()] on an entry of two actions whose second closure raises. *)
Lemma undo_second_faults w i e r1 r2 a1 a2 d τ :
  s_HistoryIndex w = S i →
  s_HistoryEntries w !! i = Some e →
  m_Actions e = [r1; r2] →
  actions w !! r1 = Some a1 →
  actions w !! r2 = Some a2 →
  m_Data a1 = Some d →
  call_ApplyFn (m_Apply a1) (m_OldValue a1) (heap w) = Some τ →
  run_ApplyFn (m_Apply a2) (m_OldValue a2) τ = Raises →
  undo w = (Throw, emit_all (m_Emits a1) (set_heap τ w)).
Proof.
  intros Hidx He Hone Hr1 Hr2 Hd Happly1 Happly2.
  destruct (emit_all_frame (m_Emits a1) (set_heap τ w))
    as (Hh & Ha & _).
  unfold undo, bind at 1, entry_at, index_before. rewrite Hidx. simpl.
  rewrite He. unfold HistoryEntry_undo, apply_actions. rewrite Hone. simpl.
  unfold bind. rewrite (HistoryAction_apply_eq _ _ _ _ Hr1).
  simpl select_value. rewrite Happly1, Hd.
  rewrite (HistoryAction_apply_eq _ r2 a2 Old) by (by rewrite Ha).
  simpl select_value. rewrite Hh. simpl heap.
  unfold call_ApplyFn. by rewrite Happly2.
Qed.

(** The closure of a path that runs on below [undefined] raises, whatever
    it is asked to write. *)
Lemma apply_below_undefined target p rest v σ :
  walk σ (JRef target) p = Done JUndefined →
  rest ≠ [] →
  run_ApplyFn (ApplyValue target (p ++ rest)) v σ = Raises.
Proof.
  intros Hwalk Hrest. simpl. unfold updateValue_apply.
  destruct (exists_ v); simpl.
  - rewrite s_SetValue_app, Hwalk by done. simpl mbind.
    by destruct rest as [|k [|k' r]].
  - rewrite s_GetValue_app, Hwalk by done. simpl mbind.
    by destruct rest as [|k [|k' r]].
Qed.

(** Once the property at the end of [p] is gone from an ordinary object,
    and its name is not that of a member of [Object.prototype], the
    descent along [p] ends in [undefined]. *)
Lemma walk_removed σ target p a k m :
  site σ (ApplyValue target p) = Some (SObj a k) →
  SObj a k ∉ passes σ (ApplyValue target p) →
  objects σ !! a = Some (JObj m) →
  k ∉ Object_prototype →
  walk (assign (SObj a k) None σ) (JRef target) p = Done JUndefined.
Proof.
  intros Hsite Hpass Ho Hk.
  apply site_value in Hsite
    as (ks & k' & a' & o & -> & [= <- <-] & Hwalk & _ & _).
  simpl in Hpass. rewrite removelast_last in Hpass.
  destruct (walk_assign (SObj a k) None σ ks (JRef target) Hpass) as [Hw _].
  rewrite walk_snoc, Hw, Hwalk. simpl.
  rewrite lookup_alter_eq, Ho. simpl.
  rewrite lookup_partial_alter_eq. by rewrite decide_False.
Qed.

(** X19.  [undo()] can throw on a history that only returned calls with
    metadata have built.  A transaction creates a property of an ordinary
    object at a location that was empty and then writes below that
    property.  Old values are written back first action first: the first
    action removes the property again, and the second one then finds
    [undefined] where it descends.  [undo()] throws with the location empty
    again and the cursor where it was, [canUndo()] still holds, and the
    next [undo()] throws as well.  The location is one where, in the store
    the transaction left, the first closure is well placed at a key that
    names no member of [Object.prototype], in an object that does not
    shadow [hasOwnProperty]. *)
Theorem nested_creation_blocks_undo text target p rest a k m
    u1 text1 d1 remove1 fs1 u2 text2 d2 remove2 fs2 w w1 :
  s_Transaction w = None →
  cursor_in_range w →
  rest ≠ [] →
  read_old (ApplyValue target p) (heap w)
    = Some {| value := JUndefined; exists_ := false |} →
  transaction text
    [(UpdateValue target p u1 text1 d1 remove1, fs1);
     (UpdateValue target (p ++ rest) u2 text2 d2 remove2, fs2)] w
    = (Ok tt, w1) →
  site (heap w1) (ApplyValue target p) = Some (SObj a k) →
  SObj a k ∉ passes (heap w1) (ApplyValue target p) →
  objects (heap w1) !! a = Some (JObj m) →
  k ∉ Object_prototype →
  shadowed (SObj a k) (heap w1) = false →
  canUndo w1 = true ∧
  ∃ w2 w3,
    undo w1 = (Throw, w2) ∧
    s_HistoryIndex w2 = s_HistoryIndex w1 ∧
    s_HistoryEntries w2 = s_HistoryEntries w1 ∧
    read_old (ApplyValue target p) (heap w2)
      = Some {| value := JUndefined; exists_ := false |} ∧
    undo w2 = (Throw, w3).
Proof.
  intros Hclosed Hrange Hrest Habsent Hrun Hsite Hpass Ho Hk Hshadow.
  destruct (transaction_run _ _ _ _ Hclosed Hrange Hrun)
    as (acts & ds & Hes & Hi & Ht & Hacts & Hall & Hds & Hrec & Hres & _).
  unfold cursor_in_range in Hrange.
  assert (length (take (s_HistoryIndex w) (s_HistoryEntries w))
          = s_HistoryIndex w) as Hlen by (rewrite length_take; lia).
  apply Forall2_cons_inv_l in Hall
    as (a1 & acts' & (Hf1 & _) & Hall & ->).
  apply Forall2_cons_inv_l in Hall
    as (a2 & acts'' & (Hf2 & _) & Hall & ->).
  apply Forall2_nil_inv_l in Hall as ->.
  simpl in Hf1, Hf2.
  destruct ds as [|d1' [|d2' [|? ?]]]; try discriminate Hds.
  injection Hds as Hd1 Hd2.
  destruct Hrec as (Hold1 & σ1 & Hnew1 & Hold2 & σ2 & Hnew2 & Hend).
  simpl in Hend. subst σ2.
  rewrite Hf1 in Hold1. rewrite Habsent in Hold1. injection Hold1 as Hold1.
  (* the first action, written back, empties the location *)
  destruct (own_slot_step _ _ _ None Hsite Hpass Hshadow)
    as (Hsite' & Hpass' & Hshadow' & Hgone & Hcall).
  assert (content (m_OldValue a1) = None) as Hc1 by (by rewrite <-Hold1).
  pose proof (Hcall (m_OldValue a1)) as Hτ1. rewrite Hc1 in Hτ1.
  (* the second action then descends into [undefined] *)
  pose proof (walk_removed _ _ _ _ _ _ Hsite Hpass Ho Hk) as Hwalk.
  pose proof (apply_below_undefined target p rest (m_OldValue a2) _
                Hwalk Hrest) as Hraise.
  inversion Hres as [|? ? ? ? Hr1 Hres']; simplify_eq.
  inversion Hres' as [|? ? ? ? Hr2 _]; simplify_eq.
  assert (s_HistoryEntries w1 !! s_HistoryIndex w =
          Some {| m_Text := text;
                  m_Actions := [length (actions w); S (length (actions w))] |})
    as Hlook.
  { by rewrite Hes, lookup_app_r, Hlen, Nat.sub_diag by lia. }
  split; [apply bool_decide_eq_true; lia|].
  destruct (emit_all_frame (m_Emits a1)
              (set_heap (assign (SObj a k) None (heap w1)) w1))
    as (Hh & Ha & Hidx & Hents & _).
  change (heap (emit_all (m_Emits a1)
                  (set_heap (assign (SObj a k) None (heap w1)) w1))
          = assign (SObj a k) None (heap w1)) in Hh.
  cbn [set_heap actions s_HistoryIndex s_HistoryEntries] in Ha, Hidx, Hents.
  eexists _, _. split; [|split; [|split; [|split]]].
  - eapply (undo_second_faults w1 _ _ _ _ a1 a2); try done.
    + by rewrite Hf1.
    + by rewrite Hf2.
  - done.
  - done.
  - by rewrite Hh.
  - eapply (undo_second_faults _ (s_HistoryIndex w) _ _ _ a1 a2 _
              (assign (SObj a k) None (heap w1))).
    + by rewrite Hidx.
    + by rewrite Hents.
    + done.
    + by rewrite Ha.
    + by rewrite Ha.
    + done.
    + rewrite Hh, Hf1. apply apply_absent; [done | by rewrite <-Hold1].
    + by rewrite Hf2.
Qed.

End forward_undo.

(* ================================================================== *)
(** * The theorems at concrete worlds *)

Lemma undo_round_trip_witness :
  s_Transaction (initial mixed_store) = None ∧
  cursor_in_range (initial mixed_store) ∧
  well_placed mixed_steps (initial mixed_store) ∧
  for_each perform mixed_steps (initial mixed_store) =
    (Ok tt, (for_each perform mixed_steps (initial mixed_store)).2) ∧
  ∃ w2, undo_times 5 (for_each perform mixed_steps (initial mixed_store)).2
          = (Ok tt, w2) ∧
        heap w2 = mixed_store.
Proof.
  assert (for_each perform mixed_steps (initial mixed_store) =
          (Ok tt, (for_each perform mixed_steps (initial mixed_store)).2))
    as Hrun by (vm_compute; reflexivity).
  assert (cursor_in_range (initial mixed_store)) as Hrange
    by (unfold cursor_in_range; simpl; lia).
  assert (well_placed mixed_steps (initial mixed_store)) as Hplaced
    by by_evaluation.
  split; [reflexivity|]. split; [exact Hrange|]. split; [exact Hplaced|].
  split; [exact Hrun|].
  exact (undo_round_trip mixed_steps (initial mixed_store) _
           eq_refl Hrange Hplaced Hrun).
Defined.

(** C1 as stated does not hold.  On the array [[1, 2]] the call
    [updateValue(arr, ['2'], 3, 'append', data)] returns and leaves
    [[1, 2, 3]]; the [undo()] that follows returns as well, deletes the
    element and leaves a hole: the array has [length] 3 where it had 2. *)
Lemma undo_round_trip_fails_on_append :
  ¬ (∀ steps w w1,
       s_Transaction w = None →
       cursor_in_range w →
       for_each perform steps w = (Ok tt, w1) →
       ∃ w2, undo_times (length steps) w1 = (Ok tt, w2) ∧ heap w2 = heap w).
Proof.
  intros Hclaim.
  destruct (Hclaim [(append_call, [])] (initial list_store)
              (for_each perform [(append_call, [])] (initial list_store)).2)
    as (w2 & Hundo & Hheap).
  - reflexivity.
  - unfold cursor_in_range. simpl. lia.
  - vm_compute. reflexivity.
  - assert (undo_times 1
              (for_each perform [(append_call, [])] (initial list_store)).2
            = (Ok tt, (undo_times 1 (for_each perform [(append_call, [])]
                                       (initial list_store)).2).2))
      as Hrun by (vm_compute; reflexivity).
    simpl length in Hundo. rewrite Hrun in Hundo.
    injection Hundo as <-.
    apply (f_equal (λ σ, objects σ !! 0)) in Hheap.
    vm_compute in Hheap. discriminate Hheap.
Qed.

Lemma redo_after_undo_idempotent_witness :
  resolve mixed_committed (m_Actions mixed_entry) (actions mixed_committed) ∧
  settled (map m_Apply (actions mixed_committed)) (heap mixed_committed) ∧
  HistoryEntry_apply mixed_entry New mixed_committed = (Ok tt, mixed_new) ∧
  HistoryEntry_apply mixed_entry Old mixed_new = (Ok tt, mixed_new_old) ∧
  HistoryEntry_apply mixed_entry New mixed_new_old
    = (Ok tt, mixed_new_old_new) ∧
  heap mixed_new_old_new = heap mixed_new.
Proof.
  assert (resolve mixed_committed (m_Actions mixed_entry)
            (actions mixed_committed)) as Hres
    by (vm_compute; repeat constructor).
  assert (settled (map m_Apply (actions mixed_committed))
            (heap mixed_committed)) as Hset
    by by_evaluation.
  assert (HistoryEntry_apply mixed_entry New mixed_committed
          = (Ok tt, mixed_new)) as H1 by (vm_compute; reflexivity).
  assert (HistoryEntry_apply mixed_entry Old mixed_new
          = (Ok tt, mixed_new_old)) as H2 by (vm_compute; reflexivity).
  assert (HistoryEntry_apply mixed_entry New mixed_new_old
          = (Ok tt, mixed_new_old_new)) as H3 by (vm_compute; reflexivity).
  split; [exact Hres|]. split; [exact Hset|].
  split; [exact H1|]. split; [exact H2|]. split; [exact H3|].
  exact (redo_after_undo_idempotent _ _ _ _ _ _ Hres Hset H1 H2 H3).
Defined.

(** C2 as stated does not hold.  On [{c: {x: 1}}] the transaction
    [updateValue(o, ['c', 'x'], 2); updateValue(o, ['c'], n)], with [n] the
    object [{x: 9}], commits an entry whose second action holds [n] in its
    history slot and whose first action writes through [c].  Applied with
    New to the store the transaction left, the entry writes 2 into [n];
    applied with Old it writes 1 into [n] and puts the first object back
    under [c]; applied with New again it writes 2 into the first object
    and leaves [n] with 1 under [c], where the first New had left 2. *)
Lemma redo_after_undo_fails_on_shared_object :
  ¬ (∀ e w w1 w2 w3,
       HistoryEntry_apply e New w = (Ok tt, w1) →
       HistoryEntry_apply e Old w1 = (Ok tt, w2) →
       HistoryEntry_apply e New w2 = (Ok tt, w3) →
       heap w3 = heap w1).
Proof.
  intros Hclaim.
  assert (heap shared_new_old_new = heap shared_new) as Hheap.
  { apply (Hclaim shared_entry shared_committed shared_new shared_new_old);
      vm_compute; reflexivity. }
  apply (f_equal (λ σ, objects σ !! 2)) in Hheap.
  vm_compute in Hheap. discriminate Hheap.
Qed.


Lemma commit_discards_redo_witness :
  canRedo rename_undone = true ∧
  ∃ w', s_CommitTransaction (new_HistoryEntry None) rename_undone
          = (Ok tt, w') ∧
        s_HistoryEntries w' = [new_HistoryEntry None] ∧
        s_HistoryIndex w' = 1 ∧
        canRedo w' = false.
Proof.
  split; [vm_compute; reflexivity|].
  apply (commit_discards_redo rename_undone (new_HistoryEntry None)).
  vm_compute; reflexivity.
Defined.

Lemma transaction_guards_witness :
  startTransaction (Some "again") batch_open = (Ok false, batch_open) ∧
  commitTransaction renamed = (Ok tt, renamed).
Proof.
  split.
  - apply (proj1 (transaction_guards batch_open)
             (new_HistoryEntry (Some "batch"))).
    vm_compute; reflexivity.
  - apply (proj2 (transaction_guards renamed)). vm_compute; reflexivity.
Defined.

Lemma precondition_violation_throws_witness :
  (undo (initial rename_store) = (Throw, initial rename_store) ∧
   getUndoPreview (initial rename_store) = (Throw, initial rename_store)) ∧
  (redo renamed = (Throw, renamed) ∧
   getRedoPreview renamed = (Throw, renamed)).
Proof.
  split.
  - apply (proj1 (precondition_violation_throws (initial rename_store))).
    vm_compute; reflexivity.
  - apply (proj2 (precondition_violation_throws renamed)).
    vm_compute; reflexivity.
Defined.

Lemma emits_fire_once_in_order_witness :
  actions renamed !! 0 = Some rename_action ∧
  ∃ w1, chain_emits 0 [7; 8] renamed = (Ok 0, w1) ∧
    ∃ r w2, HistoryAction_apply 0 Old w1 = (r, w2) ∧
            heap w2 = rename_store ∧
            trace w2 = trace w1 ++ [Emitted 7 rename_store;
                                    Emitted 8 rename_store] ∧
            actions w2 = actions w1.
Proof.
  assert (actions renamed !! 0 = Some rename_action) as Ha
    by (vm_compute; reflexivity).
  split; [exact Ha|].
  destruct (emits_fire_once_in_order renamed 0 rename_action [7; 8] Ha)
    as (w1 & Hchain & Hfire).
  exists w1. split; [exact Hchain|].
  apply (Hfire w1 Old rename_store); [reflexivity|].
  rewrite (chain_emits_eq _ _ _ _ Ha) in Hchain.
  injection Hchain as <-. vm_compute; reflexivity.
Defined.

Lemma entry_undo_forward_order_witness :
  HistoryEntry_undo batch_entry batch_committed = (Ok tt, batch_unapplied) ∧
  ∃ acts σ1 σ2,
    resolve batch_committed [] acts ∧
    replay Old acts (heap batch_committed) = Some σ1 ∧
    call_ApplyFn (ApplyValue 0 ["a"]) {| value := JNum 0; exists_ := true |} σ1
      = Some σ2 ∧
    call_ApplyFn (ApplyValue 0 ["a"]) {| value := JNum 1; exists_ := true |} σ2
      = Some (heap batch_unapplied).
Proof.
  assert (HistoryEntry_undo batch_entry batch_committed
          = (Ok tt, batch_unapplied)) as Hundo
    by (vm_compute; reflexivity).
  split; [exact Hundo|].
  refine (entry_undo_forward_order batch_committed
            (new_HistoryEntry (Some "batch")) 0 1
            {| m_OldValue := {| value := JNum 0; exists_ := true |};
               m_NewValue := {| value := JNum 1; exists_ := true |};
               m_Data := Some rename_data;
               m_Apply := ApplyValue 0 ["a"]; m_Emits := [] |}
            {| m_OldValue := {| value := JNum 1; exists_ := true |};
               m_NewValue := {| value := JNum 2; exists_ := true |};
               m_Data := Some rename_data;
               m_Apply := ApplyValue 0 ["a"]; m_Emits := [] |}
            _ _ _ Hundo); vm_compute; reflexivity.
Defined.

Lemma apply_needs_metadata_witness :
  actions renamed_without_data !! 0 =
    Some {| m_OldValue := {| value := JStr "A"; exists_ := true |};
            m_NewValue := {| value := JStr "B"; exists_ := true |};
            m_Data := None;
            m_Apply := ApplyValue 0 ["name"];
            m_Emits := [] |} ∧
  ∃ w', HistoryAction_apply 0 Old renamed_without_data = (Throw, w') ∧
        heap w' = rename_store ∧
        trace w' = trace renamed_without_data ++ [].
Proof.
  split; [vm_compute; reflexivity|].
  refine (apply_needs_metadata renamed_without_data 0
            {| m_OldValue := {| value := JStr "A"; exists_ := true |};
               m_NewValue := {| value := JStr "B"; exists_ := true |};
               m_Data := None;
               m_Apply := ApplyValue 0 ["name"];
               m_Emits := [] |} Old rename_store _ _);
    vm_compute; reflexivity.
Defined.

Lemma removal_of_nothing_is_recorded_witness :
  heap (call (UpdateMap 3 (KNum 2) JUndefined None (Some rename_data) true)
          (initial labels_store)).2 = labels_store ∧
  s_HistoryIndex
    (call (UpdateMap 3 (KNum 2) JUndefined None (Some rename_data) true)
       (initial labels_store)).2 = 1 ∧
  ∃ w2,
    undo (call (UpdateMap 3 (KNum 2) JUndefined None (Some rename_data) true)
            (initial labels_store)).2 = (Ok tt, w2) ∧
    heap w2 = labels_store.
Proof.
  apply (removal_of_nothing_is_recorded (initial labels_store)
           (UpdateMap 3 (KNum 2) JUndefined None (Some rename_data) true) 0).
  - reflexivity.
  - unfold cursor_in_range. simpl. lia.
  - reflexivity.
  - vm_compute. reflexivity.
  - vm_compute. reflexivity.
Defined.

Lemma call_commits_on_top_witness :
  canRedo rename_undone = true ∧
  s_HistoryEntries
    (call (UpdateValue 0 ["name"] (JStr "C") None (Some rename_data) false)
       rename_undone).2
    = [{| m_Text := None; m_Actions := [1] |}] ∧
  getUndoPreview
    (call (UpdateValue 0 ["name"] (JStr "C") None (Some rename_data) false)
       rename_undone).2
    = (Ok (Some rename_data),
       (call (UpdateValue 0 ["name"] (JStr "C") None (Some rename_data) false)
          rename_undone).2) ∧
  redo
    (call (UpdateValue 0 ["name"] (JStr "C") None (Some rename_data) false)
       rename_undone).2
    = (Throw,
       (call (UpdateValue 0 ["name"] (JStr "C") None (Some rename_data) false)
          rename_undone).2).
Proof.
  split; [vm_compute; reflexivity|].
  destruct (call_commits_on_top rename_undone
              (UpdateValue 0 ["name"] (JStr "C") None (Some rename_data) false)
              1
              (call (UpdateValue 0 ["name"] (JStr "C") None (Some rename_data)
                       false) rename_undone).2 eq_refl)
    as (Hes & _ & _ & Hpreview & _ & Hredo).
  - unfold cursor_in_range. vm_compute. lia.
  - vm_compute. reflexivity.
  - split; [exact Hes|]. split; [exact Hpreview | exact Hredo].
Defined.

Lemma previews_follow_cursor_witness :
  undo renamed = (Ok tt, rename_undone) ∧
  canRedo rename_undone = true ∧
  ∃ d, getUndoPreview renamed = (Ok d, renamed) ∧
       getRedoPreview rename_undone = (Ok d, rename_undone).
Proof.
  assert (undo renamed = (Ok tt, rename_undone)) as Hundo
    by (vm_compute; reflexivity).
  split; [exact Hundo|].
  exact (proj1 (previews_follow_cursor renamed rename_undone) Hundo).
Defined.

Lemma empty_transaction_is_stored_witness :
  ∃ w1 w2,
    transaction (Some "nothing") [] (initial rename_store) = (Ok tt, w1) ∧
    s_HistoryEntries w1 = [new_HistoryEntry (Some "nothing")] ∧
    s_HistoryIndex w1 = 1 ∧
    s_Transaction w1 = None ∧
    heap w1 = rename_store ∧
    getUndoPreview w1 = (Ok None, w1) ∧
    undo w1 = (Ok tt, w2) ∧ heap w2 = rename_store.
Proof.
  apply (empty_transaction_is_stored (Some "nothing") (initial rename_store)).
  - reflexivity.
  - unfold cursor_in_range. simpl. lia.
Defined.

Lemma transaction_stuck_without_metadata_witness :
  stuck (call (UpdateValue 0 ["a"] (JNum 1) None None false) batch_open).2 ∧
  commitTransaction
    (call (UpdateValue 0 ["a"] (JNum 1) None None false) batch_open).2
  = (Throw, (call (UpdateValue 0 ["a"] (JNum 1) None None false) batch_open).2).
Proof.
  assert (stuck (call (UpdateValue 0 ["a"] (JNum 1) None None false)
                   batch_open).2) as Hstuck.
  { apply (proj1 transaction_stuck_without_metadata batch_open
             (new_HistoryEntry (Some "batch"))
             (UpdateValue 0 ["a"] (JNum 1) None None false)
             {| value := JNum 0; exists_ := true |}).
    - vm_compute. reflexivity.
    - reflexivity.
    - vm_compute. reflexivity. }
  split; [exact Hstuck|].
  exact (proj1 (proj1 (proj2 transaction_stuck_without_metadata) _ Hstuck)).
Defined.

Lemma transaction_commit_witness :
  ∃ acts ds,
    s_HistoryEntries
      (transaction (Some "batch") batch_steps (initial counter_store)).2
      = [{| m_Text := Some "batch"; m_Actions := [0; 1] |}] ∧
    map m_Emits acts = [[]; [9]] ∧
    trace (transaction (Some "batch") batch_steps (initial counter_store)).2
      = [Logged LogApply (map entity_number ds) "batch"] ∧
    ds = [rename_data; rename_data] ∧
    getUndoPreview
      (transaction (Some "batch") batch_steps (initial counter_store)).2
      = (Ok (last ds),
         (transaction (Some "batch") batch_steps (initial counter_store)).2).
Proof.
  destruct (transaction_commit (Some "batch") batch_steps
              (initial counter_store)
              (transaction (Some "batch") batch_steps
                 (initial counter_store)).2 eq_refl)
    as (acts & ds & Hes & _ & _ & _ & Hall & Hds & _ & Htr & Hpreview).
  - unfold cursor_in_range. simpl. lia.
  - vm_compute. reflexivity.
  - exists acts, ds. split; [exact Hes|].
    apply Forall2_cons_inv_l in Hall
      as (a1 & acts1 & (_ & _ & Hd1 & He1) & Hall & ->).
    apply Forall2_cons_inv_l in Hall
      as (a2 & acts2 & (_ & _ & Hd2 & He2) & Hall & ->).
    apply Forall2_nil_inv_l in Hall as ->.
    simpl in Hd1, Hd2, He1, He2, Hds.
    split; [simpl; by rewrite He1, He2|]. split; [exact Htr|].
    split; [|exact Hpreview].
    rewrite Hd1, Hd2 in Hds.
    destruct ds as [|x [|y [|z ds]]]; simplify_eq/=. reflexivity.
Defined.

Lemma callbacks_run_action_by_action_witness :
  ∃ i e acts ds,
    s_HistoryIndex
      (transaction (Some "batch") batch_steps (initial counter_store)).2
      = S i ∧
    s_HistoryEntries
      (transaction (Some "batch") batch_steps (initial counter_store)).2 !! i
      = Some e ∧
    resolve (transaction (Some "batch") batch_steps (initial counter_store)).2
      (m_Actions e) acts ∧
    map m_Data acts = map Some ds ∧
    trace (undo (transaction (Some "batch") batch_steps
                   (initial counter_store)).2).2 =
      trace (transaction (Some "batch") batch_steps (initial counter_store)).2
        ++ emitted_along Old acts
             (heap (transaction (Some "batch") batch_steps
                      (initial counter_store)).2)
        ++ printed LogUndo e (map entity_number ds).
Proof.
  apply (proj1 (callbacks_run_action_by_action
                  (transaction (Some "batch") batch_steps
                     (initial counter_store)).2
                  (undo (transaction (Some "batch") batch_steps
                           (initial counter_store)).2).2)).
  vm_compute. reflexivity.
Defined.


Lemma open_transaction_defers_commit_witness :
  s_Transaction batch_open = Some (new_HistoryEntry (Some "batch")) ∧
  s_HistoryEntries
    (call (UpdateValue 0 ["a"] (JNum 1) None None false) batch_open).2 = [] ∧
  s_HistoryIndex
    (call (UpdateValue 0 ["a"] (JNum 1) None None false) batch_open).2 = 0 ∧
  s_Transaction
    (call (UpdateValue 0 ["a"] (JNum 1) None None false) batch_open).2
    = Some (HistoryEntry_push (new_HistoryEntry (Some "batch")) 0) ∧
  heap (call (UpdateValue 0 ["a"] (JNum 1) None None false) batch_open).2
    = store_object 0 (JObj {[ "a" := JNum 1 ]}) counter_store.
Proof.
  assert (s_Transaction batch_open = Some (new_HistoryEntry (Some "batch")))
    as Hopen by (vm_compute; reflexivity).
  split; [exact Hopen|].
  destruct (open_transaction_defers_commit batch_open
              (new_HistoryEntry (Some "batch"))
              (UpdateValue 0 ["a"] (JNum 1) None None false) _ _
              Hopen (surjective_pairing _)) as (Hes & Hi & _ & Hread).
  split; [exact Hes|]. split; [exact Hi|].
  destruct (Hread {| value := JNum 0; exists_ := true |}) as [Ht Hheap].
  { vm_compute; reflexivity. }
  split; [exact Ht|]. apply Hheap. vm_compute; reflexivity.
Defined.

Lemma undo_then_redo_witness :
  placed (closure_of rename_call) (heap (initial rename_store)) ∧
  perform (rename_call, [5]) (initial rename_store)
    = (Ok tt, (perform (rename_call, [5]) (initial rename_store)).2) ∧
  ∃ w2 w3,
    undo (perform (rename_call, [5]) (initial rename_store)).2 = (Ok tt, w2) ∧
    heap w2 = rename_store ∧
    canRedo w2 = true ∧
    getRedoPreview w2 = (Ok (Some rename_data), w2) ∧
    redo w2 = (Ok tt, w3) ∧
    heap w3 = heap (perform (rename_call, [5]) (initial rename_store)).2.
Proof.
  assert (perform (rename_call, [5]) (initial rename_store)
          = (Ok tt, (perform (rename_call, [5]) (initial rename_store)).2))
    as Hrun by (vm_compute; reflexivity).
  assert (placed (closure_of rename_call) (heap (initial rename_store)))
    as Hplaced by by_evaluation.
  split; [exact Hplaced|]. split; [exact Hrun|].
  apply (undo_then_redo (initial rename_store) rename_call [5] _ eq_refl);
    [unfold cursor_in_range; simpl; lia | exact Hplaced | exact Hrun].
Defined.

Lemma call_without_metadata_witness :
  ∃ w', updateMap 3 (KNum 1) JUndefined (Some "clear") None true
          (initial labels_store) = (Throw, w') ∧
        s_HistoryEntries w' = [] ∧
        s_HistoryIndex w' = 0 ∧
        actions w' =
          [{| m_OldValue := {| value := JStr "x"; exists_ := true |};
              m_NewValue := {| value := JUndefined; exists_ := false |};
              m_Data := None; m_Apply := ApplyMap 3 (KNum 1);
              m_Emits := [] |}] ∧
        maps (heap w') !! 3 = Some ∅.
Proof.
  destruct (call_without_metadata (initial labels_store)
              (UpdateMap 3 (KNum 1) JUndefined (Some "clear") None true)
              eq_refl) as (w' & Hcall & Hes & Hi & Hread).
  exists w'. split; [exact Hcall|]. split; [exact Hes|]. split; [exact Hi|].
  destruct (Hread {| value := JStr "x"; exists_ := true |}) as [Hacts Hheap].
  { vm_compute; reflexivity. }
  split; [exact Hacts|].
  rewrite (Hheap {| objects := ∅; maps := {[ 3 := ∅ ]} |}).
  - vm_compute; reflexivity.
  - vm_compute; reflexivity.
Defined.

Lemma read_after_call_witness :
  placed (closure_of rename_call) (heap (initial rename_store)) ∧
  call rename_call (initial rename_store) = (Ok 0, renamed) ∧
  read_old (ApplyValue 0 ["name"]) (heap renamed)
    = Some {| value := JStr "B"; exists_ := true |}.
Proof.
  assert (call rename_call (initial rename_store) = (Ok 0, renamed)) as Hcall
    by (vm_compute; reflexivity).
  assert (placed (closure_of rename_call) (heap (initial rename_store)))
    as Hplaced by by_evaluation.
  split; [exact Hplaced|]. split; [exact Hcall|].
  exact (read_after_call _ _ _ _ Hplaced Hcall).
Defined.

Lemma undo_redo_round_trip_witness :
  well_placed mixed_steps (initial mixed_store) ∧
  ∃ w2 w3,
    undo_times 5 (for_each perform mixed_steps (initial mixed_store)).2
      = (Ok tt, w2) ∧
    heap w2 = mixed_store ∧
    redo_times 5 w2 = (Ok tt, w3) ∧
    heap w3 = heap (for_each perform mixed_steps (initial mixed_store)).2 ∧
    objects (heap w3) !! 2
      = Some (JArr 2 {[ "0" := JNum 11; "1" := JNum 21 ]}).
Proof.
  assert (well_placed mixed_steps (initial mixed_store)) as Hplaced
    by by_evaluation.
  split; [exact Hplaced|].
  destruct (undo_redo_round_trip mixed_steps (initial mixed_store)
              (for_each perform mixed_steps (initial mixed_store)).2 eq_refl)
    as (w2 & w3 & Hundo & Hh2 & Hredo & Hh3 & _).
  - unfold cursor_in_range. simpl. lia.
  - exact Hplaced.
  - vm_compute. reflexivity.
  - exists w2, w3. split; [exact Hundo|]. split; [exact Hh2|].
    split; [exact Hredo|]. split; [exact Hh3|].
    rewrite Hh3. vm_compute. reflexivity.
Defined.

Lemma chained_emits_wait_for_undo_witness :
  placed (closure_of rename_call) (heap (initial rename_store)) ∧
  trace (perform (rename_call, [5; 6]) (initial rename_store)).2
    = [Logged LogApply [1%Z] "rename"] ∧
  ∃ w2 w3,
    undo (perform (rename_call, [5; 6]) (initial rename_store)).2
      = (Ok tt, w2) ∧
    trace w2 =
      trace (perform (rename_call, [5; 6]) (initial rename_store)).2 ++
        [Emitted 5 rename_store; Emitted 6 rename_store] ++
        [Logged LogUndo [1%Z] "rename"] ∧
    redo w2 = (Ok tt, w3) ∧
    trace w3 =
      trace w2 ++
        map (λ f, Emitted f
               (heap (perform (rename_call, [5; 6]) (initial rename_store)).2))
          [5; 6] ++
        [Logged LogRedo [1%Z] "rename"].
Proof.
  assert (placed (closure_of rename_call) (heap (initial rename_store)))
    as Hplaced by by_evaluation.
  split; [exact Hplaced|].
  apply (chained_emits_wait_for_undo (initial rename_store) rename_call
           [5; 6]).
  - reflexivity.
  - unfold cursor_in_range. simpl. lia.
  - exact Hplaced.
  - vm_compute. reflexivity.
Defined.


Lemma transaction_round_trip_witness :
  apart (map (λ step, closure_of step.1) (take 3 mixed_steps))
    (heap (initial mixed_store)) ∧
  transaction (Some "three") (take 3 mixed_steps) (initial mixed_store)
    = (Ok tt, mixed_committed) ∧
  ∃ w2, undo mixed_committed = (Ok tt, w2) ∧ heap w2 = mixed_store.
Proof.
  assert (apart (map (λ step, closure_of step.1) (take 3 mixed_steps))
            (heap (initial mixed_store))) as Hapart by by_evaluation.
  assert (transaction (Some "three") (take 3 mixed_steps)
            (initial mixed_store) = (Ok tt, mixed_committed)) as Hrun
    by (vm_compute; reflexivity).
  split; [exact Hapart|]. split; [exact Hrun|].
  apply (transaction_round_trip (Some "three") (take 3 mixed_steps)
           (initial mixed_store)).
  - reflexivity.
  - unfold cursor_in_range. simpl. lia.
  - exact Hapart.
  - exact Hrun.
Defined.

Lemma read_after_write_witness :
  ∃ σ1 σ2,
    s_SetValue nested_store (JRef 0) ["a"; "x"]
      {| value := JNum 7; exists_ := true |} = Done σ1 ∧
    s_GetValue σ1 (JRef 0) ["a"; "x"]
      = Done {| value := JNum 7; exists_ := true |} ∧
    s_DeleteValue nested_store (JRef 0) ["a"; "x"] = Done σ2 ∧
    s_GetValue σ2 (JRef 0) ["a"; "x"]
      = Done {| value := JUndefined; exists_ := false |} ∧
    (peek (SObj 1 "x") nested_store = None → σ2 = nested_store).
Proof.
  apply (read_after_write nested_store 0 ["a"; "x"] (SObj 1 "x")
           {| value := JNum 7; exists_ := true |}).
  - vm_compute. reflexivity.
  - by_evaluation.
  - vm_compute. reflexivity.
Defined.

Lemma write_elsewhere_unseen_witness :
  s_GetValue (store_object 1 (JObj {[ "x" := JNum 7 ]}) nested_store)
    (JRef 0) ["b"]
  = s_GetValue nested_store (JRef 0) ["b"].
Proof.
  apply (write_elsewhere_unseen (ApplyValue 0 ["a"; "x"])
           {| value := JNum 7; exists_ := true |} nested_store
           (store_object 1 (JObj {[ "x" := JNum 7 ]}) nested_store)
           (SObj 1 "x") 0 ["b"]).
  - vm_compute. reflexivity.
  - vm_compute. reflexivity.
  - by_evaluation.
Defined.

Lemma no_record_made_on_the_way_witness :
  s_GetValue nested_store (JRef 0) ["b"; "y"] = Raises ∧
  (∀ v, s_SetValue nested_store (JRef 0) ["b"; "y"] v = Raises) ∧
  s_DeleteValue nested_store (JRef 0) ["b"; "y"] = Raises ∧
  updateValue 0 ["b"; "y"] (JNum 1) None None false (initial nested_store)
    = (Throw, initial nested_store).
Proof.
  apply (no_record_made_on_the_way (initial nested_store) 0 ["b"] JUndefined
           ["y"] (JNum 1) None None false).
  - vm_compute. reflexivity.
  - left. reflexivity.
  - discriminate.
Defined.

Lemma same_place_twice_keeps_first_witness :
  placed (ApplyValue 0 ["a"]) (heap (initial counter_store)) ∧
  ∃ w2,
    undo (transaction (Some "batch")
            [(UpdateValue 0 ["a"] (JNum 1) None (Some rename_data) false, []);
             (UpdateValue 0 ["a"] (JNum 2) None (Some rename_data) false, [])]
            (initial counter_store)).2 = (Ok tt, w2) ∧
    read_old (ApplyValue 0 ["a"]) (heap w2)
      = Some {| value := JNum 1; exists_ := true |}.
Proof.
  assert (placed (ApplyValue 0 ["a"]) (heap (initial counter_store)))
    as Hplaced by by_evaluation.
  split; [exact Hplaced|].
  apply (same_place_twice_keeps_first (Some "batch")
           (UpdateValue 0 ["a"] (JNum 1) None (Some rename_data) false) []
           (UpdateValue 0 ["a"] (JNum 2) None (Some rename_data) false) []
           (initial counter_store)).
  - reflexivity.
  - unfold cursor_in_range. simpl. lia.
  - reflexivity.
  - exact Hplaced.
  - vm_compute. reflexivity.
Defined.

Lemma nested_creation_blocks_undo_witness :
  transaction (Some "nest") nest_steps (initial nest_store)
    = (Ok tt, nested_committed) ∧
  canUndo nested_committed = true ∧
  ∃ w2 w3,
    undo nested_committed = (Throw, w2) ∧
    s_HistoryIndex w2 = s_HistoryIndex nested_committed ∧
    s_HistoryEntries w2 = s_HistoryEntries nested_committed ∧
    read_old (ApplyValue 0 ["c"]) (heap w2)
      = Some {| value := JUndefined; exists_ := false |} ∧
    undo w2 = (Throw, w3).
Proof.
  assert (transaction (Some "nest") nest_steps (initial nest_store)
          = (Ok tt, nested_committed)) as Hrun by (vm_compute; reflexivity).
  split; [exact Hrun|].
  apply (nested_creation_blocks_undo (Some "nest") 0 ["c"] ["x"] 0 "c"
           {[ "a" := JNum 0; "c" := JRef 1 ]}
           (JRef 1) None (Some rename_data) false []
           (JNum 1) None (Some rename_data) false []
           (initial nest_store) nested_committed).
  - reflexivity.
  - unfold cursor_in_range. simpl. lia.
  - discriminate.
  - vm_compute. reflexivity.
  - exact Hrun.
  - vm_compute. reflexivity.
  - by_evaluation.
  - vm_compute. reflexivity.
  - by_evaluation.
  - vm_compute. reflexivity.
Defined.

Lemma session_round_trip_witness :
  well_edited mixed_session (initial mixed_store) ∧
  ∃ w2 w3,
    undo_times 3 (for_each run_edit mixed_session (initial mixed_store)).2
      = (Ok tt, w2) ∧
    heap w2 = mixed_store ∧
    redo_times 3 w2 = (Ok tt, w3) ∧
    heap w3 = heap (for_each run_edit mixed_session (initial mixed_store)).2 ∧
    maps (heap w3) !! 3 = Some ∅.
Proof.
  assert (well_edited mixed_session (initial mixed_store)) as Hfit
    by by_evaluation.
  split; [exact Hfit|].
  destruct (session_round_trip mixed_session (initial mixed_store)
              (for_each run_edit mixed_session (initial mixed_store)).2
              eq_refl)
    as (w2 & w3 & Hundo & Hh2 & Hredo & Hh3 & _).
  - unfold cursor_in_range. simpl. lia.
  - exact Hfit.
  - vm_compute. reflexivity.
  - exists w2, w3. split; [exact Hundo|]. split; [exact Hh2|].
    split; [exact Hredo|]. split; [exact Hh3|].
    rewrite Hh3. vm_compute. reflexivity.
Defined.

